(** * JTAG boundary-scan helper (src/tools/fpgajtag/boundary_scan.c)

    A shallow embedding of [parse_xdc], [parse_bsdl] and the resolver and
    monitor parts of [xilinx_boundaryscan], with the C library routines they
    call ([fgets], [strstr], [strcasestr], [strcmp], [sscanf]) modelled on
    lists of characters.  Pointers to strings are [option]s ([None] is the
    null pointer), fixed-size arrays are lists whose length is the declared
    capacity, and every array access is bounds-checked so that an access the
    C program would make outside an array, or through a null pointer, shows
    up as a [Fault].

    Outside the model: the JTAG transport ([write_pattern] and the TAP state
    changes), whose captures the monitor takes as an input list; the text of
    the messages, kept as events with their arguments; and failure of
    [strdup], which is taken to return a copy. *)

From Stdlib Require Import ZArith Ascii String List Lia.
From Stdlib Require Import Strings.Byte.
From stdpp Require Import base decidable option list strings.

Local Open Scope Z_scope.

(** ** Outcomes of C code: a value, undefined behaviour, or [exit] *)

Inductive object :=
| LineBuf | PinNames | SignalNames
| BoundaryBitType | BoundaryBitFullname | BoundaryBitPin
| BbitNames | BbitIgnore | BbitShow
| Rdata | LastRdata.

Inductive fault :=
| NullPointer
| OutOfBounds (what : object) (index : Z).

Inductive outcome (A : Type) :=
| Ok (a : A)
| Fault (f : fault)
| Exit (code : Z).
Arguments Ok {A} a.
Arguments Fault {A} f.
Arguments Exit {A} code.

#[global] Instance outcome_bind : MBind outcome := fun A B k m =>
  match m with
  | Ok a => k a
  | Fault f => Fault f
  | Exit c => Exit c
  end.

(** ** Characters and C strings *)

Abbreviation cstring := (list ascii) (only parsing).

Definition str (s : string) : cstring := list_ascii_of_string s.

Definition NUL : ascii := ascii_of_nat 0.
Definition TAB : ascii := ascii_of_nat 9.
Definition NL : ascii := ascii_of_nat 10.
Definition DQUOTE : ascii := ascii_of_nat 34.

Definition isspace (c : ascii) : bool :=
  let n := nat_of_ascii c in
  Nat.eqb n 32 || (Nat.leb 9 n && Nat.leb n 13).

Definition isdigit (c : ascii) : bool :=
  let n := nat_of_ascii c in Nat.leb 48 n && Nat.leb n 57.

Definition tolower (c : ascii) : ascii :=
  let n := nat_of_ascii c in
  if Nat.leb 65 n && Nat.leb n 90 then ascii_of_nat (n + 32) else c.

Definition chr_eq (a b : ascii) : bool := bool_decide (a = b).
Definition chr_case_eq (a b : ascii) : bool := bool_decide (tolower a = tolower b).

(** [span p l] splits [l] after its longest prefix satisfying [p]. *)
Fixpoint span {A} (p : A -> bool) (l : list A) : list A * list A :=
  match l with
  | [] => ([], [])
  | x :: r => if p x then let '(a, b) := span p r in (x :: a, b) else ([], l)
  end.

(** *** strcmp, strstr, strcasestr *)

(** [strcmp a b == 0]; either argument null is undefined behaviour. *)
Definition strcmp_eq (a b : option cstring) : outcome bool :=
  match a, b with
  | Some x, Some y => Ok (bool_decide (x = y))
  | _, _ => Fault NullPointer
  end.

Fixpoint prefix_by (eqc : ascii -> ascii -> bool) (needle hay : cstring) : bool :=
  match needle, hay with
  | [], _ => true
  | _ :: _, [] => false
  | a :: n', b :: h' => eqc b a && prefix_by eqc n' h'
  end.

(** Offset of the first occurrence of [needle] in [hay]. *)
Fixpoint find_sub (eqc : ascii -> ascii -> bool) (needle hay : cstring) : option nat :=
  if prefix_by eqc needle hay then Some 0%nat
  else match hay with
       | [] => None
       | _ :: h' => S <$> find_sub eqc needle h'
       end.

Definition strstr (hay needle : cstring) : option nat := find_sub chr_eq needle hay.
Definition strcasestr (hay needle : cstring) : option nat := find_sub chr_case_eq needle hay.

(** ** sscanf, for the conversions the two format strings use *)

Inductive directive :=
| DSpace                                   (* white space: skips any white space *)
| DChar (c : ascii)                        (* ordinary character: must match *)
| DStr (assign : bool)                     (* %s *)
| DInt (assign : bool)                     (* %d, %*d *)
| DSet (assign negate : bool) (set : cstring).  (* %[...], %*[...], %[^...] *)

Inductive fmt_mode :=
| FmtText
| FmtConv (assign : bool)
| FmtSetStart (assign : bool)
| FmtSet (assign negate : bool) (acc : cstring).

Fixpoint parse_format (m : fmt_mode) (f : cstring) : list directive :=
  match f with
  | [] => []
  | c :: r =>
    match m with
    | FmtText =>
      if chr_eq c "%" then parse_format (FmtConv true) r
      else if isspace c then DSpace :: parse_format FmtText r
      else DChar c :: parse_format FmtText r
    | FmtConv a =>
      if chr_eq c "*" then parse_format (FmtConv false) r
      else if chr_eq c "s" then DStr a :: parse_format FmtText r
      else if chr_eq c "d" then DInt a :: parse_format FmtText r
      else if chr_eq c "[" then parse_format (FmtSetStart a) r
      else []
    | FmtSetStart a =>
      if chr_eq c "^" then parse_format (FmtSet a true []) r
      else parse_format (FmtSet a false [c]) r
    | FmtSet a n acc =>
      if chr_eq c "]" then DSet a n acc :: parse_format FmtText r
      else parse_format (FmtSet a n (acc ++ [c])) r
    end
  end.

Inductive scan_value :=
| VStr (s : cstring)
| VInt (n : Z).

Definition EOF : Z := -1.

Definition skip_space (input : cstring) : cstring := snd (span isspace input).

(** A failed directive ends the scan.  The result is the number of items
    assigned so far; an input failure (end of input) before any assignment
    gives [EOF]. *)
Definition scan_stop (input_failure : bool) (acc : list scan_value) : Z * list scan_value :=
  (match acc with
   | [] => if input_failure then EOF else 0
   | _ => Z.of_nat (length acc)
   end, acc).

Definition push (assign : bool) (v : scan_value) (acc : list scan_value) :=
  if assign then acc ++ [v] else acc.

Definition digit_val (c : ascii) : Z := Z.of_nat (nat_of_ascii c) - 48.

Definition decimal (ds : cstring) : Z :=
  fold_left (fun v c => 10 * v + digit_val c) ds 0.

(** [strtol] saturates at the range of [long]; storing through an [int *]
    keeps the low 32 bits. *)
Definition clamp_long (v : Z) : Z := Z.max (- 2 ^ 63) (Z.min (2 ^ 63 - 1) v).
Definition to_int (v : Z) : Z := (v + 2 ^ 31) mod 2 ^ 32 - 2 ^ 31.

Definition scan_int (input : cstring) : option (Z * cstring) :=
  let '(neg, body) :=
    match input with
    | c :: r => if chr_eq c "-" then (true, r)
                else if chr_eq c "+" then (false, r) else (false, input)
    | [] => (false, input)
    end in
  let '(ds, rest) := span isdigit body in
  match ds with
  | [] => None
  | _ => let v := decimal ds in
         Some (to_int (clamp_long (if neg then - v else v)), rest)
  end.

Definition in_set (negate : bool) (set : cstring) (c : ascii) : bool :=
  xorb negate (bool_decide (c ∈ set)).

Fixpoint scan (fmt : list directive) (input : cstring) (acc : list scan_value)
  : Z * list scan_value :=
  match fmt with
  | [] => (Z.of_nat (length acc), acc)
  | DSpace :: fmt' => scan fmt' (skip_space input) acc
  | DChar c :: fmt' =>
    match input with
    | [] => scan_stop true acc
    | x :: r => if chr_eq x c then scan fmt' r acc else scan_stop false acc
    end
  | DStr a :: fmt' =>
    match skip_space input with
    | [] => scan_stop true acc
    | inp => let '(tok, rest) := span (fun c => negb (isspace c)) inp in
             scan fmt' rest (push a (VStr tok) acc)
    end
  | DInt a :: fmt' =>
    match skip_space input with
    | [] => scan_stop true acc
    | inp => match scan_int inp with
             | None => scan_stop false acc
             | Some (n, rest) => scan fmt' rest (push a (VInt n) acc)
             end
    end
  | DSet a neg set :: fmt' =>
    match input with
    | [] => scan_stop true acc
    | _ => let '(tok, rest) := span (in_set neg set) input in
           match tok with
           | [] => scan_stop false acc
           | _ => scan fmt' rest (push a (VStr tok) acc)
           end
    end
  end.

Definition sscanf (s : cstring) (format : cstring) : Z * list scan_value :=
  scan (parse_format FmtText format) s [].

(** The two format strings of [parse_bsdl]. *)
Definition header_format : cstring :=
  str "attribute BOUNDARY_LENGTH of %s : entity is %d;".

Definition bit_format : cstring :=
  str "%*[ " ++ [TAB] ++ str "]" ++ [DQUOTE] ++ str "%*[ " ++ [TAB]
      ++ str "]%d (BC_%*d, %[^,], %[^,], %[^,)]".

(** ** Arrays and loops *)

Definition MAX_PINS : Z := 4096.
Definition MAX_BOUNDARY_BITS : Z := 8192.
Definition LINE_SIZE : nat := 1024.

(** [arr[i]] as an rvalue and [arr[i] = x], on an array of [length arr]
    elements. *)
Definition load {A} (what : object) (arr : list A) (i : Z) : outcome A :=
  match (if 0 <=? i then arr !! Z.to_nat i else None) with
  | Some x => Ok x
  | None => Fault (OutOfBounds what i)
  end.

Definition store {A} (what : object) (arr : list A) (i : Z) (x : A) : outcome (list A) :=
  if (0 <=? i) && (i <? Z.of_nat (length arr))
  then Ok (<[Z.to_nat i := x]> arr)
  else Fault (OutOfBounds what i).

(** [for (int i = lo; i < hi; i++) s = body(i, s);] *)
Fixpoint for_loop {S} (n : nat) (i : Z) (body : Z -> S -> outcome S) (s : S) : outcome S :=
  match n with
  | O => Ok s
  | Datatypes.S n' => s' ← body i s; for_loop n' (i + 1) body s'
  end.

Definition for_range {S} (lo hi : Z) (body : Z -> S -> outcome S) (s : S) : outcome S :=
  for_loop (Z.to_nat (hi - lo)) lo body s.

(** ** Program state *)

(** The file-scope variables.  Array elements are [char *]. *)
Record globals := Globals {
  pin_names : list (option cstring);
  signal_names : list (option cstring);
  pin_count : Z;
  boundary_bit_type : list (option cstring);
  boundary_bit_fullname : list (option cstring);
  boundary_bit_pin : list (option cstring);
  boundary_bit_count : Z;
  part_name : cstring
}.

(** Static storage is zero-initialised. *)
Definition initial_globals : globals :=
  {| pin_names := replicate (Z.to_nat MAX_PINS) None;
     signal_names := replicate (Z.to_nat MAX_PINS) None;
     pin_count := 0;
     boundary_bit_type := replicate (Z.to_nat MAX_BOUNDARY_BITS) None;
     boundary_bit_fullname := replicate (Z.to_nat MAX_BOUNDARY_BITS) None;
     boundary_bit_pin := replicate (Z.to_nat MAX_BOUNDARY_BITS) None;
     boundary_bit_count := 0;
     part_name := [] |}.

(** The arrays have their declared sizes. *)
Record wf_globals (g : globals) : Prop := {
  wf_pin_names : length (pin_names g) = Z.to_nat MAX_PINS;
  wf_signal_names : length (signal_names g) = Z.to_nat MAX_PINS;
  wf_bit_type : length (boundary_bit_type g) = Z.to_nat MAX_BOUNDARY_BITS;
  wf_bit_fullname : length (boundary_bit_fullname g) = Z.to_nat MAX_BOUNDARY_BITS;
  wf_bit_pin : length (boundary_bit_pin g) = Z.to_nat MAX_BOUNDARY_BITS
}.

(** What the program writes to stdout and stderr, by statement. *)
Inductive event :=
| WarnNoXdc
| WarnNoBsdl
| FpgaAssumed (part : cstring) (bits : Z)
| ApplySensitivity (sens : cstring)
| AddSensitivity (signal : cstring)
| SignalsChanged (time_delta : Z)
| BitReport (i : Z) (fullname pin signal : cstring) (value : Z)
| DumpBytes (col : Z) (msg : cstring) (data : list byte).

(** ** Reading a file with [fgets (line, 1024, f)] *)

(** The successive results of [fgets (line, 1024, f)] on a stream holding
    [file]: each holds at most 1023 characters and ends after a newline.
    [cur] is what the current call has read so far, [room] what it may
    still read. *)
Fixpoint file_chunks (room : nat) (cur : list ascii) (file : list ascii)
  : list (list ascii) :=
  match file with
  | [] => match cur with [] => [] | _ => [cur] end
  | c :: rest =>
    if chr_eq c NL then (cur ++ [c]) :: file_chunks (LINE_SIZE - 1) [] rest
    else match room with
         | 0%nat | 1%nat => (cur ++ [c]) :: file_chunks (LINE_SIZE - 1) [] rest
         | Datatypes.S room' => file_chunks room' (cur ++ [c]) rest
         end
  end.

Definition fgets_results (file : list ascii) : list (list ascii) :=
  file_chunks (LINE_SIZE - 1) [] file.

(** [line[0] = 0; fgets (line, 1024, f);] where [fgets] reads [chunk]:
    the characters read and a terminator overwrite the start of [line]. *)
Definition read_into (line : list ascii) (chunk : list ascii) : list ascii :=
  chunk ++ NUL :: drop (Datatypes.S (length chunk)) line.

(** The C string starting at the head of [l]. *)
Definition cstr (l : list ascii) : cstring :=
  fst (span (fun c => negb (chr_eq c NUL)) l).

(** The C string at [&line[p]]; reading on past the end of the array when
    no terminator follows. *)
Definition cstr_at (line : list ascii) (p : nat) : outcome cstring :=
  match span (fun c => negb (chr_eq c NUL)) (drop p line) with
  | (s, _ :: _) => Ok s
  | (_, []) => Fault (OutOfBounds LineBuf (Z.of_nat (length line)))
  end.

(** ** parse_xdc *)

(** [for (i = 0; p[i]; i++) if (p[i] == ' ') { p[i] = 0; break; }]
    on the characters from [p] to the end of the array. *)
Fixpoint cut_at_space (l : list ascii) : option (list ascii) :=
  match l with
  | [] => None
  | c :: r =>
    if chr_eq c NUL then Some l
    else if chr_eq c " " then Some (NUL :: r)
    else (c ::.) <$> cut_at_space r
  end.

(** The loop over [signal_name[i]] with its bracket counter. *)
Fixpoint cut_at_bracket (opening_square_brackets : nat) (l : list ascii)
  : option (list ascii) :=
  match l with
  | [] => None
  | c :: r =>
    if chr_eq c NUL then Some l
    else
      let depth := if chr_eq c "[" then Datatypes.S opening_square_brackets
                   else opening_square_brackets in
      if chr_eq c "]" then
        match depth with
        | Datatypes.S d => (c ::.) <$> cut_at_bracket d r
        | O => Some (NUL :: r)
        end
      else (c ::.) <$> cut_at_bracket depth r
  end.

Definition rewrite_from (line : list ascii) (p : nat)
    (f : list ascii -> option (list ascii)) : outcome (list ascii) :=
  match f (drop p line) with
  | Some t => Ok (take p line ++ t)
  | None => Fault (OutOfBounds LineBuf (Z.of_nat (length line)))
  end.

(** [while (signal_name[0] == '{') signal_name++;] *)
Fixpoint leading_braces (l : list ascii) : nat :=
  match l with
  | c :: r => if chr_eq c "{" then Datatypes.S (leading_braces r) else O
  | [] => O
  end.

(** [while (s[0] && s[strlen (s) - 1] == '}') s[strlen (s) - 1] = 0;]
    every closing brace at the end of the string becomes a terminator. *)
Definition trim_closing (line : list ascii) (p : nat) : list ascii :=
  let s := cstr (drop p line) in
  let '(braces, _) := span (fun c => chr_eq c "}") (rev s) in
  let kept := (length s - length braces)%nat in
  take (p + kept) line ++ replicate (length braces) NUL
       ++ drop (p + length s) line.

(** The body of the loop for one line held in [line]: the array after the
    in-place edits, and the mapping when both names were found. *)
Definition xdc_line (line : list ascii)
  : outcome (list ascii * option (cstring * cstring)) :=
  if bool_decide (head line = Some "#"%char) then Ok (line, None)
  else
    let package_pin := strstr (cstr line) (str "PACKAGE_PIN") in
    let get_ports := strstr (cstr line) (str "get_ports") in
    let pin_name := (fun o => o + length (str "PACKAGE_PIN "))%nat <$> package_pin in
    line ← match pin_name with
           | Some p => rewrite_from line p cut_at_space
           | None => Ok line
           end;
    let signal_name := (fun o => o + length (str "get_ports "))%nat <$> get_ports in
    line ← match signal_name with
           | Some p => rewrite_from line p (cut_at_bracket 0)
           | None => Ok line
           end;
    let signal_name := (fun p => p + leading_braces (drop p line))%nat <$> signal_name in
    let line := match signal_name with
                | Some p => trim_closing line p
                | None => line
                end in
    match pin_name, signal_name with
    | Some pp, Some sp =>
      pin ← cstr_at line pp; signal ← cstr_at line sp;
      Ok (line, Some (pin, signal))
    | _, _ => Ok (line, None)
    end.

(** [pin_names[pin_count] = strdup (pin_name);
     signal_names[pin_count] = strdup (signal_name); pin_count++;] *)
Definition add_pin (g : globals) (m : cstring * cstring) : outcome globals :=
  pins ← store PinNames (pin_names g) (pin_count g) (Some (fst m));
  signals ← store SignalNames (signal_names g) (pin_count g) (Some (snd m));
  Ok {| pin_names := pins; signal_names := signals; pin_count := pin_count g + 1;
        boundary_bit_type := boundary_bit_type g;
        boundary_bit_fullname := boundary_bit_fullname g;
        boundary_bit_pin := boundary_bit_pin g;
        boundary_bit_count := boundary_bit_count g;
        part_name := part_name g |}.

(** The [while (line[0])] loop; [chunks] is what the remaining calls of
    [fgets] will read.  At end of file [fgets] leaves [line[0] == 0]. *)
Fixpoint parse_xdc_loop (chunks : list (list ascii)) (line : list ascii)
    (g : globals) : outcome globals :=
  match chunks with
  | [] => Ok g
  | chunk :: chunks' =>
    let line := read_into line chunk in
    if bool_decide (head line = Some NUL) then Ok g
    else
      '(line, found) ← xdc_line line;
      g ← match found with
          | Some m => add_pin g m
          | None => Ok g
          end;
      parse_xdc_loop chunks' line g
  end.

(** [file] is [None] when [fopen] fails; [line0] is what the stack holds
    where [line] is allocated. *)
Definition parse_xdc (file : option (list ascii)) (line0 : list ascii)
    (g : globals) : outcome globals :=
  match file with
  | None => Exit (-1)
  | Some f => parse_xdc_loop (fgets_results f) line0 g
  end.

(** ** parse_bsdl *)

Definition set_part_name (g : globals) (p : cstring) : globals :=
  {| pin_names := pin_names g; signal_names := signal_names g;
     pin_count := pin_count g;
     boundary_bit_type := boundary_bit_type g;
     boundary_bit_fullname := boundary_bit_fullname g;
     boundary_bit_pin := boundary_bit_pin g;
     boundary_bit_count := boundary_bit_count g;
     part_name := p |}.

Definition set_boundary_bit_count (g : globals) (n : Z) : globals :=
  {| pin_names := pin_names g; signal_names := signal_names g;
     pin_count := pin_count g;
     boundary_bit_type := boundary_bit_type g;
     boundary_bit_fullname := boundary_bit_fullname g;
     boundary_bit_pin := boundary_bit_pin g;
     boundary_bit_count := n;
     part_name := part_name g |}.

Definition set_boundary_bits (g : globals)
    (types fullnames pins : list (option cstring)) : globals :=
  {| pin_names := pin_names g; signal_names := signal_names g;
     pin_count := pin_count g;
     boundary_bit_type := types;
     boundary_bit_fullname := fullnames;
     boundary_bit_pin := pins;
     boundary_bit_count := boundary_bit_count g;
     part_name := part_name g |}.

(** [sscanf] stores each converted item as soon as it is converted, so a
    line on which only [%s] converts still overwrites [part_name]. *)
Definition scan_header (g : globals) (line : cstring) : globals * list event :=
  let '(n, vals) := sscanf line header_format in
  let g := match vals with
           | VStr p :: rest =>
             let g := set_part_name g p in
             match rest with
             | VInt c :: _ => set_boundary_bit_count g c
             | _ => g
             end
           | _ => g
           end in
  (g, if n =? 2 then [FpgaAssumed (part_name g) (boundary_bit_count g)] else []).

(** [bit_pin = bit_name; for (i...) if (bit_name[i] == '_') bit_pin = &bit_name[i+1];] *)
Fixpoint after_underscores (bit_pin : cstring) (rest : cstring) : cstring :=
  match rest with
  | [] => bit_pin
  | c :: r => if chr_eq c "_" then after_underscores r r else after_underscores bit_pin r
  end.

Definition scan_bit (g : globals) (line : cstring) : outcome globals :=
  let '(n, vals) := sscanf line bit_format in
  if n =? 4 then
    match vals with
    | [VInt bit_number; VStr bit_name; VStr bit_type; VStr bit_default] =>
      if (0 <=? bit_number) && (bit_number <? MAX_BOUNDARY_BITS) then
        types ← store BoundaryBitType (boundary_bit_type g) bit_number (Some bit_type);
        fullnames ← store BoundaryBitFullname (boundary_bit_fullname g) bit_number
                      (Some bit_name);
        let bit_pin := after_underscores bit_name bit_name in
        pins ← store BoundaryBitPin (boundary_bit_pin g) bit_number (Some bit_pin);
        Ok (set_boundary_bits g types fullnames pins)
      else Ok g
    | _ => Ok g
    end
  else Ok g.

(** The body of the loop for one line. *)
Definition bsdl_line (g : globals) (line : cstring) : outcome (globals * list event) :=
  let '(g, out) := scan_header g line in
  g ← scan_bit g line;
  Ok (g, out).

Fixpoint parse_bsdl_loop (chunks : list (list ascii)) (g : globals)
    (out : list event) : outcome (globals * list event) :=
  match chunks with
  | [] => Ok (g, out)
  | chunk :: chunks' =>
    match cstr chunk with
    | [] => Ok (g, out)
    | line => '(g, ev) ← bsdl_line g line; parse_bsdl_loop chunks' g (out ++ ev)
    end
  end.

Definition parse_bsdl (file : option (list ascii)) (g : globals)
  : outcome (globals * list event) :=
  match file with
  | None => Exit (-1)
  | Some f => parse_bsdl_loop (fgets_results f) g []
  end.

(** ** xilinx_boundaryscan: the resolver *)

(** The arrays local to [xilinx_boundaryscan]. *)
Record locals := Locals {
  bbit_names : list (option cstring);
  bbit_ignore : list Z;
  bbit_show : list Z
}.

Record wf_locals (l : locals) : Prop := {
  wf_bbit_names : length (bbit_names l) = Z.to_nat MAX_BOUNDARY_BITS;
  wf_bbit_ignore : length (bbit_ignore l) = Z.to_nat MAX_BOUNDARY_BITS;
  wf_bbit_show : length (bbit_show l) = Z.to_nat MAX_BOUNDARY_BITS
}.

(** Using a [char *] as a string. *)
Definition deref {A} (p : option A) : outcome A :=
  match p with
  | Some x => Ok x
  | None => Fault NullPointer
  end.

Definition unknown : cstring := str "<unknown>".

(** [s = "<unknown>";
     for (j...) if (!strcmp (pin_names[j], boundary_bit_pin[i])) s = signal_names[j];] *)
Definition resolve_signal (g : globals) (i : Z) : outcome (option cstring) :=
  for_range 0 (pin_count g)
    (fun j s =>
       pin ← load PinNames (pin_names g) j;
       bit_pin ← load BoundaryBitPin (boundary_bit_pin g) i;
       same ← strcmp_eq pin bit_pin;
       if same : bool then load SignalNames (signal_names g) j else Ok s)
    (Some unknown).

(** The body of the loop that maps JTAG bits to pins. *)
Definition resolve_bit (g : globals) (sensitivity : option cstring) (i : Z)
    (st : locals * list event) : outcome (locals * list event) :=
  let '(l, out) := st in
  s ← resolve_signal g i;
  names ← store BbitNames (bbit_names l) i s;
  is_clk ← strcmp_eq (Some (str "CLK_IN")) s;
  ignore ← store BbitIgnore (bbit_ignore l) i (if is_clk : bool then 1 else 0);
  '(ignore, out) ←
    match sensitivity with
    | Some sens =>
      let out := if i =? 0 then out ++ [ApplySensitivity sens] else out in
      signal ← deref s;
      match strcasestr sens signal with
      | Some _ =>
        ignore ← store BbitIgnore ignore i 0;
        Ok (ignore, out ++ [AddSensitivity signal])
      | None =>
        ignore ← store BbitIgnore ignore i 1;
        Ok (ignore, out)
      end
    | None => Ok (ignore, out)
    end;
  type ← load BoundaryBitType (boundary_bit_type g) i;
  is_input ← strcmp_eq type (Some (str "input"));
  show ← store BbitShow (bbit_show l) i (if is_input : bool then 1 else 0);
  Ok ({| bbit_names := names; bbit_ignore := ignore; bbit_show := show |}, out).

Definition build_resolver (g : globals) (sensitivity : option cstring)
    (l : locals) (out : list event) : outcome (locals * list event) :=
  for_range 0 (boundary_bit_count g) (resolve_bit g sensitivity) (l, out).

(** [boundary_bit_type[i] = NULL; ...] for every [i] below
    [MAX_BOUNDARY_BITS], the size of the three arrays. *)
Definition clear_boundary_bits (g : globals) : globals :=
  let nulls := replicate (Z.to_nat MAX_BOUNDARY_BITS) None in
  set_boundary_bits g nulls nulls nulls.

(** [xilinx_boundaryscan] up to the monitor loop.  [fs] gives the content
    of the files that can be opened; [line0] and [l0] are what the stack
    holds where [line] and the three local arrays are allocated. *)
Definition load_phase (fs : cstring -> option (list ascii))
    (xdc bsdl sensitivity : option cstring)
    (line0 : list ascii) (l0 : locals) (g : globals)
  : outcome (globals * locals * list event) :=
  '(g, out) ← match xdc with
              | Some name => g ← parse_xdc (fs name) line0 g; Ok (g, [])
              | None => Ok (g, [WarnNoXdc])
              end;
  let g := clear_boundary_bits g in
  '(g, out) ← match bsdl with
              | Some name => '(g, ev) ← parse_bsdl (fs name) g; Ok (g, out ++ ev)
              | None => Ok (g, out ++ [WarnNoBsdl])
              end;
  '(l, out) ← build_resolver g sensitivity l0 out;
  Ok (g, l, out).

(** ** xilinx_boundaryscan: the monitor loop *)

Definition uint8 (b : byte) : Z := Z.of_N (Byte.to_N b).

(** [last_rdata] is an array of plain [char], signed on the platforms the
    tool is built for. *)
Definition schar (b : byte) : Z :=
  if uint8 b <? 128 then uint8 b else uint8 b - 256.

(** [(x >> (i & 7)) & 1] *)
Definition bit_of (x : Z) (i : Z) : Z := Z.land (Z.shiftr x (Z.land i 7)) 1.

Record monitor := Monitor {
  last_rdata : list byte;
  first_time : Z
}.

(** The body of the loop over the bits of one capture; the state is
    [count_shown] and the output so far.  A null pointer for a [%s] of
    [printf] is undefined behaviour, hence the [deref]s. *)
Definition report_bit (g : globals) (l : locals) (sensitivity : option cstring)
    (m : monitor) (rdata : list byte) (time_delta : Z) (i : Z)
    (st : Z * list event) : outcome (Z * list event) :=
  let '(count_shown, out) := st in
  cur ← load Rdata rdata (Z.shiftr i 3);
  let value := bit_of (uint8 cur) i in
  prev ← load LastRdata (last_rdata m) (Z.shiftr i 3);
  let last_value := bit_of (schar prev) i in
  show ← load BbitShow (bbit_show l) i;
  if show =? 0 then Ok st
  else if negb (first_time m =? 0) || negb (last_value =? value) then
    wanted ← (if negb (first_time m =? 0) && bool_decide (sensitivity = None)
              then Ok true
              else ignore ← load BbitIgnore (bbit_ignore l) i; Ok (ignore =? 0));
    if wanted : bool then
      let out := if count_shown =? 0 then out ++ [SignalsChanged time_delta] else out in
      fullname ← load BoundaryBitFullname (boundary_bit_fullname g) i ≫= deref;
      pin ← load BoundaryBitPin (boundary_bit_pin g) i ≫= deref;
      signal ← load BbitNames (bbit_names l) i ≫= deref;
      Ok (count_shown + 1, out ++ [BitReport i fullname pin signal value])
    else Ok st
  else Ok st.

(** The first [n] bytes of the capture, as [dump_bytes] and [bcopy] read
    them. *)
Definition read_bytes (rdata : list byte) (n : nat) : outcome (list byte) :=
  if decide (n <= length rdata)%nat then Ok (take n rdata)
  else Fault (OutOfBounds Rdata (Z.of_nat (length rdata))).

(** One turn of the [do ... while (loop)] loop, from the capture [rdata]
    the transport returned [time_delta] milliseconds after the start. *)
Definition scan_iteration (g : globals) (l : locals)
    (bsdl sensitivity : option cstring) (capture : Z * list byte)
    (m : monitor) : outcome (monitor * list event) :=
  let '(time_delta, rdata) := capture in
  out ← match bsdl with
        | None =>
          data ← read_bytes rdata 256;
          Ok [DumpBytes 0 (str "boundary data") data]
        | Some _ =>
          '(_, out) ← for_range 0 (boundary_bit_count g)
                        (report_bit g l sensitivity m rdata time_delta) (0, []);
          Ok out
        end;
  copied ← read_bytes rdata 1024;
  Ok ({| last_rdata := copied; first_time := 0 |}, out).

(** The loop over the captures the transport returns, one after the other;
    the output of each turn is kept apart. *)
Fixpoint monitor_loop (g : globals) (l : locals)
    (bsdl sensitivity : option cstring) (captures : list (Z * list byte))
    (m : monitor) : outcome (monitor * list (list event)) :=
  match captures with
  | [] => Ok (m, [])
  | c :: captures' =>
    '(m, out) ← scan_iteration g l bsdl sensitivity c m;
    '(m, outs) ← monitor_loop g l bsdl sensitivity captures' m;
    Ok (m, out :: outs)
  end.

(** ** Definitions for the statements *)

(** *** Lines of a file *)

(** A result of [fgets]: between 1 and 1023 characters, a newline only as
    the last. *)
Definition fgets_line (chunk : list ascii) : Prop :=
  (1 <= length chunk <= LINE_SIZE - 1)%nat
  /\ forall pre post, chunk = pre ++ NL :: post -> post = [].

(** A result cut short by neither the end of the file nor the size of the
    buffer ends in a newline. *)
Definition fgets_full (chunk : list ascii) : Prop :=
  last chunk = Some NL \/ length chunk = (LINE_SIZE - 1)%nat.

(** A line of text that [fgets] reads in one call: at most 1023 characters,
    the last of them its only newline. *)
Definition whole_line (line : list ascii) : Prop :=
  (length line < LINE_SIZE)%nat
  /\ exists body, line = body ++ [NL] /\ NL ∉ body.

(** *** sscanf *)

(** The two format strings as directives. *)
Definition header_directives : list directive :=
  Eval vm_compute in parse_format FmtText header_format.
Definition bit_directives : list directive :=
  Eval vm_compute in parse_format FmtText bit_format.

(** The kinds of item a format assigns, in order. *)
Inductive kind := KStr | KInt.

Definition value_kind (v : scan_value) : kind :=
  match v with VStr _ => KStr | VInt _ => KInt end.

Definition directive_kind (d : directive) : option kind :=
  match d with
  | DStr true | DSet true _ _ => Some KStr
  | DInt true => Some KInt
  | _ => None
  end.

(** The strings among scanned items are at most [n] characters long. *)
Definition strings_within (n : nat) (vals : list scan_value) : Prop :=
  forall s, VStr s ∈ vals -> (length s <= n)%nat.

(** [l] is empty or starts with a character [p] rejects: a run of
    characters [p] accepts ends before it. *)
Definition stops (p : ascii -> bool) (l : cstring) : Prop :=
  match l with
  | [] => True
  | c :: _ => p c = false
  end.

(** White space, possibly none. *)
Definition spaces (w : cstring) : Prop := Forall (fun c => isspace c = true) w.

(** One or more spaces and tabs. *)
Definition blanks (b : cstring) : Prop :=
  b <> [] /\ Forall (fun c => c = " "%char \/ c = TAB) b.

(** One or more decimal digits. *)
Definition digits (ds : cstring) : Prop :=
  ds <> [] /\ Forall (fun c => isdigit c = true) ds.

(** A word: one or more characters, none of them white space. *)
Definition word (s : cstring) : Prop :=
  s <> [] /\ Forall (fun c => isspace c = false) s.

(** A field of a record: one or more characters, none of them in [stop],
    the first not white space. *)
Definition field (stop : cstring) (f : cstring) : Prop :=
  f <> [] /\ stops isspace f /\ Forall (fun c => c ∉ stop) f.

(** *** The pin file *)

(** The pin tables hold the mappings [records], in order. *)
Definition holds_mappings (g : globals) (records : list (cstring * cstring)) : Prop :=
  pin_count g = Z.of_nat (length records)
  /\ forall (j : nat) r, records !! j = Some r ->
       pin_names g !! j = Some (Some (fst r))
       /\ signal_names g !! j = Some (Some (snd r)).

(** The mappings the lines of a pin file yield, in file order: the loop of
    [parse_xdc] without its stores. *)
Fixpoint xdc_mappings (chunks : list (list ascii)) (line : list ascii)
  : outcome (list (cstring * cstring)) :=
  match chunks with
  | [] => Ok []
  | chunk :: chunks' =>
    let line := read_into line chunk in
    if bool_decide (head line = Some NUL) then Ok []
    else
      '(line, found) ← xdc_line line;
      ms ← xdc_mappings chunks' line;
      Ok (match found with Some m => m :: ms | None => ms end)
  end.

(** The square brackets of [s] are matched, [depth] of them being open
    before it. *)
Fixpoint brackets_matched (depth : nat) (s : cstring) : bool :=
  match s with
  | [] => bool_decide (depth = 0%nat)
  | c :: r =>
    if chr_eq c "[" then brackets_matched (Datatypes.S depth) r
    else if chr_eq c "]" then
      match depth with
      | Datatypes.S d => brackets_matched d r
      | O => false
      end
    else brackets_matched depth r
  end.

(** The text of a pin constraint: [pin] after the first PACKAGE_PIN and
    [body], in [opens] and [closes] braces, after the first get_ports. *)
Definition constraint_text (pre pin mid : cstring) (opens : nat) (body : cstring)
    (closes : nat) (post : cstring) : cstring :=
  pre ++ str "PACKAGE_PIN " ++ pin ++ str " " ++ mid ++ str "get_ports "
    ++ replicate opens "{"%char ++ body ++ replicate closes "}"%char ++ str "]" ++ post.

(** [l'] is [l] with some characters replaced by terminators. *)
Definition keeps_nuls (l l' : list ascii) : Prop :=
  length l' = length l /\ forall k, l !! k = Some NUL -> l' !! k = Some NUL.

(** What a line of a pin file yields: nothing for a comment and for a line
    without one of the two keywords, the pin and the port for a
    constraint. *)
Inductive line_yields : list ascii -> option (cstring * cstring) -> Prop :=
| comment_line chunk :
    head chunk = Some "#"%char -> line_yields chunk None
| other_line chunk :
    strstr chunk (str "PACKAGE_PIN") = None \/ strstr chunk (str "get_ports") = None ->
    line_yields chunk None
| constraint_line chunk pre pin mid opens body closes post :
    chunk = constraint_text pre pin mid opens body closes post ->
    head chunk <> Some "#"%char ->
    strstr chunk (str "PACKAGE_PIN") = Some (length pre) ->
    strstr chunk (str "get_ports")
    = Some (length (pre ++ str "PACKAGE_PIN " ++ pin ++ str " " ++ mid)) ->
    (" "%char) ∉ pin -> brackets_matched 0 body = true ->
    head body <> Some "{"%char -> last body <> Some "}"%char ->
    line_yields chunk (Some (pin, body)).

(** A pin file given by its lines, all whole and free of zero bytes, and
    what each of them yields. *)
Definition pin_file_form (lines : list (list ascii))
    (founds : list (option (cstring * cstring))) : Prop :=
  Forall whole_line lines /\ Forall (fun line => NUL ∉ line) lines
  /\ Forall2 line_yields lines founds.

(** *** The layout file *)

(** The lines [parse_bsdl] works on: what [fgets] reads, as C strings, up
    to the first one that is empty. *)
Fixpoint bsdl_lines (chunks : list (list ascii)) : list cstring :=
  match chunks with
  | [] => []
  | chunk :: chunks' =>
    match cstr chunk with
    | [] => []
    | line => line :: bsdl_lines chunks'
    end
  end.

(** The identifier and count of a line on which the header pattern
    converts both items, and the identifier of a line on which it converts
    at least the first. *)
Definition header_of (line : cstring) : option (cstring * Z) :=
  match snd (sscanf line header_format) with
  | [VStr p; VInt c] => Some (p, c)
  | _ => None
  end.

Definition identifier_of (line : cstring) : option cstring :=
  match snd (sscanf line header_format) with
  | VStr p :: _ => Some p
  | _ => None
  end.

Definition header_message (h : cstring * Z) : event := FpgaAssumed (fst h) (snd h).

(** The value the last of [lines] with one gives, or [d]. *)
Definition latest {A} (f : cstring -> option A) (d : A) (lines : list cstring) : A :=
  fold_left (fun acc line => default acc (f line)) lines d.

(** The string an array of [char *] holds at [i]. *)
Definition name_at (arr : list (option cstring)) (i : Z) : cstring :=
  default [] (mjoin (arr !! Z.to_nat i)).

Definition named (arr : list (option cstring)) (i : Z) : Prop :=
  exists s, arr !! Z.to_nat i = Some (Some s).

(** The three strings of a layout record are stored together: a bit with
    a type has a full name and a pin. *)
Definition bits_together (g : globals) : Prop :=
  forall i, named (boundary_bit_type g) i ->
    named (boundary_bit_fullname g) i /\ named (boundary_bit_pin g) i.

(** The tables hold [records] and a stored layout record for every bit
    below [n]. *)
Record tables_ready (g : globals) (records : list (cstring * cstring)) (n : Z) : Prop := {
  ready_wf : wf_globals g;
  ready_pins : holds_mappings g records;
  ready_bits : forall i, 0 <= i < n ->
    named (boundary_bit_type g) i /\ named (boundary_bit_fullname g) i
    /\ named (boundary_bit_pin g) i
}.

(** The pin of every stored layout record is what follows the last
    underscore of its full name. *)
Definition pins_follow_names (g : globals) : Prop :=
  forall (i : nat) name,
    boundary_bit_fullname g !! i = Some (Some name) ->
    boundary_bit_pin g !! i = Some (Some (after_underscores name name)).

(** The text of a header statement and of a layout record, with the white
    space between their parts. *)
Definition header_text (w1 w2 w3 part w4 w5 w6 w7 ds rest : cstring) : cstring :=
  str "attribute" ++ w1 ++ str "BOUNDARY_LENGTH" ++ w2 ++ str "of" ++ w3 ++ part
    ++ w4 ++ str ":" ++ w5 ++ str "entity" ++ w6 ++ str "is" ++ w7 ++ ds ++ rest.

Definition record_text (b1 b2 ds w1 cell w2 name w3 type w4 dflt rest : cstring)
  : cstring :=
  b1 ++ [DQUOTE] ++ b2 ++ ds ++ w1 ++ str "(BC_" ++ cell ++ str "," ++ w2 ++ name
    ++ str "," ++ w3 ++ type ++ str "," ++ w4 ++ dflt ++ rest.

(** A layout file as the vendor writes it: the header statement on a line,
    then a record a line.  A record is given by the digits of its index, its
    full name and its type. *)
Definition header_line (part count : cstring) : cstring :=
  header_text (str " ") (str " ") (str " ") part (str " ") (str " ") (str " ")
    (str " ") count (str ";" ++ [NL]).

Definition record_line (r : cstring * cstring * cstring) : cstring :=
  record_text [TAB] (str "   ") r.1.1 (str " ") (str "2") (str " ") r.1.2 (str " ")
    r.2 (str " ") (str "X") (str ")," ++ [DQUOTE] ++ str " &" ++ [NL]).

Definition record_index (r : cstring * cstring * cstring) : nat :=
  Z.to_nat (decimal r.1.1).

(** The record can be written on a line and read back. *)
Definition valid_record (r : cstring * cstring * cstring) : Prop :=
  digits r.1.1 /\ decimal r.1.1 < MAX_BOUNDARY_BITS
  /\ field (str ",") r.1.2 /\ field (str ",") r.2
  /\ Forall (fun c => c <> NUL /\ c <> NL) (r.1.2 ++ r.2)
  /\ (length (record_line r) < LINE_SIZE)%nat.

(** The tables with the record stored at its index. *)
Definition store_record (g : globals) (r : cstring * cstring * cstring) : globals :=
  set_boundary_bits g
    (<[record_index r := Some r.2]> (boundary_bit_type g))
    (<[record_index r := Some r.1.2]> (boundary_bit_fullname g))
    (<[record_index r := Some (after_underscores r.1.2 r.1.2)]> (boundary_bit_pin g)).


(** The pin tables of two states are the same. *)
Definition same_pins (g g' : globals) : Prop :=
  pin_names g' = pin_names g /\ signal_names g' = signal_names g
  /\ pin_count g' = pin_count g.

(** *** The resolver *)

(** The signal of the last record whose pin name is [pin]; ["<unknown>"]
    when there is none. *)
Definition last_match (records : list (cstring * cstring)) (pin : cstring) : cstring :=
  default unknown (snd <$> last (filter (fun r => fst r = pin) records)).

(** The needle occurs in the haystack when case is ignored. *)
Definition ci_substring (needle hay : cstring) : Prop :=
  exists pre post, tolower <$> hay = pre ++ (tolower <$> needle) ++ post.

(** The values the resolver stores for a bit whose signal is [s] and whose
    type is [type]. *)
Definition ignore_value (sensitivity : option cstring) (s : cstring) : Z :=
  match sensitivity with
  | None => if bool_decide (str "CLK_IN" = s) then 1 else 0
  | Some sens => match strcasestr sens s with Some _ => 0 | None => 1 end
  end.

Definition show_value (type : cstring) : Z :=
  if bool_decide (type = str "input") then 1 else 0.

Definition notices (sensitivity : option cstring) (i : Z) (s : cstring) : list event :=
  match sensitivity with
  | None => []
  | Some sens =>
    (if i =? 0 then [ApplySensitivity sens] else [])
    ++ match strcasestr sens s with Some _ => [AddSensitivity s] | None => [] end
  end.

(** What the resolver has stored for the bits below [n]. *)
Definition resolved_below (g : globals) (records : list (cstring * cstring))
    (sensitivity : option cstring) (l : locals) (n : Z) : Prop :=
  forall i, 0 <= i < n ->
    let s := last_match records (name_at (boundary_bit_pin g) i) in
    bbit_names l !! Z.to_nat i = Some (Some s)
    /\ bbit_ignore l !! Z.to_nat i = Some (ignore_value sensitivity s)
    /\ bbit_show l !! Z.to_nat i = Some (show_value (name_at (boundary_bit_type g) i)).

(** The signal the resolver finds for bit [i]. *)
Definition resolved_signal (g : globals) (records : list (cstring * cstring)) (i : Z)
  : cstring :=
  last_match records (name_at (boundary_bit_pin g) i).

(** The notices of a resolver run over the bits below [n]: the sensitivity
    list once, then the signals found in it, in bit order. *)
Definition sensitivity_notices (g : globals) (records : list (cstring * cstring))
    (sens : cstring) (n : Z) : list event :=
  (if 0 <? n then [ApplySensitivity sens] else [])
  ++ (AddSensitivity
        <$> filter (fun s => is_Some (strcasestr sens s))
              (resolved_signal g records <$> seqZ 0 n)).

(** The three local arrays agree from index [n] on. *)
Definition same_from (n : nat) (l l' : locals) : Prop :=
  forall j, (n <= j)%nat ->
    bbit_names l' !! j = bbit_names l !! j
    /\ bbit_ignore l' !! j = bbit_ignore l !! j
    /\ bbit_show l' !! j = bbit_show l !! j.

(** *** The monitor *)

(** What one turn of the monitor prints without a layout file. *)
Definition raw_dump (capture : Z * list byte) : list event :=
  [DumpBytes 0 (str "boundary data") (take 256 (snd capture))].

(** Bit [i] of a capture: bit [i & 7] of byte [i >> 3]. *)
Definition capture_bit (data : list byte) (i : Z) : bool :=
  match data !! Z.to_nat (i / 8) with
  | Some b => Z.testbit (uint8 b) (i mod 8)
  | None => false
  end.

(** The flags of a resolved bit, as truth values. *)
Definition show_flag (l : locals) (i : Z) : bool :=
  match bbit_show l !! Z.to_nat i with
  | Some v => negb (v =? 0)
  | None => false
  end.

Definition ignore_flag (l : locals) (i : Z) : bool :=
  match bbit_ignore l !! Z.to_nat i with
  | Some v => negb (v =? 0)
  | None => true
  end.

(** The display predicate, in the words of the specification: show, and
    (first iteration without sensitivity string, or not ignored), and
    (first iteration, or the bit differs from the previous capture). *)
Definition display_predicate (l : locals) (sensitivity : option cstring)
    (m : monitor) (rdata : list byte) (i : Z) : bool :=
  show_flag l i
  && ((negb (first_time m =? 0) && bool_decide (sensitivity = None))
      || negb (ignore_flag l i))
  && (negb (first_time m =? 0)
      || negb (eqb (capture_bit rdata i) (capture_bit (last_rdata m) i))).

(** The report line of bit [i]. *)
Definition report_line (g : globals) (l : locals) (rdata : list byte) (i : Z) : event :=
  BitReport i (name_at (boundary_bit_fullname g) i) (name_at (boundary_bit_pin g) i)
            (name_at (bbit_names l) i) (Z.b2z (capture_bit rdata i)).

(** A per-bit report line for bit [i]. *)
Definition is_report (i : Z) (e : event) : Prop :=
  match e with
  | BitReport j _ _ _ _ => j = i
  | _ => False
  end.

(** What one turn of the monitor prints with a layout file: the lines of
    the bits that satisfy the display predicate, in index order, after a
    time header when there is any. *)
Definition displayed (l : locals) (sensitivity : option cstring)
    (m : monitor) (rdata : list byte) (n : Z) : list Z :=
  filter (fun i => Is_true (display_predicate l sensitivity m rdata i)) (seqZ 0 n).

Definition lines_below (g : globals) (l : locals) (sensitivity : option cstring)
    (m : monitor) (capture : Z * list byte) (n : Z) : list event :=
  match displayed l sensitivity m (snd capture) n with
  | [] => []
  | shown => SignalsChanged (fst capture) :: (report_line g l (snd capture) <$> shown)
  end.

Definition turn_output (g : globals) (l : locals) (sensitivity : option cstring)
    (m : monitor) (capture : Z * list byte) : list event :=
  lines_below g l sensitivity m capture (boundary_bit_count g).

(** A bit below [n] that is shown has its names: the layout record was
    stored and the resolver has run for it. *)
Definition shown_bits_named (g : globals) (l : locals) (n : Z) : Prop :=
  forall i, 0 <= i < n -> show_flag l i = true ->
    named (boundary_bit_fullname g) i /\ named (boundary_bit_pin g) i
    /\ named (bbit_names l) i.

(** *** Bounds *)

(** The arrays indexed by bit number and the two capture buffers. *)
Definition per_bit (w : object) : bool :=
  match w with
  | BoundaryBitType | BoundaryBitFullname | BoundaryBitPin
  | BbitNames | BbitIgnore | BbitShow | Rdata | LastRdata => true
  | LineBuf | PinNames | SignalNames => false
  end.

(** The outcome is not an access outside one of those arrays. *)
Definition bits_in_bounds {A} (o : outcome A) : Prop :=
  forall w k, o = Fault (OutOfBounds w k) -> per_bit w = false.

(** *** The load phase *)

(** The outcome is not a call of [exit]. *)
Definition never_exits {A} (o : outcome A) : Prop := forall c, o <> Exit c.

(** A file name was given and [fopen] fails on it. *)
Definition cannot_open (fs : cstring -> option (list ascii)) (name : option cstring)
  : Prop :=
  exists n, name = Some n /\ fs n = None.

(** What the load phase prints for its first two arguments. *)
Definition pin_file_messages (xdc : option cstring) : list event :=
  match xdc with
  | Some _ => []
  | None => [WarnNoXdc]
  end.

Definition layout_messages (fs : cstring -> option (list ascii)) (bsdl : option cstring)
  : list event :=
  match bsdl with
  | Some name =>
    header_message <$> omap header_of (bsdl_lines (fgets_results (default [] (fs name))))
  | None => [WarnNoBsdl]
  end.

(** ** Sample inputs *)

(** A record for index 8192, one past the last bit. *)
Definition line_8192 : cstring :=
  [TAB; DQUOTE] ++ str "   8192 (BC_2, IO_A4, input, X)," ++ [DQUOTE] ++ str " &" ++ [NL].

(** A pin file and a layout file; the layout declares four bits and also
    holds a record for index 8192. *)
Definition sample_xdc : list ascii :=
  str "## pins" ++ [NL]
  ++ str "set_property -dict {PACKAGE_PIN A3 IOSTANDARD LVCMOS33} [get_ports {DATA_BUS[3]}]" ++ [NL]
  ++ str "set_property -dict {PACKAGE_PIN A4 IOSTANDARD LVCMOS33} [get_ports sys_clk]" ++ [NL]
  ++ str "set_property -dict {PACKAGE_PIN A5 IOSTANDARD LVCMOS33} [get_ports DATA0]" ++ [NL]
  ++ str "set_property -dict {PACKAGE_PIN A6 IOSTANDARD LVCMOS33} [get_ports clk]" ++ [NL].

Definition bit_line (index name type : string) : list ascii :=
  [TAB; DQUOTE] ++ str "   " ++ str index ++ str " (BC_2, " ++ str name ++ str ", "
    ++ str type ++ str ", X)," ++ [DQUOTE] ++ str " &" ++ [NL].

Definition sample_bsdl : list ascii :=
  str "attribute BOUNDARY_LENGTH of XC7A100T_CSG324 : entity is 4;" ++ [NL]
  ++ bit_line "0" "U1_DATA_PIN_A3" "input"
  ++ bit_line "1" "IO_A4" "input"
  ++ bit_line "2" "IO_A5" "input"
  ++ bit_line "3" "IO_A6" "output3"
  ++ bit_line "8192" "IO_A7" "input".

(** Two mappings of the same pin. *)
Definition sample_xdc_a3 : list ascii :=
  str "set_property PACKAGE_PIN A3 [get_ports SIG1]" ++ [NL]
  ++ str "set_property PACKAGE_PIN A3 [get_ports SIG2]" ++ [NL].

Definition sample_fs (name : cstring) : option (list ascii) :=
  if bool_decide (name = str "pins.xdc") then Some sample_xdc
  else if bool_decide (name = str "a3.xdc") then Some sample_xdc_a3
  else if bool_decide (name = str "part.bsdl") then Some sample_bsdl
  else None.

(** Stack content before the arrays are written. *)
Definition stack_line : list ascii := replicate LINE_SIZE "x"%char.
Definition stack_locals : locals :=
  {| bbit_names := replicate (Z.to_nat MAX_BOUNDARY_BITS) None;
     bbit_ignore := replicate (Z.to_nat MAX_BOUNDARY_BITS) 7;
     bbit_show := replicate (Z.to_nat MAX_BOUNDARY_BITS) 7 |}.

(** The tables after the load phase, when it returns. *)
Definition loaded (o : outcome (globals * locals * list event)) : globals * locals :=
  match o with
  | Ok (g, l, _) => (g, l)
  | _ => (initial_globals, stack_locals)
  end.

Definition sample_loaded (xdc : string) : globals * locals :=
  loaded (load_phase sample_fs (Some (str xdc)) (Some (str "part.bsdl")) None
            stack_line stack_locals initial_globals).

(** The mappings of [sample_xdc], in file order. *)
Definition sample_records : list (cstring * cstring) :=
  [(str "A3", str "DATA_BUS[3]"); (str "A4", str "sys_clk");
   (str "A5", str "DATA0"); (str "A6", str "clk")].

(** A layout file that declares one bit and holds no record for it. *)
Definition header_only_bsdl : list ascii :=
  str "attribute BOUNDARY_LENGTH of XC7A100T_CSG324 : entity is 1;" ++ [NL].

Definition header_only_fs (name : cstring) : option (list ascii) :=
  if bool_decide (name = str "part.bsdl") then Some header_only_bsdl else None.

(** A capture of 1024 bytes and the monitor state before the first turn. *)
Definition sample_rdata : list byte := replicate 1024 Byte.x05.
Definition sample_monitor : monitor :=
  {| last_rdata := replicate 1024 Byte.x05; first_time := 1 |}.

(** A header that declares more bits than the arrays hold, and tables with
    a stored record for every index. *)
Definition large_header : cstring :=
  str "attribute BOUNDARY_LENGTH of XC7A100T_CSG324 : entity is 9000;" ++ [NL].

Definition full_globals : globals :=
  let records := replicate (Z.to_nat MAX_BOUNDARY_BITS) (Some (str "input")) in
  set_boundary_bit_count (set_boundary_bits initial_globals records records records) 9000.

(** Pin tables that are full. *)
Definition full_pins : globals :=
  {| pin_names := replicate (Z.to_nat MAX_PINS) (Some (str "A1"));
     signal_names := replicate (Z.to_nat MAX_PINS) (Some (str "led"));
     pin_count := MAX_PINS;
     boundary_bit_type := boundary_bit_type initial_globals;
     boundary_bit_fullname := boundary_bit_fullname initial_globals;
     boundary_bit_pin := boundary_bit_pin initial_globals;
     boundary_bit_count := 0;
     part_name := [] |}.

(** A layout file with the header twice, then a line that matches the
    header pattern as far as the identifier only. *)
Definition repeated_header_bsdl : list ascii :=
  str "attribute BOUNDARY_LENGTH of XC7A100T : entity is 989;" ++ [NL]
  ++ str "attribute BOUNDARY_LENGTH of XC7A200T : entity is 1200;" ++ [NL]
  ++ str "attribute BOUNDARY_LENGTH of reserved" ++ [NL].

(** A pin file and a layout file in the usual form: two constraints between
    other lines, and three records under a header for three bits. *)
Definition usual_pin_lines : list (list ascii) :=
  [str "## pins" ++ [NL];
   constraint_text (str "set_property -dict {") (str "A3")
     (str "IOSTANDARD LVCMOS33} [") 1 (str "DATA_BUS[3]") 1 [NL];
   str "set_property CFGBVS VCCO [current_design]" ++ [NL];
   constraint_text (str "set_property ") (str "A4") (str "[") 0 (str "CLK_IN") 0 [NL]].

Definition usual_founds : list (option (cstring * cstring)) :=
  [None; Some (str "A3", str "DATA_BUS[3]"); None; Some (str "A4", str "CLK_IN")].

Definition usual_records : list (cstring * cstring * cstring) :=
  [(str "0", str "U1_DATA_PIN_A3", str "input");
   (str "1", str "IO_A4", str "input");
   (str "2", str "IO_B7", str "output3")].

Definition usual_layout : list ascii :=
  header_line (str "XC7A100T_CSG324") (str "3") ++ concat (record_line <$> usual_records).


(** The result of a run of the load phase that returned. *)
Definition run_result (o : outcome (globals * locals * list event))
  : globals * locals * list event :=
  match o with
  | Ok r => r
  | _ => (initial_globals, stack_locals, [])
  end.

(** The usual layout file parsed into cleared tables. *)
Definition usual_tables : globals * list event :=
  match parse_bsdl (Some usual_layout) (clear_boundary_bits initial_globals) with
  | Ok r => r
  | _ => (initial_globals, [])
  end.

(** The sample files loaded without a sensitivity list, and the layout
    alone without a pin file. *)
Definition sample_run : outcome (globals * locals * list event) :=
  load_phase sample_fs (Some (str "pins.xdc")) (Some (str "part.bsdl")) None
    stack_line stack_locals initial_globals.

Definition sample_run_no_pins : outcome (globals * locals * list event) :=
  load_phase sample_fs None (Some (str "part.bsdl")) None
    stack_line stack_locals initial_globals.

(** A line of 1023 characters that ends in the keyword, and more. *)
Definition long_line : list ascii :=
  replicate 1012 "x"%char ++ str "PACKAGE_PIN" ++ str " A3 [get_ports led]" ++ [NL].

(** * Properties *)

(** ** Arrays *)

Section Arrays.

Context {A : Type}.

Implicit Types (arr : list A) (i : Z) (x : A).

Lemma load_ok w arr i x :
  0 <= i -> arr !! Z.to_nat i = Some x -> load w arr i = Ok x.
Proof.
  intros Hi Hx. unfold load.
  destruct (Z.leb_spec 0 i); [|lia]. by rewrite Hx.
Qed.

Lemma load_inv w arr i x :
  load w arr i = Ok x -> 0 <= i /\ arr !! Z.to_nat i = Some x.
Proof.
  unfold load. destruct (Z.leb_spec 0 i); [|discriminate].
  destruct (arr !! Z.to_nat i) eqn:E; [|discriminate].
  intros [= ->]. done.
Qed.

Lemma load_in_range w arr i :
  0 <= i < Z.of_nat (length arr) -> exists x, load w arr i = Ok x.
Proof.
  intros Hi. destruct (lookup_lt_is_Some_2 arr (Z.to_nat i)) as [x Hx]; [lia|].
  exists x. apply load_ok; [lia|done].
Qed.

Lemma load_oob w arr i :
  Z.of_nat (length arr) <= i -> load w arr i = Fault (OutOfBounds w i).
Proof.
  intros Hi. unfold load. destruct (Z.leb_spec 0 i); [|lia].
  rewrite lookup_ge_None_2; [done|lia].
Qed.

Lemma load_fault w arr i f :
  load w arr i = Fault f -> f = OutOfBounds w i /\ ~ 0 <= i < Z.of_nat (length arr).
Proof.
  intros H. split.
  - unfold load in H. by destruct (if 0 <=? i then _ else _); inversion H.
  - intros Hi. destruct (load_in_range w arr i Hi) as [x Hx]. congruence.
Qed.

Lemma store_ok w arr i x :
  0 <= i < Z.of_nat (length arr) -> store w arr i x = Ok (<[Z.to_nat i := x]> arr).
Proof.
  intros Hi. unfold store.
  destruct (Z.leb_spec 0 i); [|lia].
  destruct (Z.ltb_spec i (Z.of_nat (length arr))); [done|lia].
Qed.

Lemma store_oob w arr i x :
  Z.of_nat (length arr) <= i -> store w arr i x = Fault (OutOfBounds w i).
Proof.
  intros Hi. unfold store.
  destruct (Z.ltb_spec i (Z.of_nat (length arr))); [lia|].
  by rewrite andb_false_r.
Qed.

Lemma store_fault w arr i x f :
  store w arr i x = Fault f -> f = OutOfBounds w i /\ ~ 0 <= i < Z.of_nat (length arr).
Proof.
  intros H. split.
  - unfold store in H. by destruct (_ && _); inversion H.
  - intros Hi. rewrite store_ok in H; [discriminate|done].
Qed.

End Arrays.

(** ** Loops *)

Section Loops.

Context {S : Type}.

Implicit Types (body : Z -> S -> outcome S) (s : S).

Lemma for_loop_S body n lo s :
  for_loop (Datatypes.S n) lo body s = body lo s ≫= for_loop n (lo + 1) body.
Proof. reflexivity. Qed.

Lemma for_loop_split body a b lo s :
  for_loop (a + b) lo body s
  = for_loop a lo body s ≫= for_loop b (lo + Z.of_nat a) body.
Proof.
  revert lo s. induction a as [|a IH]; intros lo s.
  - simpl. by rewrite Z.add_0_r.
  - cbn [for_loop Nat.add]. destruct (body lo s) as [s'| |]; simpl; [|done..].
    rewrite IH. by replace (lo + 1 + Z.of_nat a) with (lo + Z.of_nat (Datatypes.S a)) by lia.
Qed.

(** An invariant kept by every turn holds at the end, and the loop
    returns. *)
Lemma for_loop_inv (I : Z -> S -> Prop) body n lo s :
  I lo s ->
  (forall i s, lo <= i < lo + Z.of_nat n -> I i s ->
               exists s', body i s = Ok s' /\ I (i + 1) s') ->
  exists s', for_loop n lo body s = Ok s' /\ I (lo + Z.of_nat n) s'.
Proof.
  revert lo s. induction n as [|n IH]; intros lo s H0 Hstep.
  - exists s. split; [done|]. by rewrite Z.add_0_r.
  - destruct (Hstep lo s) as (s1 & Hb & H1); [lia|done|].
    destruct (IH (lo + 1) s1) as (s' & Hl & HI); [done| |].
    + intros i s2 Hi. apply Hstep. lia.
    + exists s'. simpl. rewrite Hb. simpl. split; [done|].
      by replace (lo + Z.of_nat (Datatypes.S n)) with (lo + 1 + Z.of_nat n) by lia.
Qed.

Lemma for_loop_ok_inv (I : Z -> S -> Prop) body n lo s s' :
  I lo s ->
  (forall i s s1, lo <= i < lo + Z.of_nat n -> I i s -> body i s = Ok s1 -> I (i + 1) s1) ->
  for_loop n lo body s = Ok s' -> I (lo + Z.of_nat n) s'.
Proof.
  revert lo s. induction n as [|n IH]; intros lo s H0 Hstep Hloop.
  - injection Hloop as <-. by rewrite Z.add_0_r.
  - rewrite for_loop_S in Hloop.
    destruct (body lo s) as [s1| |] eqn:Hb; cbn [mbind outcome_bind] in Hloop; [|done..].
    replace (lo + Z.of_nat (Datatypes.S n)) with (lo + 1 + Z.of_nat n) by lia.
    apply (IH (lo + 1) s1); [|intros i s2 s3 Hi; apply Hstep; lia|done].
    apply (Hstep lo s s1); [lia|done..].
Qed.

(** A property of outcomes that holds of returning and of every turn
    from a state satisfying an invariant holds of the loop: the loop ends
    with the outcome of a turn, or returns. *)
Lemma for_loop_outcome (I : S -> Prop) (P : outcome S -> Prop) body n lo s :
  I s ->
  (forall s, P (Ok s)) ->
  (forall i s, lo <= i < lo + Z.of_nat n -> I s ->
               P (body i s) /\ forall s', body i s = Ok s' -> I s') ->
  P (for_loop n lo body s).
Proof.
  intros Hs Hok. revert lo s Hs.
  induction n as [|n IH]; intros lo s Hs Hbody; simpl; [done|].
  destruct (Hbody lo s) as [Hb Hnext]; [lia|done|].
  destruct (body lo s) as [s1|f|c] eqn:E; simpl; [|done..].
  apply IH; [by apply Hnext|]. intros. apply Hbody; [lia|done].
Qed.

(** A turn that cannot return keeps the loop from returning. *)
Lemma for_loop_stuck body n lo k s :
  (k < n)%nat ->
  (forall s r, body (lo + Z.of_nat k) s <> Ok r) ->
  forall r, for_loop n lo body s <> Ok r.
Proof.
  intros Hk Hstuck r.
  replace n with (k + (1 + (n - k - 1)))%nat by lia.
  rewrite for_loop_split.
  destruct (for_loop k lo body s) as [s1| |]; simpl; [|done..].
  specialize (Hstuck s1).
  destruct (body (lo + Z.of_nat k) s1) as [s2| |]; simpl; [|done..].
  by destruct (Hstuck s2).
Qed.

End Loops.

(** ** The model of sscanf *)

Lemma header_format_eq : parse_format FmtText header_format = header_directives.
Proof. reflexivity. Qed.

Lemma bit_format_eq : parse_format FmtText bit_format = bit_directives.
Proof. reflexivity. Qed.

Lemma sscanf_header line :
  sscanf line header_format = scan header_directives line [].
Proof. unfold sscanf. by rewrite header_format_eq. Qed.

Lemma sscanf_bit line :
  sscanf line bit_format = scan bit_directives line [].
Proof. unfold sscanf. by rewrite bit_format_eq. Qed.

(** What [scan] returns: the items assigned follow the kinds of the
    conversions of the format, and the count is their number, or 0 or EOF
    when there is none. *)
Lemma scan_shape fmt : forall input acc n vals,
  scan fmt input acc = (n, vals) ->
  exists vs, vals = acc ++ vs
    /\ value_kind <$> vs `prefix_of` omap directive_kind fmt
    /\ (n = Z.of_nat (length vals) \/ vals = [] /\ n <> Z.of_nat 2 /\ n <> Z.of_nat 4).
Proof.
  assert (forall b acc n vals,
            scan_stop b acc = (n, vals) ->
            vals = acc ++ []
            /\ (n = Z.of_nat (length vals)
                \/ vals = [] /\ n <> Z.of_nat 2 /\ n <> Z.of_nat 4)) as Hstop.
  { unfold scan_stop. intros b acc n vals [= <- <-]. rewrite app_nil_r. split; [done|].
    destruct acc; [|by left]. right. destruct b; repeat split; unfold EOF; lia. }
  assert (forall a v acc n vals (kinds : list kind) k,
            (if a : bool then Some (value_kind v) else None) = k ->
            (exists vs, vals = push a v acc ++ vs
               /\ value_kind <$> vs `prefix_of` kinds
               /\ (n = Z.of_nat (length vals)
                   \/ vals = [] /\ n <> Z.of_nat 2 /\ n <> Z.of_nat 4)) ->
            exists vs, vals = acc ++ vs
               /\ value_kind <$> vs `prefix_of` from_option (fun x => [x]) [] k ++ kinds
               /\ (n = Z.of_nat (length vals)
                   \/ vals = [] /\ n <> Z.of_nat 2 /\ n <> Z.of_nat 4)) as Hpush.
  { intros a v acc n vals kinds k <- (vs & -> & Hpre & Hn). destruct a; simpl in *.
    - exists (v :: vs). rewrite <- app_assoc in *. split; [done|]. split; [|done].
      by apply prefix_cons.
    - by exists vs. }
  induction fmt as [|d fmt IH]; intros input acc n vals Hscan.
  - injection Hscan as <- <-. exists []. rewrite app_nil_r. split; [done|].
    split; [done|by left].
  - destruct d as [|c|a|a|a neg set]; cbn [scan] in Hscan.
    + apply IH in Hscan. exact Hscan.
    + destruct input as [|x r].
      * apply Hstop in Hscan as [-> Hn]. exists []. split; [done|]. split; [|done].
        apply prefix_nil.
      * destruct (chr_eq x c).
        -- apply IH in Hscan. exact Hscan.
        -- apply Hstop in Hscan as [-> Hn]. exists []. split; [done|]. split; [|done].
           apply prefix_nil.
    + destruct (skip_space input) as [|x r].
      * apply Hstop in Hscan as [-> Hn]. exists []. split; [done|]. split; [|done].
        apply prefix_nil.
      * destruct (span _ (x :: r)) as [tok rest]. apply IH in Hscan.
        apply (Hpush a (VStr tok) acc n vals (omap directive_kind fmt)
                 (directive_kind (DStr a))) in Hscan; [|by destruct a].
        destruct a; exact Hscan.
    + destruct (skip_space input) as [|x r].
      * apply Hstop in Hscan as [-> Hn]. exists []. split; [done|]. split; [|done].
        apply prefix_nil.
      * destruct (scan_int (x :: r)) as [[v rest]|].
        -- apply IH in Hscan.
           apply (Hpush a (VInt v) acc n vals (omap directive_kind fmt)
                    (directive_kind (DInt a))) in Hscan; [|by destruct a].
           destruct a; exact Hscan.
        -- apply Hstop in Hscan as [-> Hn]. exists []. split; [done|]. split; [|done].
           apply prefix_nil.
    + destruct input as [|x r].
      * apply Hstop in Hscan as [-> Hn]. exists []. split; [done|]. split; [|done].
        apply prefix_nil.
      * destruct (span _ (x :: r)) as [[|y tok] rest].
        -- apply Hstop in Hscan as [-> Hn]. exists []. split; [done|]. split; [|done].
           apply prefix_nil.
        -- apply IH in Hscan.
           apply (Hpush a (VStr (y :: tok)) acc n vals (omap directive_kind fmt)
                    (directive_kind (DSet a neg set))) in Hscan; [|by destruct a].
           destruct a; exact Hscan.
Qed.

(** On the header pattern: nothing, the identifier alone, or identifier
    and count; the result is 2 exactly in the last case. *)
Lemma header_scan_shape line :
  (snd (sscanf line header_format) = [] /\ fst (sscanf line header_format) <> 2)
  \/ (exists p, sscanf line header_format = (1, [VStr p]))
  \/ (exists p c, sscanf line header_format = (2, [VStr p; VInt c])).
Proof.
  rewrite sscanf_header.
  destruct (scan header_directives line []) as [n vals] eqn:Hscan.
  apply scan_shape in Hscan as (vs & -> & [k Hk] & Hn).
  change (omap directive_kind header_directives) with [KStr; KInt] in Hk.
  cbn [app fst snd] in *.
  destruct vs as [|v1 [|v2 [|v3 vs]]]; cbn [length] in Hn.
  - left. destruct Hn as [->|(_ & Hn & _)]; done.
  - right. left. destruct v1; [|done]. destruct Hn as [->|[? _]]; [|done]. by eexists.
  - right. right. destruct v1; [|done]. destruct v2; [done|].
    destruct Hn as [->|[? _]]; [|done]. by do 2 eexists.
  - by destruct k.
Qed.

(** On the bit pattern the result is 4 exactly when index, name, type and
    default are all converted. *)
Lemma bit_scan_shape line :
  fst (sscanf line bit_format) = 4 ->
  exists bit_number bit_name bit_type bit_default,
    sscanf line bit_format
    = (4, [VInt bit_number; VStr bit_name; VStr bit_type; VStr bit_default]).
Proof.
  rewrite sscanf_bit.
  destruct (scan bit_directives line []) as [n vals] eqn:Hscan.
  apply scan_shape in Hscan as (vs & -> & [k Hk] & Hn).
  change (omap directive_kind bit_directives) with [KInt; KStr; KStr; KStr] in Hk.
  cbn [app fst] in *. intros ->.
  destruct Hn as [Hn|(_ & _ & Hn)]; [|done].
  destruct vs as [|v1 [|v2 [|v3 [|v4 [|v5 vs]]]]]; cbn [length] in Hn; try lia.
  cbn in Hk. destruct v1, v2, v3, v4; try done. by do 4 eexists.
Qed.

(** A line on which the bit pattern matches does not start the header
    pattern, which begins with a letter. *)
Lemma bit_line_not_header g line vals :
  sscanf line bit_format = (4, vals) -> scan_header g line = (g, []).
Proof.
  unfold scan_header, sscanf. rewrite header_format_eq, bit_format_eq.
  unfold header_directives, bit_directives.
  destruct line as [|c r]; [discriminate|].
  cbn [scan].
  destruct (in_set false [" "%char; "009"%char] c) eqn:Hc.
  - unfold in_set in Hc. simpl in Hc. apply bool_decide_eq_true in Hc.
    assert (chr_eq c "a" = false) as ->.
    { apply bool_decide_eq_false. intros ->.
      rewrite !elem_of_cons, elem_of_nil in Hc. by destruct Hc as [?|[?|[]]]. }
    done.
  - cbn [span]. rewrite Hc. discriminate.
Qed.

Lemma header_of_matches line :
  is_Some (header_of line) <-> fst (sscanf line header_format) = 2.
Proof.
  unfold header_of.
  destruct (header_scan_shape line) as [[Hv Hn]|[[p H]|(p & c & H)]].
  - rewrite Hv. split; [by intros [? ?]|done].
  - rewrite H. split; [by intros [? ?]|done].
  - rewrite H. split; [done|by eexists].
Qed.

Lemma header_identifier line p c :
  header_of line = Some (p, c) -> identifier_of line = Some p.
Proof.
  unfold header_of, identifier_of.
  destruct (header_scan_shape line) as [[Hv Hn]|[[q H]|(q & d & H)]].
  - by rewrite Hv.
  - by rewrite H.
  - rewrite H. cbn [snd]. by intros [= -> _].
Qed.

(** ** parse_xdc: the pin tables *)

Lemma initial_globals_wf : wf_globals initial_globals.
Proof. by split. Qed.

Lemma holds_mappings_length g records :
  wf_globals g -> holds_mappings g records ->
  (length records <= Z.to_nat MAX_PINS)%nat.
Proof.
  intros [Hp _ _ _ _] [_ Hrec].
  destruct (decide (length records <= Z.to_nat MAX_PINS)%nat) as [|Hgt]; [done|].
  destruct (lookup_lt_is_Some_2 records (Z.to_nat MAX_PINS)) as [r Hr]; [lia|].
  apply Hrec in Hr as [Hr _]. apply lookup_lt_Some in Hr. lia.
Qed.

(** One store: in bounds it appends the mapping, past the end it is an
    access outside [pin_names]; the mapping is never dropped. *)
Lemma add_pin_spec g m :
  wf_globals g ->
  add_pin g m
  = if decide (0 <= pin_count g < MAX_PINS)
    then Ok {| pin_names := <[Z.to_nat (pin_count g) := Some (fst m)]> (pin_names g);
               signal_names := <[Z.to_nat (pin_count g) := Some (snd m)]> (signal_names g);
               pin_count := pin_count g + 1;
               boundary_bit_type := boundary_bit_type g;
               boundary_bit_fullname := boundary_bit_fullname g;
               boundary_bit_pin := boundary_bit_pin g;
               boundary_bit_count := boundary_bit_count g;
               part_name := part_name g |}
    else Fault (OutOfBounds PinNames (pin_count g)).
Proof.
  intros [Hp Hs _ _ _]. unfold add_pin, MAX_PINS in *.
  destruct (decide (0 <= pin_count g < 4096)) as [Hin|Hout].
  - by rewrite !store_ok by lia.
  - assert (store PinNames (pin_names g) (pin_count g) (Some (fst m))
            = Fault (OutOfBounds PinNames (pin_count g))) as ->; [|done].
    unfold store.
    destruct (Z.leb_spec 0 (pin_count g)),
      (Z.ltb_spec (pin_count g) (Z.of_nat (length (pin_names g))));
      cbn [andb]; (done || lia).
Qed.

Lemma add_pin_holds g m records :
  wf_globals g -> holds_mappings g records ->
  (length records < Z.to_nat MAX_PINS)%nat ->
  exists g', add_pin g m = Ok g' /\ wf_globals g' /\ holds_mappings g' (records ++ [m]).
Proof.
  intros Hwf [Hc Hrec] Hlen. rewrite add_pin_spec by done.
  destruct Hwf as [Hp Hs Ht Hf Hb]. unfold MAX_PINS in *.
  destruct (decide _) as [_|Hout]; [|lia].
  eexists. split; [done|]. split; [split; cbn; by rewrite ?length_insert|].
  split; cbn.
  - rewrite length_app. simpl. lia.
  - intros j r Hj. rewrite Hc, Nat2Z.id.
    destruct (decide (j = length records)) as [->|Hne].
    + rewrite list_lookup_middle in Hj by done. injection Hj as <-.
      by rewrite !list_lookup_insert_eq by lia.
    + rewrite !list_lookup_insert_ne by done. apply Hrec.
      rewrite lookup_app_l in Hj; [done|].
      apply lookup_lt_Some in Hj. rewrite length_app in Hj. simpl in Hj. lia.
Qed.

Lemma parse_xdc_loop_spec chunks : forall line g records ms,
  wf_globals g -> holds_mappings g records ->
  xdc_mappings chunks line = Ok ms ->
  if decide (Z.of_nat (length records + length ms) <= MAX_PINS)
  then exists g', parse_xdc_loop chunks line g = Ok g'
                  /\ wf_globals g' /\ holds_mappings g' (records ++ ms)
  else parse_xdc_loop chunks line g = Fault (OutOfBounds PinNames MAX_PINS).
Proof.
  induction chunks as [|chunk chunks IH]; intros line g records ms Hwf Hrec Hms.
  - injection Hms as <-. rewrite app_nil_r, Nat.add_0_r.
    pose proof (holds_mappings_length g records Hwf Hrec).
    destruct (decide _) as [_|Hout]; [by exists g|]. unfold MAX_PINS in *. lia.
  - cbn [xdc_mappings parse_xdc_loop] in *.
    pose proof (holds_mappings_length g records Hwf Hrec) as Hlen.
    destruct (bool_decide (head (read_into line chunk) = Some NUL)).
    { injection Hms as <-. rewrite app_nil_r, Nat.add_0_r.
      destruct (decide _) as [_|Hout]; [by exists g|]. unfold MAX_PINS in *. lia. }
    destruct (xdc_line (read_into line chunk)) as [[line' found]| |];
      cbn [mbind outcome_bind] in *; [|done..].
    destruct (xdc_mappings chunks line') as [ms'| |] eqn:Hms';
      cbn [mbind outcome_bind] in *; [|done..].
    injection Hms as <-.
    destruct found as [m|]; cbn [mbind outcome_bind].
    + destruct (decide (length records < Z.to_nat MAX_PINS)%nat) as [Hlt|Hge].
      * destruct (add_pin_holds g m records Hwf Hrec Hlt) as (g1 & -> & Hwf1 & Hrec1).
        cbn [mbind outcome_bind].
        specialize (IH line' g1 (records ++ [m]) ms' Hwf1 Hrec1 Hms').
        rewrite length_app in IH. cbn [length] in *.
        rewrite <- app_assoc in IH. cbn [app] in IH.
        by replace (length records + 1 + length ms')%nat
          with (length records + Datatypes.S (length ms'))%nat in IH by lia.
      * rewrite add_pin_spec by done. destruct Hrec as [Hc _].
        destruct (decide (0 <= pin_count g < MAX_PINS)) as [Hin|_];
          [unfold MAX_PINS in *; lia|].
        cbn [mbind outcome_bind length].
        destruct (decide _) as [Hin|_]; [unfold MAX_PINS in *; lia|].
        do 2 f_equal. unfold MAX_PINS in *. lia.
    + by apply IH.
Qed.

Lemma parse_xdc_loop_wf chunks : forall line g g',
  wf_globals g -> parse_xdc_loop chunks line g = Ok g' -> wf_globals g'.
Proof.
  induction chunks as [|chunk chunks IH]; intros line g g' Hwf Hparse;
    cbn [parse_xdc_loop] in Hparse.
  - by injection Hparse as <-.
  - destruct (bool_decide _); [by injection Hparse as <-|].
    destruct (xdc_line _) as [[line' found]| |]; cbn [mbind outcome_bind] in Hparse;
      [|done..].
    destruct found as [m|]; cbn [mbind outcome_bind] in Hparse; [|by eapply IH].
    rewrite add_pin_spec in Hparse by done.
    destruct (decide _); cbn [mbind outcome_bind] in Hparse; [|done].
    eapply IH; [|done]. destruct Hwf. split; cbn; by rewrite ?length_insert.
Qed.

(** C10: every mapping a line yields is stored at [pin_count], which is
    then incremented, with no comparison against MAX_PINS.  The stores stay
    inside the tables exactly when the tables end up holding at most 4096
    mappings; the store of mapping 4097 is an access outside [pin_names],
    not a dropped record. *)
Theorem pin_tables_unchecked chunks line g records ms :
  wf_globals g -> holds_mappings g records ->
  xdc_mappings chunks line = Ok ms ->
  (Z.of_nat (length records + length ms) <= MAX_PINS ->
   exists g', parse_xdc_loop chunks line g = Ok g'
              /\ holds_mappings g' (records ++ ms))
  /\ (MAX_PINS < Z.of_nat (length records + length ms) ->
      parse_xdc_loop chunks line g = Fault (OutOfBounds PinNames MAX_PINS))
  /\ (forall m, MAX_PINS <= pin_count g ->
        add_pin g m = Fault (OutOfBounds PinNames (pin_count g))).
Proof.
  intros Hwf Hrec Hms.
  pose proof (parse_xdc_loop_spec chunks line g records ms Hwf Hrec Hms) as Hloop.
  split; [|split].
  - intros Hle. destruct (decide _) as [_|]; [|lia].
    destruct Hloop as (g' & ? & _ & ?). by exists g'.
  - intros Hgt. by destruct (decide _) as [|_]; [lia|].
  - intros m Hfull. rewrite add_pin_spec by done.
    by destruct (decide (0 <= pin_count g < MAX_PINS)) as [|_]; [lia|].
Qed.

Lemma full_pins_wf : wf_globals full_pins.
Proof. split; cbn; by rewrite length_replicate. Qed.

Lemma full_pins_holds :
  holds_mappings full_pins (replicate (Z.to_nat MAX_PINS) (str "A1", str "led")).
Proof.
  split.
  - cbn. rewrite length_replicate. unfold MAX_PINS. lia.
  - intros j r [-> Hj]%lookup_replicate. cbn.
    by rewrite !lookup_replicate_2.
Qed.

(** The sample pin file loads; one more mapping on full tables is stored
    past their end. *)
Lemma pin_tables_unchecked_witness :
  (exists g',
     parse_xdc (Some sample_xdc) stack_line initial_globals = Ok g'
     /\ holds_mappings g' sample_records)
  /\ parse_xdc (Some sample_xdc_a3) stack_line full_pins
     = Fault (OutOfBounds PinNames MAX_PINS).
Proof.
  split.
  - destruct (pin_tables_unchecked (fgets_results sample_xdc) stack_line
                initial_globals [] sample_records initial_globals_wf)
      as (Hfit & _).
    + split; [done|]. by intros j r.
    + vm_compute. reflexivity.
    + apply Hfit. vm_compute. discriminate.
  - destruct (pin_tables_unchecked (fgets_results sample_xdc_a3) stack_line
                full_pins _ [(str "A3", str "SIG1"); (str "A3", str "SIG2")]
                full_pins_wf full_pins_holds)
      as (_ & Hover & _).
    + vm_compute. reflexivity.
    + apply Hover. rewrite length_replicate. unfold MAX_PINS. cbn [length]. lia.
Defined.

(** ** parse_bsdl: the header *)

(** The header part of a line: the message is printed for a matching
    header, the count changes with it, the name with any line on which the
    identifier converts. *)
Lemma scan_header_spec g line :
  exists g',
    scan_header g line
    = (g', from_option (fun h => [header_message h]) [] (header_of line))
    /\ boundary_bit_count g' = from_option snd (boundary_bit_count g) (header_of line)
    /\ part_name g' = default (part_name g) (identifier_of line)
    /\ (wf_globals g -> wf_globals g').
Proof.
  unfold scan_header, header_of, identifier_of.
  destruct (header_scan_shape line) as [[Hv Hn]|[[p H]|(p & c & H)]].
  - destruct (sscanf line header_format) as [n vals]. simpl in Hv, Hn. subst vals.
    exists g. destruct (Z.eqb_spec n 2); [done|]. by cbn.
  - rewrite H. eexists. cbn. split; [done|]. split; [done|]. split; [done|].
    by intros [].
  - rewrite H. eexists. cbn. split; [done|]. split; [done|]. split; [done|].
    by intros [].
Qed.

Lemma scan_header_bits g line :
  boundary_bit_type (fst (scan_header g line)) = boundary_bit_type g
  /\ boundary_bit_fullname (fst (scan_header g line)) = boundary_bit_fullname g
  /\ boundary_bit_pin (fst (scan_header g line)) = boundary_bit_pin g.
Proof.
  unfold scan_header. destruct (sscanf line header_format) as [n vals].
  by destruct vals as [|[p|?] [|[?|c] ?]].
Qed.

(** The bit part of a line changes neither the header nor the sizes. *)
Lemma scan_bit_spec g line :
  wf_globals g ->
  exists g',
    scan_bit g line = Ok g'
    /\ boundary_bit_count g' = boundary_bit_count g
    /\ part_name g' = part_name g
    /\ wf_globals g'.
Proof.
  intros Hwf. unfold scan_bit.
  destruct (sscanf line bit_format) as [n vals].
  destruct (n =? 4); [|by exists g].
  destruct vals as [|[?|bit_number] [|[bit_name|?] [|[bit_type|?] [|[bit_default|?] [|? ?]]]]];
    try by exists g.
  destruct (0 <=? bit_number) eqn:H0, (bit_number <? MAX_BOUNDARY_BITS) eqn:H1;
    cbn [andb]; try by exists g.
  apply Z.leb_le in H0. apply Z.ltb_lt in H1.
  destruct Hwf as [Hp Hs Ht Hf Hb]. unfold MAX_BOUNDARY_BITS in *.
  rewrite !store_ok by lia. cbn [mbind outcome_bind].
  eexists. split; [done|]. split; [done|]. split; [done|].
  split; cbn; by rewrite ?length_insert.
Qed.

Lemma bsdl_line_spec g line :
  wf_globals g ->
  exists g',
    bsdl_line g line
    = Ok (g', from_option (fun h => [header_message h]) [] (header_of line))
    /\ boundary_bit_count g' = from_option snd (boundary_bit_count g) (header_of line)
    /\ part_name g' = default (part_name g) (identifier_of line)
    /\ wf_globals g'.
Proof.
  intros Hwf. unfold bsdl_line.
  destruct (scan_header_spec g line) as (g1 & -> & Hc1 & Hp1 & Hwf1).
  destruct (scan_bit_spec g1 line (Hwf1 Hwf)) as (g2 & -> & Hc2 & Hp2 & Hwf2).
  exists g2. cbn [mbind outcome_bind]. by rewrite Hc2, Hp2.
Qed.

Lemma latest_cons {A} (f : list ascii -> option A) d line lines :
  latest f d (line :: lines) = latest f (default d (f line)) lines.
Proof. reflexivity. Qed.

Lemma parse_bsdl_loop_spec chunks : forall g out,
  wf_globals g ->
  exists g',
    parse_bsdl_loop chunks g out
    = Ok (g', out ++ (header_message <$> omap header_of (bsdl_lines chunks)))
    /\ boundary_bit_count g'
       = latest (fun l => snd <$> header_of l) (boundary_bit_count g) (bsdl_lines chunks)
    /\ part_name g' = latest identifier_of (part_name g) (bsdl_lines chunks)
    /\ wf_globals g'.
Proof.
  induction chunks as [|chunk chunks IH]; intros g out Hwf; cbn [parse_bsdl_loop bsdl_lines].
  - exists g. by rewrite app_nil_r.
  - destruct (cstr chunk) as [|c line] eqn:Hline.
    + exists g. by rewrite app_nil_r.
    + destruct (bsdl_line_spec g (c :: line) Hwf) as (g1 & -> & Hc1 & Hp1 & Hwf1).
      cbn [mbind outcome_bind].
      destruct (IH g1 (out ++ from_option (fun h => [header_message h]) []
                                 (header_of (c :: line))) Hwf1)
        as (g' & -> & Hc & Hp & Hwf').
      exists g'. split; [|split; [|split; [|done]]].
      * do 2 f_equal. rewrite <- app_assoc. f_equal. cbn [omap list_omap].
        destruct (header_of (c :: line)); reflexivity.
      * rewrite Hc, Hc1, latest_cons.
        by assert (from_option snd (boundary_bit_count g) (header_of (c :: line))
                   = default (boundary_bit_count g) (snd <$> header_of (c :: line)))
          as -> by (destruct (header_of (c :: line)); reflexivity).
      * by rewrite Hp, Hp1, latest_cons.
Qed.

Lemma latest_last {A} (f : cstring -> option A) d pre line post v :
  f line = Some v -> (forall l, l ∈ post -> f l = None) ->
  latest f d (pre ++ line :: post) = v.
Proof.
  intros Hline Hpost. unfold latest. rewrite fold_left_app. cbn [fold_left].
  rewrite Hline. cbn [default from_option id].
  induction post as [|l post IH]; [done|]. cbn [fold_left].
  rewrite (Hpost l) by left. cbn [default from_option id].
  apply IH. intros l' Hl'. apply Hpost. by right.
Qed.

(** C8, as stated, fails on a file whose header is repeated and followed
    by a line matching the pattern as far as the identifier: the last
    matching header names XC7A200T, the name left after parsing is another,
    and two progress messages are printed. *)
Lemma header_last_match_counterexample :
  exists g out,
    parse_bsdl (Some repeated_header_bsdl) initial_globals = Ok (g, out)
    /\ last (omap header_of (bsdl_lines (fgets_results repeated_header_bsdl)))
       = Some (str "XC7A200T", 1200)
    /\ part_name g <> str "XC7A200T"
    /\ length out = 2%nat.
Proof.
  destruct (parse_bsdl_loop_spec (fgets_results repeated_header_bsdl) initial_globals []
              initial_globals_wf) as (g & Hparse & _ & Hname & _).
  exists g. eexists. split; [exact Hparse|].
  split; [vm_compute; reflexivity|]. split.
  - rewrite Hname. vm_compute. discriminate.
  - vm_compute. reflexivity.
Qed.

(** C8, amended: after parsing, [boundary_bit_count] is the count of the
    last matching header line, and [part_name] its identifier when no later
    line converts the identifier; each matching header line prints one
    progress message, with its identifier and count, so a file with several
    prints several. *)
Theorem header_last_match_wins file g :
  wf_globals g ->
  exists g' out,
    parse_bsdl (Some file) g = Ok (g', out)
    /\ out = header_message <$> omap header_of (bsdl_lines (fgets_results file))
    /\ forall pre line post p c,
         bsdl_lines (fgets_results file) = pre ++ line :: post ->
         header_of line = Some (p, c) ->
         (forall l, l ∈ post -> header_of l = None) ->
         boundary_bit_count g' = c
         /\ ((forall l, l ∈ post -> identifier_of l = None) -> part_name g' = p).
Proof.
  intros Hwf. unfold parse_bsdl.
  destruct (parse_bsdl_loop_spec (fgets_results file) g [] Hwf)
    as (g' & Hparse & Hcount & Hname & _).
  exists g'. eexists. split; [exact Hparse|]. split; [done|].
  intros pre line post p c Hlines Hline Hpost. rewrite Hlines in *. split.
  - rewrite Hcount. apply latest_last; [by rewrite Hline|].
    intros l Hl. by rewrite (Hpost l Hl).
  - intros Hlater. rewrite Hname. apply latest_last; [|done].
    by apply (header_identifier line p c).
Qed.

Lemma header_last_match_wins_witness :
  exists g' out,
    parse_bsdl (Some sample_bsdl) initial_globals = Ok (g', out)
    /\ out = [FpgaAssumed (str "XC7A100T_CSG324") 4]
    /\ boundary_bit_count g' = 4
    /\ part_name g' = str "XC7A100T_CSG324".
Proof.
  destruct (header_last_match_wins sample_bsdl initial_globals initial_globals_wf)
    as (g' & out & Hparse & Hout & Hlast).
  exists g', out. split; [exact Hparse|]. split.
  - rewrite Hout. vm_compute. reflexivity.
  - destruct (Hlast [] (List.hd [] (bsdl_lines (fgets_results sample_bsdl)))
                (List.tl (bsdl_lines (fgets_results sample_bsdl)))
                (str "XC7A100T_CSG324") 4) as [Hcount Hname].
    + vm_compute. reflexivity.
    + vm_compute. reflexivity.
    + apply Forall_forall. refine (bool_decide_unpack _ _). vm_compute. exact I.
    + split; [exact Hcount|]. apply Hname.
      apply Forall_forall. refine (bool_decide_unpack _ _). vm_compute. exact I.
Defined.

(** ** parse_bsdl: bit records *)

Lemma scan_bit_stored g line bit_number bit_name bit_type bit_default :
  wf_globals g ->
  sscanf line bit_format
  = (4, [VInt bit_number; VStr bit_name; VStr bit_type; VStr bit_default]) ->
  scan_bit g line
  = Ok (if decide (0 <= bit_number < MAX_BOUNDARY_BITS)
        then set_boundary_bits g
               (<[Z.to_nat bit_number := Some bit_type]> (boundary_bit_type g))
               (<[Z.to_nat bit_number := Some bit_name]> (boundary_bit_fullname g))
               (<[Z.to_nat bit_number := Some (after_underscores bit_name bit_name)]>
                  (boundary_bit_pin g))
        else g).
Proof.
  intros [_ _ Ht Hf Hp] Hscan. unfold scan_bit. rewrite Hscan. cbn [Z.eqb Pos.eqb].
  destruct (decide (0 <= bit_number < MAX_BOUNDARY_BITS)) as [Hin|Hout].
  - destruct (Z.leb_spec 0 bit_number); [|lia].
    destruct (Z.ltb_spec bit_number MAX_BOUNDARY_BITS); [|lia].
    cbn [andb]. rewrite !store_ok by (rewrite ?Ht, ?Hf, ?Hp; lia). done.
  - destruct (Z.leb_spec 0 bit_number); [|done].
    destruct (Z.ltb_spec bit_number MAX_BOUNDARY_BITS); [lia|done].
Qed.

(** C7: a line on which the bit pattern converts all four items stores the
    record at its index, over whatever was there, when the index is in
    [0, MAX_BOUNDARY_BITS); otherwise the line changes nothing in the
    program state, prints nothing and is no error, so nothing later can see
    the record. *)
Theorem bit_record_stored_iff_in_range g line :
  wf_globals g ->
  fst (sscanf line bit_format) = 4 ->
  exists bit_number bit_name bit_type bit_default,
    sscanf line bit_format
    = (4, [VInt bit_number; VStr bit_name; VStr bit_type; VStr bit_default])
    /\ bsdl_line g line
       = Ok (if decide (0 <= bit_number < MAX_BOUNDARY_BITS)
             then set_boundary_bits g
                    (<[Z.to_nat bit_number := Some bit_type]> (boundary_bit_type g))
                    (<[Z.to_nat bit_number := Some bit_name]> (boundary_bit_fullname g))
                    (<[Z.to_nat bit_number := Some (after_underscores bit_name bit_name)]>
                       (boundary_bit_pin g))
             else g, []).
Proof.
  intros Hwf Hmatch.
  destruct (bit_scan_shape line Hmatch)
    as (bit_number & bit_name & bit_type & bit_default & Hscan).
  exists bit_number, bit_name, bit_type, bit_default. split; [done|].
  unfold bsdl_line. rewrite (bit_line_not_header g line _ Hscan).
  by rewrite (scan_bit_stored _ _ _ _ _ _ Hwf Hscan).
Qed.

(** A record for index 8192 leaves the initial state as it is. *)
Lemma bit_record_stored_iff_in_range_witness :
  bsdl_line initial_globals line_8192 = Ok (initial_globals, []).
Proof.
  destruct (bit_record_stored_iff_in_range initial_globals line_8192)
    as (bit_number & bit_name & bit_type & bit_default & Hscan & Hline).
  - apply initial_globals_wf.
  - vm_compute. reflexivity.
  - rewrite Hline. vm_compute in Hscan. injection Hscan as <- _ _ _.
    reflexivity.
Defined.

Lemma clear_boundary_bits_spec g :
  wf_globals g -> wf_globals (clear_boundary_bits g) /\ bits_together (clear_boundary_bits g).
Proof.
  intros [Hp Hs _ _ _]. split.
  - split; cbn; by rewrite ?length_replicate.
  - intros i [s Hs']. cbn in Hs'. by apply lookup_replicate in Hs' as [? _].
Qed.

Lemma scan_bit_together g line g' :
  wf_globals g -> bits_together g -> scan_bit g line = Ok g' -> bits_together g'.
Proof.
  intros [_ _ Ht Hf Hp] Htog. unfold scan_bit.
  destruct (sscanf line bit_format) as [n vals].
  destruct (n =? 4); [|by intros [= <-]].
  destruct vals as [|[?|bit_number] [|[bit_name|?] [|[bit_type|?] [|[bit_default|?] [|? ?]]]]];
    try by intros [= <-].
  destruct (0 <=? bit_number) eqn:H0, (bit_number <? MAX_BOUNDARY_BITS) eqn:H1;
    cbn [andb]; try by intros [= <-].
  apply Z.leb_le in H0. apply Z.ltb_lt in H1. unfold MAX_BOUNDARY_BITS in *.
  rewrite !store_ok by (rewrite ?Ht, ?Hf, ?Hp; lia).
  cbn [mbind outcome_bind]. intros [= <-].
  intros i [s Hs]. cbn in *. unfold named.
  destruct (decide (Z.to_nat bit_number = Z.to_nat i)) as [Heq|Hne].
  - rewrite <- Heq. rewrite !list_lookup_insert_eq by (rewrite ?Hf, ?Hp; lia).
    by split; eexists.
  - rewrite list_lookup_insert_ne in Hs by done.
    rewrite !list_lookup_insert_ne by done. apply Htog. by exists s.
Qed.

Lemma bsdl_line_together g line g' out :
  wf_globals g -> bits_together g ->
  bsdl_line g line = Ok (g', out) -> wf_globals g' /\ bits_together g'.
Proof.
  intros Hwf Htog. unfold bsdl_line.
  pose proof (scan_header_spec g line) as (g1' & Hhead & _ & _ & Hwf1).
  pose proof (scan_header_bits g line) as (Ht & Hf & Hp).
  destruct (scan_header g line) as [g1 out1].
  injection Hhead as <- _. cbn [fst] in Ht, Hf, Hp. specialize (Hwf1 Hwf).
  destruct (scan_bit_spec g1 line Hwf1) as (g2 & Hbit & _ & _ & Hwf2).
  rewrite Hbit. cbn [mbind outcome_bind]. intros [= <- _]. split; [done|].
  apply (scan_bit_together g1 line); [done| |done].
  intros i. unfold named. rewrite Ht, Hf, Hp. apply Htog.
Qed.

Lemma parse_bsdl_loop_together chunks : forall g out g' out',
  wf_globals g -> bits_together g ->
  parse_bsdl_loop chunks g out = Ok (g', out') -> wf_globals g' /\ bits_together g'.
Proof.
  induction chunks as [|chunk chunks IH]; intros g out g' out' Hwf Htog Hparse;
    cbn [parse_bsdl_loop] in Hparse.
  - by injection Hparse as <- _.
  - destruct (cstr chunk) as [|c line]; [by injection Hparse as <- _|].
    destruct (bsdl_line g (c :: line)) as [[g1 ev]| |] eqn:Hline;
      cbn [mbind outcome_bind] in Hparse; [|done..].
    destruct (bsdl_line_together _ _ _ _ Hwf Htog Hline) as [Hwf1 Htog1].
    by eapply IH.
Qed.

(** ** The resolver *)

Lemma last_match_snoc records r pin :
  last_match (records ++ [r]) pin
  = if bool_decide (fst r = pin) then snd r else last_match records pin.
Proof.
  unfold last_match. rewrite filter_app.
  case_bool_decide as Hr.
  - rewrite filter_cons_True by done. by rewrite filter_nil, last_snoc.
  - rewrite filter_cons_False by done. by rewrite filter_nil, app_nil_r.
Qed.

(** The inner loop leaves in [s] the signal of the last mapping of the
    pin. *)
Lemma resolve_signal_spec g records i pin :
  holds_mappings g records -> 0 <= i ->
  boundary_bit_pin g !! Z.to_nat i = Some (Some pin) ->
  resolve_signal g i = Ok (Some (last_match records pin)).
Proof.
  intros [Hcount Hrec] Hi Hpin. unfold resolve_signal, for_range.
  destruct (for_loop_inv
              (fun j s => s = Some (last_match (take (Z.to_nat j) records) pin))
              (fun j s =>
                 pin ← load PinNames (pin_names g) j;
                 bit_pin ← load BoundaryBitPin (boundary_bit_pin g) i;
                 same ← strcmp_eq pin bit_pin;
                 if same : bool then load SignalNames (signal_names g) j else Ok s)
              (Z.to_nat (pin_count g - 0)) 0 (Some unknown))
    as (s & Hloop & Hs).
  - done.
  - intros j s Hj ->.
    destruct (lookup_lt_is_Some_2 records (Z.to_nat j)) as [r Hr]; [lia|].
    destruct (Hrec _ _ Hr) as [Hp Hsig].
    rewrite (load_ok PinNames _ _ _ (proj1 Hj) Hp). cbn [mbind outcome_bind].
    rewrite (load_ok BoundaryBitPin _ _ _ Hi Hpin). cbn [mbind outcome_bind strcmp_eq].
    replace (Z.to_nat (j + 1)) with (Datatypes.S (Z.to_nat j)) by lia.
    rewrite (take_S_r _ _ _ Hr), last_match_snoc.
    case_bool_decide.
    + rewrite (load_ok SignalNames _ _ _ (proj1 Hj) Hsig). by eexists.
    + by eexists.
  - rewrite Hloop, Hs. do 2 f_equal.
    rewrite take_ge; [done|lia].
Qed.

(** Without mappings the inner loop does not run. *)
Lemma resolve_signal_no_pins g i :
  pin_count g <= 0 -> resolve_signal g i = Ok (Some unknown).
Proof.
  intros Hc. unfold resolve_signal, for_range.
  by replace (Z.to_nat (pin_count g - 0)) with 0%nat by lia.
Qed.

(** One bit of the resolver loop. *)
Lemma resolve_bit_spec g sens i l out s type :
  0 <= i < MAX_BOUNDARY_BITS -> wf_locals l ->
  resolve_signal g i = Ok (Some s) ->
  boundary_bit_type g !! Z.to_nat i = Some (Some type) ->
  resolve_bit g sens i (l, out)
  = Ok ({| bbit_names := <[Z.to_nat i := Some s]> (bbit_names l);
           bbit_ignore := <[Z.to_nat i := ignore_value sens s]> (bbit_ignore l);
           bbit_show := <[Z.to_nat i := show_value type]> (bbit_show l) |},
        out ++ notices sens i s).
Proof.
  intros Hi [Hn Hg Hs] Hres Hty. unfold resolve_bit.
  rewrite Hres. cbn [mbind outcome_bind].
  rewrite store_ok by lia. cbn [mbind outcome_bind strcmp_eq].
  rewrite store_ok by lia. cbn [mbind outcome_bind].
  rewrite (load_ok BoundaryBitType _ _ (Some type)) by (done || lia).
  destruct sens as [sens|]; cbn [mbind outcome_bind deref ignore_value notices].
  - destruct (strcasestr sens s) as [o|] eqn:E.
    + rewrite store_ok by (rewrite length_insert; lia).
      cbn [mbind outcome_bind strcmp_eq]. rewrite store_ok by lia.
      cbn [mbind outcome_bind]. rewrite list_insert_insert_eq.
      unfold show_value. do 2 f_equal.
      destruct (i =? 0); by rewrite <- ?app_assoc.
    + rewrite store_ok by (rewrite length_insert; lia).
      cbn [mbind outcome_bind strcmp_eq]. rewrite store_ok by lia.
      cbn [mbind outcome_bind]. rewrite list_insert_insert_eq.
      unfold show_value. do 2 f_equal.
      destruct (i =? 0); by rewrite ?app_nil_r.
  - cbn [strcmp_eq mbind outcome_bind]. rewrite store_ok by lia.
    cbn [mbind outcome_bind]. by rewrite app_nil_r.
Qed.

(** The first [n] turns of the resolver loop, for tables that are ready
    that far. *)
Lemma resolver_loop_spec g records sens l out n :
  tables_ready g records (Z.of_nat n) -> (Z.of_nat n <= MAX_BOUNDARY_BITS) ->
  wf_locals l ->
  exists l' out',
    for_loop n 0 (resolve_bit g sens) (l, out) = Ok (l', out')
    /\ wf_locals l' /\ resolved_below g records sens l' (Z.of_nat n).
Proof.
  intros [Hwf Hpins Hbits] Hn Hl.
  destruct (for_loop_inv
              (fun k (st : locals * list event) =>
                 wf_locals (fst st) /\ resolved_below g records sens (fst st) k)
              (resolve_bit g sens) n 0 (l, out))
    as ([l' out'] & Hloop & Hwf' & Hres).
  - split; [done|]. intros i Hi. lia.
  - intros i [l1 out1] Hi [Hwf1 Hres1]. simpl in Hwf1, Hres1.
    destruct (Hbits i) as ([type Hty] & _ & [pin Hpin]); [lia|].
    erewrite resolve_bit_spec;
      [|lia|done|by eapply resolve_signal_spec; [done|lia|done]|done].
    eexists. split; [done|]. destruct Hwf1 as [Hn1 Hg1 Hs1]. simpl. split.
    + split; simpl; by rewrite length_insert.
    + intros k Hk. simpl.
      destruct (decide (k = i)) as [->|Hne].
      * rewrite !list_lookup_insert_eq by lia.
        unfold name_at. by rewrite Hpin, Hty.
      * rewrite !list_lookup_insert_ne by lia. apply Hres1. lia.
  - exists l', out'. by rewrite Z.add_0_l in Hres.
Qed.

Lemma filter_none {A} (P : A -> Prop) `{!forall x, Decision (P x)} (l : list A) :
  (forall x, x ∈ l -> ~ P x) -> filter P l = [].
Proof.
  intros Hnone. destruct (filter P l) as [|x l'] eqn:E; [done|].
  assert (x ∈ filter P l) as Hx by (rewrite E; left).
  apply list_elem_of_filter in Hx as [HP Hx]. by destruct (Hnone x).
Qed.

Lemma last_match_last records pin j sig :
  records !! j = Some (pin, sig) ->
  (forall k r, (j < k)%nat -> records !! k = Some r -> fst r <> pin) ->
  last_match records pin = sig.
Proof.
  intros Hj Hlater. unfold last_match.
  rewrite <- (take_drop_middle records j (pin, sig)) by done.
  rewrite filter_app, filter_cons_True by done.
  assert (filter (fun r : list ascii * list ascii => fst r = pin) (drop (Datatypes.S j) records) = [])
    as ->.
  { apply filter_none. intros r Hr.
    apply list_elem_of_lookup in Hr as [k Hk]. rewrite lookup_drop in Hk.
    by apply (Hlater (Datatypes.S j + k)%nat); [lia|]. }
  by rewrite last_snoc.
Qed.

Lemma last_match_none records pin :
  (forall r, r ∈ records -> fst r <> pin) -> last_match records pin = unknown.
Proof.
  intros Hnone. unfold last_match.
  assert (filter (fun r : list ascii * list ascii => fst r = pin) records = []) as ->; [|done].
  by apply filter_none.
Qed.

(** C2: the resolved signal of a bit is the signal of the last mapping, in
    table order (the order of the lines of the pin file), whose pin name is
    the pin of the bit, and ["<unknown>"] when no mapping has that pin. *)
Theorem resolve_signal_last_match g records i pin :
  holds_mappings g records -> 0 <= i ->
  boundary_bit_pin g !! Z.to_nat i = Some (Some pin) ->
  exists s,
    resolve_signal g i = Ok (Some s)
    /\ (forall j sig, records !! j = Some (pin, sig) ->
          (forall k r, (j < k)%nat -> records !! k = Some r -> fst r <> pin) ->
          s = sig)
    /\ ((forall r, r ∈ records -> fst r <> pin) -> s = unknown).
Proof.
  intros Hrec Hi Hpin. exists (last_match records pin).
  split; [by apply resolve_signal_spec|]. split.
  - intros j sig. apply last_match_last.
  - apply last_match_none.
Qed.

(** Pin A3 mapped to SIG1 and then to SIG2 resolves to SIG2. *)
Lemma resolve_signal_last_match_witness :
  resolve_signal (fst (sample_loaded "a3.xdc")) 0 = Ok (Some (str "SIG2")).
Proof.
  destruct (resolve_signal_last_match (fst (sample_loaded "a3.xdc"))
              [(str "A3", str "SIG1"); (str "A3", str "SIG2")] 0 (str "A3"))
    as (s & -> & Hlast & _).
  - split; [vm_compute; reflexivity|].
    intros j r Hr.
    destruct j as [|[|j]]; vm_compute in Hr; inversion Hr; subst r;
      vm_compute; split; reflexivity.
  - lia.
  - vm_compute. reflexivity.
  - do 2 f_equal. apply (Hlast 1%nat); [reflexivity|].
    intros k r Hk Hr. destruct k as [|[|k]]; [lia..|]. vm_compute in Hr. inversion Hr.
Defined.

(** *** The sensitivity list *)

Lemma prefix_by_case needle hay :
  prefix_by chr_case_eq needle hay = true
  <-> exists post, tolower <$> hay = (tolower <$> needle) ++ post.
Proof.
  revert hay. induction needle as [|a needle IH]; intros hay; cbn [prefix_by].
  - split; [|done]. intros _. by eexists.
  - destruct hay as [|b hay].
    + split; [done|]. by intros [post ?].
    + rewrite andb_true_iff, IH. unfold chr_case_eq. rewrite bool_decide_eq_true.
      split.
      * intros [Hb [post Hp]]. exists post. rewrite !fmap_cons, Hb, Hp. done.
      * intros [post Hp]. rewrite !fmap_cons in Hp. injection Hp as Hb Hp.
        split; [done|]. by exists post.
Qed.

(** [strcasestr] finds the needle exactly when it occurs, case ignored. *)
Lemma strcasestr_ci_substring hay needle :
  is_Some (strcasestr hay needle) <-> ci_substring needle hay.
Proof.
  unfold strcasestr, ci_substring. induction hay as [|b hay IH].
  - simpl. destruct (prefix_by chr_case_eq needle []) eqn:E.
    + split; [|by eexists]. intros _.
      apply prefix_by_case in E as [post E]. by exists [], post.
    + split; [by intros [? ?]|]. intros (pre & post & Hpre).
      simpl in Hpre. symmetry in Hpre.
      apply app_eq_nil in Hpre as [-> Hpre].
      assert (prefix_by chr_case_eq needle [] = true); [|congruence].
      apply prefix_by_case. exists post. by rewrite Hpre.
  - cbn [find_sub]. destruct (prefix_by chr_case_eq needle (b :: hay)) eqn:E.
    + split; [|by eexists]. intros _.
      apply prefix_by_case in E as [post E]. by exists [], post.
    + rewrite fmap_is_Some, IH. split.
      * intros (pre & post & Hpre). exists (tolower b :: pre), post.
        by rewrite fmap_cons, Hpre.
      * intros (pre & post & Hpre). destruct pre as [|c pre].
        -- assert (prefix_by chr_case_eq needle (b :: hay) = true); [|congruence].
           apply prefix_by_case. by exists post.
        -- rewrite fmap_cons in Hpre. injection Hpre as _ Hpre. by exists pre, post.
Qed.

Lemma ignore_value_sensitivity sens s :
  (ci_substring s sens -> ignore_value (Some sens) s = 0)
  /\ (~ ci_substring s sens -> ignore_value (Some sens) s = 1).
Proof.
  unfold ignore_value. rewrite <- strcasestr_ci_substring.
  destruct (strcasestr sens s) as [o|]; split; intros H; try done.
  destruct H. by exists o.
Qed.

(** C4: with a sensitivity string, the resolver leaves the ignore flag of
    every bit at 0 when the resolved signal of the bit occurs in the
    sensitivity string, case ignored, and at 1 otherwise.  Whether the
    signal is CLK_IN, which decides the flag without a sensitivity string,
    plays no part. *)
Theorem sensitivity_replaces_default g records sens l out :
  tables_ready g records (boundary_bit_count g) ->
  boundary_bit_count g <= MAX_BOUNDARY_BITS -> wf_locals l ->
  exists l' out',
    build_resolver g (Some sens) l out = Ok (l', out')
    /\ forall i, 0 <= i < boundary_bit_count g ->
         exists s,
           bbit_names l' !! Z.to_nat i = Some (Some s)
           /\ (ci_substring s sens -> bbit_ignore l' !! Z.to_nat i = Some 0)
           /\ (~ ci_substring s sens -> bbit_ignore l' !! Z.to_nat i = Some 1).
Proof.
  intros Hready Hcount Hl. unfold build_resolver, for_range.
  destruct (resolver_loop_spec g records (Some sens) l out
              (Z.to_nat (boundary_bit_count g - 0)))
    as (l' & out' & Hloop & _ & Hres); [|unfold MAX_BOUNDARY_BITS in *; lia|done|].
  - destruct Hready as [? ? Hbits]. split; [done..|]. intros i Hi. apply Hbits. lia.
  - exists l', out'. split; [done|]. intros i Hi.
    destruct (Hres i) as (Hname & Hign & _); [lia|].
    eexists. split; [done|]. rewrite Hign.
    destruct (ignore_value_sensitivity sens
                (last_match records (name_at (boundary_bit_pin g) i))) as [H0 H1].
    split; intros H; f_equal; auto.
Qed.

(** The sample files load into tables that are ready for the four declared
    bits. *)
Lemma sample_count :
  boundary_bit_count (fst (sample_loaded "pins.xdc")) = 4.
Proof. vm_compute. reflexivity. Qed.

Lemma sample_ready :
  tables_ready (fst (sample_loaded "pins.xdc")) sample_records 4.
Proof.
  split.
  - split; vm_compute; reflexivity.
  - split; [vm_compute; reflexivity|].
    intros j r Hr.
    destruct j as [|[|[|[|j]]]]; vm_compute in Hr; inversion Hr; subst r;
      vm_compute; split; reflexivity.
  - intros i Hi.
    assert (i = 0 \/ i = 1 \/ i = 2 \/ i = 3) as [->|[->|[->| ->]]] by lia;
      (split; [|split]); eexists; vm_compute; reflexivity.
Qed.

(** The sample files end to end: bit 0 is U1_DATA_PIN_A3 of type input,
    its pin A3 is mapped to DATA_BUS[3]; it is shown and not ignored. *)
Example sample_bit_0 :
  boundary_bit_pin (fst (sample_loaded "pins.xdc")) !! 0%nat = Some (Some (str "A3"))
  /\ bbit_names (snd (sample_loaded "pins.xdc")) !! 0%nat = Some (Some (str "DATA_BUS[3]"))
  /\ bbit_show (snd (sample_loaded "pins.xdc")) !! 0%nat = Some 1
  /\ bbit_ignore (snd (sample_loaded "pins.xdc")) !! 0%nat = Some 0.
Proof. vm_compute. by repeat split. Qed.

Lemma stack_locals_wf : wf_locals stack_locals.
Proof. split; vm_compute; reflexivity. Qed.

Lemma sensitivity_replaces_default_witness :
  exists l' out',
    build_resolver (fst (sample_loaded "pins.xdc")) (Some (str "CLK_IN,sys_clk"))
      stack_locals [] = Ok (l', out')
    /\ forall i, 0 <= i < boundary_bit_count (fst (sample_loaded "pins.xdc")) ->
         exists s,
           bbit_names l' !! Z.to_nat i = Some (Some s)
           /\ (ci_substring s (str "CLK_IN,sys_clk") ->
               bbit_ignore l' !! Z.to_nat i = Some 0)
           /\ (~ ci_substring s (str "CLK_IN,sys_clk") ->
               bbit_ignore l' !! Z.to_nat i = Some 1).
Proof.
  apply (sensitivity_replaces_default _ sample_records).
  - rewrite sample_count. apply sample_ready.
  - rewrite sample_count. unfold MAX_BOUNDARY_BITS. lia.
  - apply stack_locals_wf.
Defined.

(** C3, as stated, fails: with the sensitivity string CLK the ignore flag
    of a bit resolved to sys_clk is not 0. *)
Lemma sensitivity_clk_counterexample :
  ~ (forall g i l out l' out',
       0 <= i < MAX_BOUNDARY_BITS -> wf_locals l ->
       resolve_signal g i = Ok (Some (str "sys_clk")) ->
       resolve_bit g (Some (str "CLK")) i (l, out) = Ok (l', out') ->
       bbit_ignore l' !! Z.to_nat i = Some 0).
Proof.
  intros H.
  assert (resolve_signal (fst (sample_loaded "pins.xdc")) 1
          = Ok (Some (str "sys_clk"))) as Hres by (vm_compute; reflexivity).
  assert (boundary_bit_type (fst (sample_loaded "pins.xdc")) !! Z.to_nat 1
          = Some (Some (str "input"))) as Hty by (vm_compute; reflexivity).
  assert (0 <= 1 < MAX_BOUNDARY_BITS) as Hi by (unfold MAX_BOUNDARY_BITS; lia).
  pose proof (resolve_bit_spec (fst (sample_loaded "pins.xdc")) (Some (str "CLK")) 1
                stack_locals [] (str "sys_clk") (str "input")
                Hi stack_locals_wf Hres Hty) as Hbit.
  apply (H _ _ _ _ _ _ Hi stack_locals_wf Hres) in Hbit.
  cbn [bbit_ignore] in Hbit. rewrite list_lookup_insert_eq in Hbit.
  - vm_compute in Hbit. discriminate.
  - destruct stack_locals_wf as [_ -> _]. vm_compute. lia.
Qed.

(** C3, amended: the signal name is looked for in the sensitivity string,
    not the other way round.  With the sensitivity string CLK, a bit
    resolved to sys_clk gets the ignore flag 1, as a bit resolved to DATA0
    does; a bit resolved to clk gets 0. *)
Theorem sensitivity_clk_signal_in_list g i l out s :
  0 <= i < MAX_BOUNDARY_BITS -> wf_locals l ->
  named (boundary_bit_type g) i ->
  resolve_signal g i = Ok (Some s) ->
  exists l' out',
    resolve_bit g (Some (str "CLK")) i (l, out) = Ok (l', out')
    /\ (s = str "sys_clk" -> bbit_ignore l' !! Z.to_nat i = Some 1)
    /\ (s = str "DATA0" -> bbit_ignore l' !! Z.to_nat i = Some 1)
    /\ (s = str "clk" -> bbit_ignore l' !! Z.to_nat i = Some 0).
Proof.
  intros Hi Hwf [type Hty] Hres.
  rewrite (resolve_bit_spec g _ i l out s type Hi Hwf Hres Hty).
  do 2 eexists. split; [done|]. cbn [bbit_ignore].
  destruct Hwf as [_ Hg _]. unfold MAX_BOUNDARY_BITS in *.
  rewrite list_lookup_insert_eq by lia.
  repeat split; intros ->; reflexivity.
Qed.

Lemma sensitivity_clk_signal_in_list_witness :
  exists l' out',
    resolve_bit (fst (sample_loaded "pins.xdc")) (Some (str "CLK")) 1
      (stack_locals, []) = Ok (l', out')
    /\ bbit_ignore l' !! 1%nat = Some 1.
Proof.
  destruct (sensitivity_clk_signal_in_list (fst (sample_loaded "pins.xdc")) 1
              stack_locals [] (str "sys_clk"))
    as (l' & out' & Hbit & Hclk & _).
  - unfold MAX_BOUNDARY_BITS. lia.
  - apply stack_locals_wf.
  - eexists. vm_compute. reflexivity.
  - vm_compute. reflexivity.
  - exists l', out'. split; [exact Hbit|]. by apply Hclk.
Defined.

(** *** Bits without a stored record *)

(** A bit whose record was never stored has a null type pointer, and the
    resolver passes it to [strcmp]: the turn for that bit never returns. *)
Lemma resolve_bit_absent g sens i st :
  0 <= i -> boundary_bit_type g !! Z.to_nat i = Some None ->
  forall r, resolve_bit g sens i st <> Ok r.
Proof.
  intros Hi Hty r. destruct st as [l out]. unfold resolve_bit.
  destruct (resolve_signal g i) as [s| |]; cbn [mbind outcome_bind]; [|done..].
  destruct (store BbitNames _ _ _) as [names| |]; cbn [mbind outcome_bind]; [|done..].
  destruct (strcmp_eq _ s) as [is_clk| |]; cbn [mbind outcome_bind]; [|done..].
  destruct (store BbitIgnore _ _ _) as [ignore| |]; cbn [mbind outcome_bind]; [|done..].
  destruct (match sens with Some _ => _ | None => _ end) as [[ignore' out']| |];
    cbn [mbind outcome_bind]; [|done..].
  by rewrite (load_ok BoundaryBitType _ _ None Hi Hty).
Qed.

(** The turn for a bit without a stored record, inside the arrays: a null
    pointer goes to [strcmp], from [boundary_bit_pin[i]] when there are pin
    mappings and from [boundary_bit_type[i]] when there are none. *)
Lemma resolve_bit_null g records sens i l out :
  wf_globals g -> holds_mappings g records -> wf_locals l ->
  0 <= i < MAX_BOUNDARY_BITS ->
  boundary_bit_type g !! Z.to_nat i = Some None ->
  boundary_bit_pin g !! Z.to_nat i = Some None ->
  resolve_bit g sens i (l, out) = Fault NullPointer.
Proof.
  intros _ [Hpc Hrec] [Hn Hig Hs] Hi Hty Hpin. unfold MAX_BOUNDARY_BITS in *.
  unfold resolve_bit. destruct records as [|r records].
  - rewrite resolve_signal_no_pins by (rewrite Hpc; simpl; lia).
    cbn [mbind outcome_bind strcmp_eq]. rewrite !store_ok by lia.
    cbn [mbind outcome_bind].
    destruct sens as [sens|]; cbn [deref mbind outcome_bind].
    + destruct (strcasestr sens unknown);
        rewrite store_ok by (rewrite length_insert; lia); cbn [mbind outcome_bind];
        by rewrite (load_ok BoundaryBitType _ _ None) by (done || lia).
    + by rewrite (load_ok BoundaryBitType _ _ None) by (done || lia).
  - assert (resolve_signal g i = Fault NullPointer) as ->; [|done].
    unfold resolve_signal, for_range.
    replace (Z.to_nat (pin_count g - 0)) with (Datatypes.S (length records))
      by (rewrite Hpc; simpl; lia).
    rewrite for_loop_S. destruct (Hrec 0%nat r eq_refl) as [Hp _].
    rewrite (load_ok PinNames _ 0 _ ltac:(lia) Hp). cbn [mbind outcome_bind].
    by rewrite (load_ok BoundaryBitPin _ _ None) by (done || lia).
Qed.

(** C5 fails on the code: for the first bit below [boundary_bit_count]
    whose layout record was never stored, the resolver loop does not
    produce an entry with show = 0; it passes the null pointer the tables
    hold for the bit to [strcmp], and the loop ends there. *)
Theorem absent_bit_breaks_resolver g records sens l out i :
  tables_ready g records i -> wf_locals l ->
  0 <= i < boundary_bit_count g -> i < MAX_BOUNDARY_BITS ->
  boundary_bit_type g !! Z.to_nat i = Some None ->
  boundary_bit_pin g !! Z.to_nat i = Some None ->
  build_resolver g sens l out = Fault NullPointer.
Proof.
  intros Hready Hl Hi Hmax Hty Hpin. unfold build_resolver, for_range.
  destruct (resolver_loop_spec g records sens l out (Z.to_nat i))
    as (l' & out' & Hloop & Hl' & _).
  { by rewrite Z2Nat.id by lia. }
  { unfold MAX_BOUNDARY_BITS in *. lia. }
  { done. }
  replace (Z.to_nat (boundary_bit_count g - 0))
    with (Z.to_nat i + Datatypes.S (Z.to_nat (boundary_bit_count g - i - 1)))%nat by lia.
  rewrite for_loop_split, Hloop. cbn [mbind outcome_bind].
  rewrite for_loop_S, Z.add_0_l, Z2Nat.id by lia.
  destruct Hready as [Hwf Hpins _].
  by rewrite (resolve_bit_null g records sens i l' out' Hwf Hpins Hl') by (done || lia).
Qed.

(** One bit declared and no record for it: the load phase ends in the
    null-pointer fault. *)
Lemma absent_bit_breaks_resolver_witness :
  load_phase header_only_fs None (Some (str "part.bsdl")) None
    stack_line stack_locals initial_globals = Fault NullPointer
  /\ build_resolver
       (set_boundary_bit_count (clear_boundary_bits initial_globals) 1)
       None stack_locals [WarnNoXdc] = Fault NullPointer.
Proof.
  split; [vm_compute; reflexivity|].
  apply (absent_bit_breaks_resolver _ [] None stack_locals [WarnNoXdc] 0).
  - split.
    + split; vm_compute; reflexivity.
    + split; [reflexivity|]. intros j r Hr. inversion Hr.
    + intros i Hi. lia.
  - apply stack_locals_wf.
  - cbn [set_boundary_bit_count boundary_bit_count]. lia.
  - unfold MAX_BOUNDARY_BITS. lia.
  - vm_compute. reflexivity.
  - vm_compute. reflexivity.
Defined.

(** ** Bounds of the per-bit arrays *)

Section InBounds.

Context {A B : Type}.

Lemma in_bounds_ok (a : A) : bits_in_bounds (Ok a).
Proof. by intros w k. Qed.

Lemma in_bounds_exit c : bits_in_bounds (@Exit A c).
Proof. by intros w k. Qed.

Lemma in_bounds_null : bits_in_bounds (@Fault A NullPointer).
Proof. by intros w k. Qed.

Lemma in_bounds_bind (m : outcome A) (k : A -> outcome B) :
  bits_in_bounds m -> (forall a, m = Ok a -> bits_in_bounds (k a)) ->
  bits_in_bounds (m ≫= k).
Proof.
  intros Hm Hk. destruct m as [a|f|c]; cbn [mbind outcome_bind].
  - by apply Hk.
  - intros w j [= ->]. by apply (Hm w j).
  - by intros w j.
Qed.

Lemma in_bounds_load w (arr : list A) i :
  (per_bit w = true -> 0 <= i < Z.of_nat (length arr)) ->
  bits_in_bounds (load w arr i).
Proof.
  intros Hi w' k Hf. apply load_fault in Hf as [[= -> ->] Hout].
  destruct (per_bit w) eqn:E; [|done]. destruct Hout. by apply Hi.
Qed.

Lemma in_bounds_store w (arr : list A) i x :
  (per_bit w = true -> 0 <= i < Z.of_nat (length arr)) ->
  bits_in_bounds (store w arr i x).
Proof.
  intros Hi w' k Hf. apply store_fault in Hf as [[= -> ->] Hout].
  destruct (per_bit w) eqn:E; [|done]. destruct Hout. by apply Hi.
Qed.

Lemma store_length w (arr arr' : list A) i x :
  store w arr i x = Ok arr' -> length arr' = length arr.
Proof.
  unfold store. destruct (_ && _); [|done]. intros [= <-]. apply length_insert.
Qed.

Lemma in_bounds_deref (p : option A) : bits_in_bounds (deref p).
Proof. destruct p; [apply in_bounds_ok|apply in_bounds_null]. Qed.

End InBounds.

Lemma in_bounds_strcmp a b : bits_in_bounds (strcmp_eq a b).
Proof. destruct a, b; (apply in_bounds_ok || apply in_bounds_null). Qed.

Lemma in_bounds_for_loop {S} (I : S -> Prop) (body : Z -> S -> outcome S) n lo s :
  I s ->
  (forall i s, lo <= i < lo + Z.of_nat n -> I s ->
               bits_in_bounds (body i s) /\ forall s', body i s = Ok s' -> I s') ->
  bits_in_bounds (for_loop n lo body s).
Proof.
  intros Hs Hbody. apply (for_loop_outcome I bits_in_bounds); [done| |done].
  intros s'. apply in_bounds_ok.
Qed.

Lemma resolve_signal_in_bounds g i :
  wf_globals g -> 0 <= i < MAX_BOUNDARY_BITS -> bits_in_bounds (resolve_signal g i).
Proof.
  intros [_ _ _ _ Hp] Hi. unfold MAX_BOUNDARY_BITS in *.
  apply (in_bounds_for_loop (fun _ => True)); [done|]. intros j s Hj _.
  split; [|done].
  apply in_bounds_bind; [by apply in_bounds_load|]. intros pin _.
  apply in_bounds_bind; [apply in_bounds_load; lia|]. intros bit_pin _.
  apply in_bounds_bind; [apply in_bounds_strcmp|]. intros [|] _.
  - by apply in_bounds_load.
  - apply in_bounds_ok.
Qed.

Lemma resolve_bit_in_bounds g sens i st :
  wf_globals g -> wf_locals (fst st) -> 0 <= i < MAX_BOUNDARY_BITS ->
  bits_in_bounds (resolve_bit g sens i st)
  /\ forall st', resolve_bit g sens i st = Ok st' -> wf_locals (fst st').
Proof.
  intros Hg Hl Hi. destruct st as [l out]. destruct Hl as [Hn Hig Hs]. simpl in *.
  pose proof (resolve_signal_in_bounds g i Hg Hi) as Hres.
  destruct Hg as [_ _ Ht _ _]. unfold MAX_BOUNDARY_BITS in *.
  unfold resolve_bit.
  destruct (resolve_signal g i) as [s| |]; cbn [mbind outcome_bind];
    [clear Hres|split; [intros w k Hf; apply (Hres w k); congruence|done]..].
  rewrite store_ok by lia. cbn [mbind outcome_bind].
  destruct s as [s|]; cbn [strcmp_eq mbind outcome_bind];
    [|split; [apply in_bounds_null|done]].
  rewrite store_ok by lia. cbn [mbind outcome_bind].
  destruct (load_in_range BoundaryBitType (boundary_bit_type g) i) as [type Hty]; [lia|].
  assert (forall ign (out' : list event),
            length ign = length (bbit_ignore l) ->
            let o := type ← load BoundaryBitType (boundary_bit_type g) i;
                     is_input ← strcmp_eq type (Some (str "input"));
                     show ← store BbitShow (bbit_show l) i (if is_input : bool then 1 else 0);
                     Ok ({| bbit_names := <[Z.to_nat i := Some s]> (bbit_names l);
                            bbit_ignore := ign; bbit_show := show |}, out') in
            bits_in_bounds o
            /\ forall st', o = Ok st' -> wf_locals (fst st')) as Htail.
  { intros ign out' Hign. rewrite Hty. cbn [mbind outcome_bind].
    destruct type as [type|]; cbn [strcmp_eq mbind outcome_bind];
      [|split; [apply in_bounds_null|done]].
    rewrite store_ok by lia. cbn [mbind outcome_bind].
    split; [apply in_bounds_ok|]. intros st' [= <-].
    split; simpl; rewrite ?length_insert; unfold MAX_BOUNDARY_BITS; congruence. }
  destruct sens as [sens|]; cbn [deref mbind outcome_bind].
  - destruct (strcasestr sens s); rewrite store_ok by (rewrite length_insert; lia);
      cbn [mbind outcome_bind]; apply Htail; by rewrite !length_insert.
  - apply Htail. by rewrite length_insert.
Qed.

Lemma build_resolver_in_bounds g sens l out :
  wf_globals g -> wf_locals l -> boundary_bit_count g <= MAX_BOUNDARY_BITS ->
  bits_in_bounds (build_resolver g sens l out).
Proof.
  intros Hg Hl Hcount. unfold build_resolver, for_range.
  apply (in_bounds_for_loop (fun st => wf_locals (fst st))); [done|].
  intros i st Hi Hst. apply resolve_bit_in_bounds; [done..|lia].
Qed.

Lemma report_bit_in_bounds g l sens m rdata t i st :
  wf_globals g -> wf_locals l ->
  (1024 <= length rdata)%nat -> length (last_rdata m) = 1024%nat ->
  0 <= i < MAX_BOUNDARY_BITS ->
  bits_in_bounds (report_bit g l sens m rdata t i st).
Proof.
  intros [_ _ _ Hf Hp] [Hn Hig Hs] Hr Hl Hi. unfold MAX_BOUNDARY_BITS in *.
  assert (0 <= Z.shiftr i 3 < 1024) as Hbyte.
  { rewrite Z.shiftr_div_pow2 by lia. change (2 ^ 3) with 8.
    split; [apply Z.div_pos; lia|apply Z.div_lt_upper_bound; lia]. }
  destruct st as [cs out]. unfold report_bit.
  apply in_bounds_bind; [apply in_bounds_load; lia|]. intros cur _.
  apply in_bounds_bind; [apply in_bounds_load; lia|]. intros prev _.
  apply in_bounds_bind; [apply in_bounds_load; lia|]. intros show _.
  destruct (show =? 0); [apply in_bounds_ok|].
  destruct (_ || _); [|apply in_bounds_ok].
  apply in_bounds_bind.
  { destruct (_ && _); [apply in_bounds_ok|].
    apply in_bounds_bind; [apply in_bounds_load; lia|]. intros. apply in_bounds_ok. }
  intros [|] _; [|apply in_bounds_ok].
  apply in_bounds_bind.
  { apply in_bounds_bind; [apply in_bounds_load; lia|]. intros. apply in_bounds_deref. }
  intros fullname _. apply in_bounds_bind.
  { apply in_bounds_bind; [apply in_bounds_load; lia|]. intros. apply in_bounds_deref. }
  intros pin _. apply in_bounds_bind.
  { apply in_bounds_bind; [apply in_bounds_load; lia|]. intros. apply in_bounds_deref. }
  intros signal _. apply in_bounds_ok.
Qed.

Lemma read_bytes_in_bounds rdata n :
  (n <= length rdata)%nat -> bits_in_bounds (read_bytes rdata n).
Proof.
  intros Hn. unfold read_bytes. destruct (decide _); [|lia]. apply in_bounds_ok.
Qed.

Lemma scan_iteration_in_bounds g l bsdl sens t rdata m :
  wf_globals g -> wf_locals l ->
  (1024 <= length rdata)%nat -> length (last_rdata m) = 1024%nat ->
  boundary_bit_count g <= MAX_BOUNDARY_BITS ->
  bits_in_bounds (scan_iteration g l bsdl sens (t, rdata) m).
Proof.
  intros Hg Hl Hr Hlast Hcount. unfold scan_iteration.
  apply in_bounds_bind.
  - destruct bsdl as [bsdl|].
    + apply in_bounds_bind.
      * unfold for_range. apply (in_bounds_for_loop (fun _ => True)); [done|].
        intros i st Hi _. split; [|done].
        apply report_bit_in_bounds; [done..|lia].
      * intros [cs out] _. apply in_bounds_ok.
    + apply in_bounds_bind; [apply read_bytes_in_bounds; lia|].
      intros. apply in_bounds_ok.
  - intros out _. apply in_bounds_bind; [by apply read_bytes_in_bounds|].
    intros. apply in_bounds_ok.
Qed.

(** Past the end of the arrays a turn of either loop cannot return. *)
Lemma resolve_bit_past_end g sens i st :
  wf_globals g -> MAX_BOUNDARY_BITS <= i -> forall r, resolve_bit g sens i st <> Ok r.
Proof.
  intros [_ _ Ht _ _] Hi r. destruct st as [l out]. unfold resolve_bit.
  destruct (resolve_signal g i) as [s| |]; cbn [mbind outcome_bind]; [|done..].
  destruct (store BbitNames _ _ _) as [names| |]; cbn [mbind outcome_bind]; [|done..].
  destruct (strcmp_eq _ s) as [is_clk| |]; cbn [mbind outcome_bind]; [|done..].
  destruct (store BbitIgnore _ _ _) as [ignore| |]; cbn [mbind outcome_bind]; [|done..].
  destruct (match sens with Some _ => _ | None => _ end) as [[ignore' out']| |];
    cbn [mbind outcome_bind]; [|done..].
  rewrite (load_oob BoundaryBitType); [done|].
  rewrite Ht. unfold MAX_BOUNDARY_BITS in *. lia.
Qed.

Lemma report_bit_past_end g l sens m rdata t i st :
  length (last_rdata m) = 1024%nat -> MAX_BOUNDARY_BITS <= i ->
  forall r, report_bit g l sens m rdata t i st <> Ok r.
Proof.
  intros Hl Hi r. destruct st as [cs out]. unfold report_bit, MAX_BOUNDARY_BITS in *.
  destruct (load Rdata _ _) as [cur| |]; cbn [mbind outcome_bind]; [|done..].
  rewrite (load_oob LastRdata); [by cbn [mbind outcome_bind]|].
  rewrite Hl, Z.shiftr_div_pow2 by lia.
  change (2 ^ 3) with 8. change (Z.of_nat 1024) with 1024.
  apply Z.div_le_lower_bound; lia.
Qed.

(** ** The monitor loop *)

(** C6: with no layout file ([bsdl] null) every turn of the monitor loop
    prints the raw dump of the first 256 captured bytes and nothing else,
    whatever the bit tables and [boundary_bit_count] hold: the per-bit loop
    is not run. *)
Theorem raw_dump_without_layout g l sensitivity captures m :
  Forall (fun c : Z * list byte => (1024 <= length (snd c))%nat) captures ->
  exists m',
    monitor_loop g l None sensitivity captures m = Ok (m', raw_dump <$> captures).
Proof.
  intros Hlen. revert m. induction Hlen as [|[t rdata] captures Hc _ IH]; intros m.
  - by exists m.
  - simpl in Hc. cbn [monitor_loop scan_iteration].
    unfold read_bytes.
    destruct (decide (256 <= length rdata)%nat); [|lia].
    destruct (decide (1024 <= length rdata)%nat); [|lia].
    cbn [mbind outcome_bind].
    destruct (IH {| last_rdata := take 1024 rdata; first_time := 0 |}) as [m' ->].
    by exists m'.
Qed.

Lemma raw_dump_without_layout_witness :
  exists m',
    monitor_loop initial_globals (Locals [] [] []) None (Some (str "CLK"))
      [(5, replicate 1024 Byte.x05); (9, replicate 1024 Byte.x04)] (Monitor [] 1)
    = Ok (m', raw_dump <$> [(5, replicate 1024 Byte.x05); (9, replicate 1024 Byte.x04)]).
Proof.
  apply raw_dump_without_layout.
  repeat constructor; vm_compute; lia.
Defined.

(** The dump goes with the file argument, not with the header: a layout
    file without a header line leaves [boundary_bit_count] at 0, and a turn
    then prints nothing. *)
Lemma no_header_no_dump g l bsdl sens t rdata m :
  boundary_bit_count g <= 0 -> (1024 <= length rdata)%nat ->
  scan_iteration g l (Some bsdl) sens (t, rdata) m
  = Ok ({| last_rdata := take 1024 rdata; first_time := 0 |}, []).
Proof.
  intros Hcount Hr. unfold scan_iteration, for_range.
  replace (Z.to_nat (boundary_bit_count g - 0)) with 0%nat by lia.
  cbn [for_loop mbind outcome_bind]. unfold read_bytes.
  by destruct (decide (1024 <= length rdata)%nat); [|lia].
Qed.

Lemma bit_of_testbit x i : bit_of x i = Z.b2z (Z.testbit x (i mod 8)).
Proof.
  unfold bit_of.
  change 7 with (Z.ones 3). rewrite Z.land_ones by lia. change (2 ^ 3) with 8.
  change 1 with (Z.ones 1) at 1. rewrite Z.land_ones by lia. change (2 ^ 1) with 2.
  rewrite <- Z.bit0_mod, Z.shiftr_spec by lia. f_equal.
Qed.

(** Reading the byte as a signed [char] does not change its low bits. *)
Lemma schar_testbit b k : 0 <= k < 8 -> Z.testbit (schar b) k = Z.testbit (uint8 b) k.
Proof.
  intros Hk. unfold schar. destruct (uint8 b <? 128); [done|].
  rewrite <- (Z.mod_pow2_bits_low (uint8 b - 256) 8 k) by lia.
  rewrite <- (Z.mod_pow2_bits_low (uint8 b) 8 k) by lia.
  f_equal. change (2 ^ 8) with 256.
  replace (uint8 b - 256) with (uint8 b + (-1) * 256) by lia.
  apply Z.mod_add. lia.
Qed.

Lemma bit_of_schar b i : bit_of (schar b) i = bit_of (uint8 b) i.
Proof.
  rewrite !bit_of_testbit. f_equal. apply schar_testbit.
  apply Z.mod_pos_bound. lia.
Qed.

Lemma b2z_eqb a b : (Z.b2z a =? Z.b2z b) = eqb a b.
Proof. by destruct a, b. Qed.

Lemma load_named w arr i :
  0 <= i -> named arr i -> load w arr i ≫= deref = Ok (name_at arr i).
Proof.
  intros Hi [s Hs]. unfold name_at. rewrite Hs. simpl.
  by rewrite (load_ok w arr i (Some s)).
Qed.

(** One bit of the loop: the state moves on by the line of the bit when
    the display predicate holds, and stays otherwise. *)
Lemma report_bit_spec g l sens m rdata t i cs out :
  0 <= i < MAX_BOUNDARY_BITS -> wf_locals l ->
  (1024 <= length rdata)%nat -> length (last_rdata m) = 1024%nat ->
  (show_flag l i = true ->
   named (boundary_bit_fullname g) i /\ named (boundary_bit_pin g) i
   /\ named (bbit_names l) i) ->
  report_bit g l sens m rdata t i (cs, out)
  = Ok (if display_predicate l sens m rdata i
        then (cs + 1, (if cs =? 0 then out ++ [SignalsChanged t] else out)
                        ++ [report_line g l rdata i])
        else (cs, out)).
Proof.
  intros Hi [Hn Hg Hs] Hr Hl Hnamed.
  unfold MAX_BOUNDARY_BITS in *.
  assert (0 <= i / 8 < 1024) as Hbyte.
  { split; [apply Z.div_pos; lia|apply Z.div_lt_upper_bound; lia]. }
  destruct (lookup_lt_is_Some_2 rdata (Z.to_nat (i / 8))) as [cur Hcur]; [lia|].
  destruct (lookup_lt_is_Some_2 (last_rdata m) (Z.to_nat (i / 8))) as [prev Hprev]; [lia|].
  destruct (lookup_lt_is_Some_2 (bbit_show l) (Z.to_nat i)) as [show Hshow]; [lia|].
  destruct (lookup_lt_is_Some_2 (bbit_ignore l) (Z.to_nat i)) as [ign Hign]; [lia|].
  unfold report_bit, display_predicate, show_flag, ignore_flag, capture_bit, report_line,
    capture_bit in *.
  rewrite Z.shiftr_div_pow2 by lia. change (2 ^ 3) with 8.
  rewrite (load_ok Rdata rdata _ cur), (load_ok LastRdata _ _ prev),
    (load_ok BbitShow _ _ show) by (done || lia).
  cbn [mbind outcome_bind].
  rewrite Hcur, Hprev, Hshow, Hign in *.
  rewrite bit_of_schar, !bit_of_testbit, b2z_eqb.
  destruct (show =? 0); [done|]. cbn [negb andb].
  destruct Hnamed as (Hf & Hp & Hnm); [done|].
  destruct (first_time m =? 0); cbn [negb orb andb].
  - destruct (Z.testbit (uint8 prev) _), (Z.testbit (uint8 cur) _); cbn [eqb negb];
      rewrite ?andb_false_r, ?andb_true_r; try done.
    all: rewrite (load_ok BbitIgnore _ _ ign) by (done || lia); cbn [mbind outcome_bind].
    all: destruct (ign =? 0); cbn [negb]; [|done].
    all: rewrite !load_named by (done || lia); done.
  - destruct (bool_decide (sens = None)); cbn [orb].
    + rewrite !load_named by (done || lia). done.
    + rewrite (load_ok BbitIgnore _ _ ign) by (done || lia). cbn [mbind outcome_bind].
      destruct (ign =? 0); cbn [negb]; [|done].
      rewrite !load_named by (done || lia). done.
Qed.

Lemma displayed_snoc l sens m rdata i :
  0 <= i ->
  displayed l sens m rdata (i + 1)
  = displayed l sens m rdata i
      ++ (if display_predicate l sens m rdata i then [i] else []).
Proof.
  intros Hi. unfold displayed.
  rewrite seqZ_app by lia. rewrite filter_app. f_equal. rewrite Z.add_0_l.
  rewrite seqZ_cons, seqZ_nil by lia. simpl.
  destruct (display_predicate l sens m rdata i) eqn:E.
  - rewrite filter_cons_True; [done|]. cbv beta. by rewrite E.
  - rewrite filter_cons_False; [done|]. cbv beta. rewrite E. by intros [].
Qed.

Lemma displayed_elem l sens m rdata n i :
  i ∈ displayed l sens m rdata n
  <-> display_predicate l sens m rdata i = true /\ 0 <= i < n.
Proof.
  unfold displayed. rewrite list_elem_of_filter, elem_of_seqZ, Is_true_true, Z.add_0_l. done.
Qed.

(** The first [n] turns of the loop over the bits print the lines of the
    displayed bits among them. *)
Lemma report_loop_prefix g l sens m rdata t n :
  Z.of_nat n <= MAX_BOUNDARY_BITS -> wf_locals l ->
  (1024 <= length rdata)%nat -> length (last_rdata m) = 1024%nat ->
  shown_bits_named g l (Z.of_nat n) ->
  exists count_shown,
    for_loop n 0 (report_bit g l sens m rdata t) (0, [])
    = Ok (count_shown, lines_below g l sens m (t, rdata) (Z.of_nat n)).
Proof.
  intros Hcount Hwf Hr Hl Hnamed.
  destruct (for_loop_inv
              (fun k (st : Z * list event) =>
                 fst st = Z.of_nat (length (displayed l sens m rdata k))
                 /\ snd st = lines_below g l sens m (t, rdata) k)
              (report_bit g l sens m rdata t) n 0 (0, []))
    as ([cs out] & Hloop & _ & Hout).
  - done.
  - intros i [cs out] Hi [Hcs Hout]. simpl in Hcs, Hout.
    rewrite report_bit_spec; [|lia|done..|apply Hnamed; lia].
    eexists. split; [done|].
    unfold lines_below. cbn [fst snd]. rewrite displayed_snoc by lia.
    destruct (display_predicate l sens m rdata i); simpl.
    + rewrite length_app. simpl. split; [lia|].
      subst cs out. unfold lines_below. cbn [fst snd].
      destruct (displayed l sens m rdata i) as [|j shown]; simpl; [done|].
      by rewrite fmap_app.
    + by rewrite app_nil_r.
  - exists cs. rewrite Hloop. simpl in Hout. by rewrite Hout, Z.add_0_l.
Qed.

(** The loop over the bits prints the lines of the displayed bits. *)
Lemma report_loop_spec g l sens m rdata t :
  boundary_bit_count g <= MAX_BOUNDARY_BITS -> wf_locals l ->
  (1024 <= length rdata)%nat -> length (last_rdata m) = 1024%nat ->
  shown_bits_named g l (boundary_bit_count g) ->
  exists count_shown,
    for_range 0 (boundary_bit_count g) (report_bit g l sens m rdata t) (0, [])
    = Ok (count_shown, turn_output g l sens m (t, rdata)).
Proof.
  intros Hcount Hwf Hr Hl Hnamed.
  destruct (report_loop_prefix g l sens m rdata t (Z.to_nat (boundary_bit_count g - 0)))
    as [cs Hloop]; [unfold MAX_BOUNDARY_BITS in *; lia|done..| |].
  - intros i Hi. apply Hnamed. lia.
  - exists cs. unfold for_range. rewrite Hloop. do 2 f_equal.
    unfold turn_output, lines_below. cbn [fst snd].
    destruct (Z.le_gt_cases 0 (boundary_bit_count g)).
    + by replace (Z.of_nat (Z.to_nat (boundary_bit_count g - 0)))
        with (boundary_bit_count g) by lia.
    + replace (Z.of_nat (Z.to_nat (boundary_bit_count g - 0))) with 0 by lia.
      unfold displayed. by rewrite (seqZ_nil 0 (boundary_bit_count g)) by lia.
Qed.

Lemma scan_iteration_spec g l bsdl sens m t rdata :
  boundary_bit_count g <= MAX_BOUNDARY_BITS -> wf_locals l ->
  (1024 <= length rdata)%nat -> length (last_rdata m) = 1024%nat ->
  shown_bits_named g l (boundary_bit_count g) ->
  scan_iteration g l (Some bsdl) sens (t, rdata) m
  = Ok ({| last_rdata := take 1024 rdata; first_time := 0 |},
        turn_output g l sens m (t, rdata)).
Proof.
  intros Hcount Hwf Hr Hl Hnamed.
  destruct (report_loop_spec g l sens m rdata t) as [cs Hloop]; [done..|].
  unfold scan_iteration. rewrite Hloop. cbn [mbind outcome_bind].
  unfold read_bytes. by destruct (decide (1024 <= length rdata)%nat); [|lia].
Qed.

Lemma capture_bit_take rdata i :
  0 <= i < MAX_BOUNDARY_BITS ->
  capture_bit (take 1024 rdata) i = capture_bit rdata i.
Proof.
  intros Hi. unfold capture_bit, MAX_BOUNDARY_BITS in *.
  rewrite lookup_take_lt; [done|].
  assert (i / 8 < 1024) by (apply Z.div_lt_upper_bound; lia).
  assert (0 <= i / 8) by (apply Z.div_pos; lia). lia.
Qed.

(** C1: with a layout file, one turn of the monitor prints a report line
    for bit [i] below [boundary_bit_count] exactly when the display
    predicate holds of [i]: show, and (first turn without sensitivity
    string, or not ignored), and (first turn, or the bit differs from the
    previous capture).  So on the first turn every shown bit that is not
    filtered out is reported whatever the previous snapshot holds, and a
    capture equal to the one before it prints nothing. *)
Theorem report_iff_display_predicate g l bsdl sens m t rdata :
  boundary_bit_count g <= MAX_BOUNDARY_BITS -> wf_locals l ->
  (1024 <= length rdata)%nat -> length (last_rdata m) = 1024%nat ->
  shown_bits_named g l (boundary_bit_count g) ->
  exists m' out,
    scan_iteration g l (Some bsdl) sens (t, rdata) m = Ok (m', out)
    /\ (forall i, 0 <= i < boundary_bit_count g ->
          (exists e, e ∈ out /\ is_report i e)
          <-> display_predicate l sens m rdata i = true)
    /\ (first_time m <> 0 ->
        forall i, 0 <= i < boundary_bit_count g ->
          show_flag l i = true -> sens = None \/ ignore_flag l i = false ->
          report_line g l rdata i ∈ out)
    /\ (forall t', scan_iteration g l (Some bsdl) sens (t', rdata) m' = Ok (m', [])).
Proof.
  intros Hcount Hwf Hr Hl Hnamed.
  exists {| last_rdata := take 1024 rdata; first_time := 0 |},
    (turn_output g l sens m (t, rdata)).
  split; [by apply scan_iteration_spec|].
  assert (forall i, 0 <= i < boundary_bit_count g ->
            display_predicate l sens m rdata i = true ->
            report_line g l rdata i ∈ turn_output g l sens m (t, rdata)) as Hin.
  { intros i Hi Hd. unfold turn_output, lines_below. simpl.
    assert (i ∈ displayed l sens m rdata (boundary_bit_count g)) as Hi'
      by by apply displayed_elem.
    destruct (displayed l sens m rdata (boundary_bit_count g)) as [|j shown] eqn:E.
    - by apply elem_of_nil in Hi'.
    - apply list_elem_of_further.
      exact (list_elem_of_fmap_2 (report_line g l rdata) _ _ Hi'). }
  split; [|split].
  - intros i Hi. split.
    + intros (e & He & Hrep). unfold turn_output, lines_below in He. simpl in He.
      destruct (displayed l sens m rdata (boundary_bit_count g)) as [|j shown] eqn:E;
        [by apply elem_of_nil in He|].
      apply elem_of_cons in He as [->|He]; [done|].
      change (e ∈ report_line g l rdata <$> (j :: shown)) in He.
      apply list_elem_of_fmap in He as (k & -> & Hk). simpl in Hrep. subst k.
      rewrite <- E in Hk. by apply displayed_elem in Hk as [? _].
    + intros Hd. exists (report_line g l rdata i). split; [by apply Hin|done].
  - intros Hfirst i Hi Hshow Hsel. apply Hin; [done|].
    unfold display_predicate. rewrite Hshow.
    destruct (Z.eqb_spec (first_time m) 0); [done|]. cbn [negb andb orb].
    destruct Hsel as [-> | ->]; [done|]. cbn [negb]. by rewrite orb_true_r.
  - intros t'. rewrite scan_iteration_spec;
      [|done|done|done|simpl; rewrite length_take; lia|done].
    do 2 f_equal. unfold turn_output, lines_below. simpl.
    destruct (displayed _ _ _ _ _) as [|j shown] eqn:E; [done|].
    assert (j ∈ j :: shown) as Hj by left. rewrite <- E in Hj.
    apply displayed_elem in Hj as [Hd Hj]. unfold display_predicate in Hd. simpl in Hd.
    rewrite capture_bit_take, eqb_reflx in Hd by lia.
    by rewrite andb_false_r in Hd.
Qed.

Lemma sample_locals_wf : wf_locals (snd (sample_loaded "pins.xdc")).
Proof. split; vm_compute; reflexivity. Qed.

Lemma sample_shown_named :
  shown_bits_named (fst (sample_loaded "pins.xdc"))
    (snd (sample_loaded "pins.xdc")) 4.
Proof.
  intros i Hi _.
  assert (i = 0 \/ i = 1 \/ i = 2 \/ i = 3) as [->|[->|[->| ->]]] by lia;
    (split; [|split]); eexists; vm_compute; reflexivity.
Qed.

(** On the first turn bit 0 of the sample is reported although the capture
    equals the previous snapshot; the same capture again prints nothing. *)
Lemma report_iff_display_predicate_witness :
  exists m' out,
    scan_iteration (fst (sample_loaded "pins.xdc"))
      (snd (sample_loaded "pins.xdc")) (Some (str "part.bsdl")) None
      (5, sample_rdata) sample_monitor = Ok (m', out)
    /\ report_line (fst (sample_loaded "pins.xdc"))
         (snd (sample_loaded "pins.xdc")) sample_rdata 0 ∈ out
    /\ forall t',
         scan_iteration (fst (sample_loaded "pins.xdc"))
           (snd (sample_loaded "pins.xdc")) (Some (str "part.bsdl")) None
           (t', sample_rdata) m' = Ok (m', []).
Proof.
  destruct (report_iff_display_predicate (fst (sample_loaded "pins.xdc"))
              (snd (sample_loaded "pins.xdc")) (str "part.bsdl") None
              sample_monitor 5 sample_rdata)
    as (m' & out & Hturn & _ & Hfirst & Hagain).
  - rewrite sample_count. unfold MAX_BOUNDARY_BITS. lia.
  - apply sample_locals_wf.
  - vm_compute. lia.
  - vm_compute. reflexivity.
  - rewrite sample_count. apply sample_shown_named.
  - exists m', out. split; [exact Hturn|]. split; [|exact Hagain].
    apply Hfirst.
    + cbn [sample_monitor first_time]. lia.
    + rewrite sample_count. lia.
    + vm_compute. reflexivity.
    + left. reflexivity.
Defined.

(** ** More bits declared than the arrays hold *)

(** With more bits declared than the arrays hold, and tables ready as far
    as they go, the resolver loop runs off their end. *)
Lemma build_resolver_overrun g records sens l out :
  tables_ready g records MAX_BOUNDARY_BITS -> wf_locals l ->
  MAX_BOUNDARY_BITS < boundary_bit_count g ->
  exists w, per_bit w = true
    /\ build_resolver g sens l out = Fault (OutOfBounds w MAX_BOUNDARY_BITS).
Proof.
  intros Hready Hl Hcount. unfold build_resolver, for_range.
  destruct (resolver_loop_spec g records sens l out (Z.to_nat MAX_BOUNDARY_BITS))
    as (l' & out' & Hloop & [Hn _ _] & _).
  { by rewrite Z2Nat.id by (unfold MAX_BOUNDARY_BITS; lia). }
  { rewrite Z2Nat.id by (unfold MAX_BOUNDARY_BITS; lia). lia. }
  { done. }
  replace (Z.to_nat (boundary_bit_count g - 0))
    with (Z.to_nat MAX_BOUNDARY_BITS
          + Datatypes.S (Z.to_nat (boundary_bit_count g - MAX_BOUNDARY_BITS - 1)))%nat
    by (unfold MAX_BOUNDARY_BITS in *; lia).
  rewrite for_loop_split, Hloop. cbn [mbind outcome_bind].
  rewrite for_loop_S, Z.add_0_l, Z2Nat.id by (unfold MAX_BOUNDARY_BITS; lia).
  destruct Hready as [[Hpn _ _ _ Hbp] [Hpc Hrec] _].
  unfold resolve_bit.
  destruct records as [|r records].
  - rewrite resolve_signal_no_pins by (rewrite Hpc; simpl; lia).
    cbn [mbind outcome_bind].
    rewrite store_oob by (rewrite Hn; unfold MAX_BOUNDARY_BITS; lia).
    by exists BbitNames.
  - assert (resolve_signal g MAX_BOUNDARY_BITS
            = Fault (OutOfBounds BoundaryBitPin MAX_BOUNDARY_BITS)) as ->.
    { unfold resolve_signal, for_range.
      replace (Z.to_nat (pin_count g - 0)) with (Datatypes.S (length records))
        by (rewrite Hpc; simpl; lia).
      rewrite for_loop_S.
      destruct (Hrec 0%nat r eq_refl) as [Hp _].
      rewrite (load_ok PinNames _ 0 _ ltac:(lia) Hp). cbn [mbind outcome_bind].
      rewrite (load_oob BoundaryBitPin) by (rewrite Hbp; unfold MAX_BOUNDARY_BITS; lia).
      done. }
    by exists BoundaryBitPin.
Qed.

(** Likewise the loop over the bits of a capture runs off the end of the
    snapshot buffers. *)
Lemma scan_iteration_overrun g l bsdl sens t rdata m :
  wf_locals l -> (1024 <= length rdata)%nat -> length (last_rdata m) = 1024%nat ->
  shown_bits_named g l MAX_BOUNDARY_BITS ->
  MAX_BOUNDARY_BITS < boundary_bit_count g ->
  exists w, per_bit w = true
    /\ scan_iteration g l (Some bsdl) sens (t, rdata) m = Fault (OutOfBounds w 1024).
Proof.
  intros Hl Hr Hlast Hnamed Hcount. unfold scan_iteration, for_range.
  destruct (report_loop_prefix g l sens m rdata t (Z.to_nat MAX_BOUNDARY_BITS))
    as (cs & Hloop).
  { rewrite Z2Nat.id by (unfold MAX_BOUNDARY_BITS; lia). lia. }
  { done. } { done. } { done. }
  { by rewrite Z2Nat.id by (unfold MAX_BOUNDARY_BITS; lia). }
  replace (Z.to_nat (boundary_bit_count g - 0))
    with (Z.to_nat MAX_BOUNDARY_BITS
          + Datatypes.S (Z.to_nat (boundary_bit_count g - MAX_BOUNDARY_BITS - 1)))%nat
    by (unfold MAX_BOUNDARY_BITS in *; lia).
  rewrite for_loop_split, Hloop. cbn [mbind outcome_bind].
  rewrite for_loop_S, Z.add_0_l, Z2Nat.id by (unfold MAX_BOUNDARY_BITS; lia).
  unfold report_bit.
  change (Z.shiftr MAX_BOUNDARY_BITS 3) with 1024.
  destruct (decide (length rdata = 1024%nat)) as [Heq|Hne].
  - rewrite (load_oob Rdata) by lia. by exists Rdata.
  - destruct (load_in_range Rdata rdata 1024) as [cur ->]; [lia|].
    cbn [mbind outcome_bind]. rewrite (load_oob LastRdata) by lia.
    by exists LastRdata.
Qed.

(** C9: [boundary_bit_count] is whatever the header line converts to, and
    both loops over the bits run up to it.  When it is at most
    MAX_BOUNDARY_BITS no access leaves the per-bit arrays or the capture
    buffers; when it is larger neither loop can return, and on tables that
    hold a record for every index the first access past the end is at bit
    8192 (byte 1024 of the buffers). *)
Theorem boundary_bit_count_unchecked :
  (forall g line p c,
     sscanf line header_format = (2, [VStr p; VInt c]) ->
     boundary_bit_count (fst (scan_header g line)) = c)
  /\ (forall g sens l out bsdl t rdata m,
        wf_globals g -> wf_locals l ->
        (1024 <= length rdata)%nat -> length (last_rdata m) = 1024%nat ->
        boundary_bit_count g <= MAX_BOUNDARY_BITS ->
        bits_in_bounds (build_resolver g sens l out)
        /\ bits_in_bounds (scan_iteration g l bsdl sens (t, rdata) m))
  /\ (forall g sens l out bsdl t rdata m,
        wf_globals g -> length (last_rdata m) = 1024%nat ->
        MAX_BOUNDARY_BITS < boundary_bit_count g ->
        (forall r, build_resolver g sens l out <> Ok r)
        /\ (forall r, scan_iteration g l (Some bsdl) sens (t, rdata) m <> Ok r))
  /\ (forall g records sens l out,
        tables_ready g records MAX_BOUNDARY_BITS -> wf_locals l ->
        MAX_BOUNDARY_BITS < boundary_bit_count g ->
        exists w, per_bit w = true
          /\ build_resolver g sens l out = Fault (OutOfBounds w MAX_BOUNDARY_BITS))
  /\ (forall g l bsdl sens t rdata m,
        wf_locals l -> (1024 <= length rdata)%nat ->
        length (last_rdata m) = 1024%nat ->
        shown_bits_named g l MAX_BOUNDARY_BITS ->
        MAX_BOUNDARY_BITS < boundary_bit_count g ->
        exists w, per_bit w = true
          /\ scan_iteration g l (Some bsdl) sens (t, rdata) m
             = Fault (OutOfBounds w 1024)).
Proof.
  split; [|split; [|split; [|split]]].
  - intros g line p c Hscan. unfold scan_header. by rewrite Hscan.
  - intros. split; [by apply build_resolver_in_bounds|by apply scan_iteration_in_bounds].
  - intros g sens l out bsdl t rdata m Hg Hlast Hcount. split.
    + unfold build_resolver, for_range.
      apply (for_loop_stuck _ _ 0 (Z.to_nat MAX_BOUNDARY_BITS));
        [unfold MAX_BOUNDARY_BITS in *; lia|].
      intros st r. apply resolve_bit_past_end; [done|].
      unfold MAX_BOUNDARY_BITS. lia.
    + intros r. unfold scan_iteration, for_range.
      destruct (for_loop _ _ _ _) as [[cs out']| |] eqn:E;
        cbn [mbind outcome_bind]; [|done..].
      exfalso. revert E.
      apply (for_loop_stuck _ _ 0 (Z.to_nat MAX_BOUNDARY_BITS));
        [unfold MAX_BOUNDARY_BITS in *; lia|].
      intros st r'. apply report_bit_past_end; [done|].
      unfold MAX_BOUNDARY_BITS. lia.
  - apply build_resolver_overrun.
  - apply scan_iteration_overrun.
Qed.

Lemma full_globals_ready : tables_ready full_globals [] MAX_BOUNDARY_BITS.
Proof.
  split.
  - split; cbn; by rewrite length_replicate.
  - split; [done|]. by intros j r.
  - intros i Hi. unfold named. cbn.
    (split; [|split]); exists (str "input"); apply lookup_replicate_2;
      unfold MAX_BOUNDARY_BITS in *; lia.
Qed.

(** A header declaring 9000 bits is taken as it is, and the resolver loop
    then runs off the end of the arrays. *)
Lemma boundary_bit_count_unchecked_witness :
  boundary_bit_count (fst (scan_header initial_globals large_header)) = 9000
  /\ exists w, per_bit w = true
       /\ build_resolver full_globals None stack_locals []
          = Fault (OutOfBounds w MAX_BOUNDARY_BITS).
Proof.
  destruct boundary_bit_count_unchecked as (Hheader & _ & _ & Hbuild & _).
  split.
  - apply (Hheader _ _ (str "XC7A100T_CSG324")). vm_compute. reflexivity.
  - apply (Hbuild _ []).
    + apply full_globals_ready.
    + apply stack_locals_wf.
    + unfold MAX_BOUNDARY_BITS. cbn. lia.
Defined.

(** ** The load phase as a whole *)

(** A turn of the resolver loop that returns was for a bit inside the
    arrays, with a resolved signal and a stored type. *)
Lemma resolve_bit_ok g sens i l out st :
  wf_locals l -> resolve_bit g sens i (l, out) = Ok st ->
  0 <= i < MAX_BOUNDARY_BITS
  /\ exists s type,
       resolve_signal g i = Ok (Some s)
       /\ boundary_bit_type g !! Z.to_nat i = Some (Some type).
Proof.
  intros [Hn Hig Hs]. unfold resolve_bit.
  destruct (resolve_signal g i) as [s| |]; cbn [mbind outcome_bind]; [|done..].
  destruct (store BbitNames _ _ _) as [names| |] eqn:Hst; cbn [mbind outcome_bind];
    [|done..].
  assert (0 <= i < MAX_BOUNDARY_BITS) as Hi.
  { unfold store in Hst.
    destruct (Z.leb_spec 0 i), (Z.ltb_spec i (Z.of_nat (length (bbit_names l))));
      cbn [andb] in Hst; try done.
    rewrite Hn in *. unfold MAX_BOUNDARY_BITS in *. lia. }
  destruct s as [s|]; [|done]. cbn [strcmp_eq mbind outcome_bind].
  destruct (store BbitIgnore _ _ _) as [ignore| |]; cbn [mbind outcome_bind]; [|done..].
  destruct (match sens with Some _ => _ | None => _ end) as [[ignore' out']| |];
    cbn [mbind outcome_bind]; [|done..].
  destruct (load BoundaryBitType _ _) as [[type|]| |] eqn:Hty;
    cbn [mbind outcome_bind strcmp_eq]; [|done..].
  intros _. split; [done|]. exists s, type. split; [done|].
  by apply load_inv in Hty as [_ ?].
Qed.

(** What a resolver loop that returns has established. *)
Lemma build_resolver_ok g sens l out l' out' :
  wf_globals g -> wf_locals l ->
  build_resolver g sens l out = Ok (l', out') ->
  boundary_bit_count g <= MAX_BOUNDARY_BITS
  /\ wf_locals l'
  /\ forall i, 0 <= i < boundary_bit_count g ->
       named (boundary_bit_type g) i /\ named (bbit_names l') i.
Proof.
  intros Hg Hl Hbuild.
  assert (boundary_bit_count g <= MAX_BOUNDARY_BITS) as Hcount.
  { destruct (Z.le_gt_cases (boundary_bit_count g) MAX_BOUNDARY_BITS) as [|Hgt]; [done|].
    exfalso. revert Hbuild. unfold build_resolver, for_range.
    apply (for_loop_stuck _ _ 0 (Z.to_nat MAX_BOUNDARY_BITS));
      [unfold MAX_BOUNDARY_BITS in *; lia|].
    intros st r. apply resolve_bit_past_end; [done|]. unfold MAX_BOUNDARY_BITS. lia. }
  split; [done|].
  unfold build_resolver, for_range in Hbuild.
  apply (for_loop_ok_inv
           (fun k (st : locals * list event) =>
              wf_locals (fst st)
              /\ forall i, 0 <= i < k ->
                   named (boundary_bit_type g) i /\ named (bbit_names (fst st)) i))
    in Hbuild.
  - destruct Hbuild as [Hwf Hres]. split; [done|]. intros i Hi. apply Hres. lia.
  - split; [done|]. intros i Hi. lia.
  - intros i [l1 out1] [l2 out2] Hi [Hwf1 Hres1] Hbit. cbn [fst] in *.
    destruct (resolve_bit_ok _ _ _ _ _ _ Hwf1 Hbit) as (Hin & s & type & Hs & Hty).
    rewrite (resolve_bit_spec g sens i l1 out1 s type Hin Hwf1 Hs Hty) in Hbit.
    injection Hbit as <- _. destruct Hwf1 as [Hn Hig Hsh]. split.
    + split; cbn; by rewrite length_insert.
    + intros k Hk. cbn. unfold named in *. unfold MAX_BOUNDARY_BITS in *.
      destruct (decide (k = i)) as [->|Hne].
      * rewrite list_lookup_insert_eq by lia. split; by eexists.
      * rewrite list_lookup_insert_ne by lia. apply Hres1. lia.
Qed.

(** After a load phase that returns, the tables satisfy what the monitor
    loop needs. *)
Lemma load_phase_ready fs xdc bsdl sens line0 l0 g0 g l out :
  wf_globals g0 -> wf_locals l0 ->
  load_phase fs xdc bsdl sens line0 l0 g0 = Ok (g, l, out) ->
  wf_globals g /\ wf_locals l
  /\ boundary_bit_count g <= MAX_BOUNDARY_BITS
  /\ shown_bits_named g l (boundary_bit_count g).
Proof.
  intros Hg0 Hl0. unfold load_phase.
  destruct (match xdc with Some _ => _ | None => _ end) as [[g1 out1]| |] eqn:Hxdc;
    cbn [mbind outcome_bind]; [|done..].
  assert (wf_globals g1) as Hg1.
  { destruct xdc as [name|]; [|by injection Hxdc as <- _].
    unfold parse_xdc in Hxdc. destruct (fs name) as [file|]; [|done].
    destruct (parse_xdc_loop _ _ _) as [g1'| |] eqn:Hloop;
      cbn [mbind outcome_bind] in Hxdc; [|done..].
    injection Hxdc as <- _. by eapply parse_xdc_loop_wf. }
  destruct (clear_boundary_bits_spec g1 Hg1) as [Hgc Htogc].
  destruct (match bsdl with Some _ => _ | None => _ end) as [[g2 out2]| |] eqn:Hbsdl;
    cbn [mbind outcome_bind]; [|done..].
  assert (wf_globals g2 /\ bits_together g2) as [Hg2 Htog2].
  { destruct bsdl as [name|]; [|by injection Hbsdl as <- _].
    unfold parse_bsdl in Hbsdl. destruct (fs name) as [file|]; [|done].
    destruct (parse_bsdl_loop _ _ _) as [[g2' ev]| |] eqn:Hloop;
      cbn [mbind outcome_bind] in Hbsdl; [|done..].
    injection Hbsdl as <- _. by eapply parse_bsdl_loop_together. }
  destruct (build_resolver _ _ _ _) as [[l' out']| |] eqn:Hbuild;
    cbn [mbind outcome_bind]; [|done..].
  intros [= <- <- _].
  destruct (build_resolver_ok _ _ _ _ _ _ Hg2 Hl0 Hbuild) as (Hcount & Hl' & Hres).
  split; [done|]. split; [done|]. split; [done|].
  intros i Hi _. destruct (Hres i Hi) as [Hty Hnm].
  destruct (Htog2 i Hty) as [Hf Hp]. done.
Qed.

(** The monitor loop after a load phase that returned: every turn prints
    the lines of the displayed bits. *)
Lemma monitor_after_load fs xdc bsdl sens line0 l0 g0 g l out captures :
  wf_globals g0 -> wf_locals l0 ->
  load_phase fs xdc (Some bsdl) sens line0 l0 g0 = Ok (g, l, out) ->
  Forall (fun c : Z * list byte => (1024 <= length (snd c))%nat) captures ->
  forall m, length (last_rdata m) = 1024%nat ->
  exists m' outs,
    monitor_loop g l (Some bsdl) sens captures m = Ok (m', outs)
    /\ match captures, outs with
       | c :: _, o :: _ => o = turn_output g l sens m c
       | [], [] => True
       | _, _ => False
       end
    /\ length outs = length captures.
Proof.
  intros Hg0 Hl0 Hload Hcaps.
  destruct (load_phase_ready _ _ _ _ _ _ _ _ _ _ Hg0 Hl0 Hload)
    as (Hg & Hl & Hcount & Hnamed).
  induction Hcaps as [|[t rdata] captures Hc _ IH]; intros m Hm.
  - by exists m, [].
  - cbn [monitor_loop]. cbn [snd] in Hc.
    rewrite scan_iteration_spec by done. cbn [mbind outcome_bind].
    destruct (IH {| last_rdata := take 1024 rdata; first_time := 0 |})
      as (m' & outs & -> & _ & Hlen).
    { cbn. rewrite length_take. lia. }
    exists m', (turn_output g l sens m (t, rdata) :: outs).
    cbn [mbind outcome_bind length]. by rewrite Hlen.
Qed.

(** ** Reading lines *)

Lemma chr_eq_true a b : chr_eq a b = true <-> a = b.
Proof. unfold chr_eq. by rewrite bool_decide_eq_true. Qed.

Lemma chr_eq_false a b : chr_eq a b = false <-> a <> b.
Proof. unfold chr_eq. by rewrite bool_decide_eq_false. Qed.

Lemma file_chunks_concat file : forall room cur,
  concat (file_chunks room cur file) = cur ++ file.
Proof.
  induction file as [|c rest IH]; intros room cur; cbn [file_chunks].
  - destruct cur; cbn; by rewrite ?app_nil_r.
  - destruct (chr_eq c NL).
    + cbn [concat]. rewrite IH. cbn. by rewrite <- app_assoc.
    + destruct room as [|[|room]].
      * cbn [concat]. rewrite IH. cbn. by rewrite <- app_assoc.
      * cbn [concat]. rewrite IH. cbn. by rewrite <- app_assoc.
      * rewrite IH. by rewrite <- app_assoc.
Qed.

Lemma file_chunks_lines file : forall room cur,
  (length cur + room = LINE_SIZE - 1)%nat -> (1 <= room)%nat -> NL ∉ cur ->
  Forall fgets_line (file_chunks room cur file).
Proof.
  assert (Hsnoc : forall cur c, NL ∉ cur -> forall pre post,
            cur ++ [c] = pre ++ NL :: post -> post = []).
  { intros cur c Hcur pre post E.
    destruct post as [|x post' _] using rev_ind; [done|].
    exfalso. apply Hcur.
    replace (pre ++ NL :: post' ++ [x]) with ((pre ++ NL :: post') ++ [x]) in E
      by (by rewrite <- app_assoc).
    apply app_inj_tail in E as [-> _].
    apply elem_of_app. right. apply list_elem_of_here. }
  induction file as [|c rest IH]; intros room cur Hlen Hroom Hcur; cbn [file_chunks].
  - destruct cur as [|x cur']; constructor; [|constructor].
    split.
    + cbn in *. unfold LINE_SIZE in *. lia.
    + intros pre post E. exfalso. apply Hcur. rewrite E.
      apply elem_of_app. right. apply list_elem_of_here.
  - assert (Hend : fgets_line (cur ++ [c])).
    { split; [rewrite length_app; cbn; unfold LINE_SIZE in *; lia|].
      by apply Hsnoc. }
    assert (Hnext : Forall fgets_line (file_chunks (LINE_SIZE - 1) [] rest)).
    { apply IH; [done|unfold LINE_SIZE; lia|apply not_elem_of_nil]. }
    destruct (chr_eq c NL) eqn:Hc; [by constructor|].
    destruct room as [|[|room]]; [by constructor|by constructor|].
    apply IH.
    + rewrite length_app. cbn [length]. lia.
    + lia.
    + intros [H|H]%elem_of_app; [done|].
      apply list_elem_of_singleton in H. apply chr_eq_false in Hc. by subst.
Qed.

Lemma file_chunks_full file : forall room cur i chunk,
  (length cur + room = LINE_SIZE - 1)%nat -> (1 <= room)%nat ->
  file_chunks room cur file !! i = Some chunk ->
  (Datatypes.S i < length (file_chunks room cur file))%nat ->
  fgets_full chunk.
Proof.
  induction file as [|c rest IH]; intros room cur i chunk Hlen Hroom; cbn [file_chunks].
  - destruct cur; cbn; intros _ ?; lia.
  - assert (Hcons : forall ch, (ch = cur ++ [c]) ->
              (chr_eq c NL = true \/ room = 1%nat) ->
              (ch :: file_chunks (LINE_SIZE - 1) [] rest) !! i = Some chunk ->
              (Datatypes.S i < length (ch :: file_chunks (LINE_SIZE - 1) [] rest))%nat ->
              fgets_full chunk).
    { intros ch -> Hwhy Hi Hlt. destruct i as [|i]; cbn -[Nat.sub file_chunks] in Hi, Hlt.
      - injection Hi as <-. destruct Hwhy as [Hc%chr_eq_true| ->].
        + left. subst c. by rewrite last_snoc.
        + right. rewrite length_app. cbn [length]. lia.
      - eapply (IH (LINE_SIZE - 1)%nat [] i); [done|unfold LINE_SIZE; lia|done|lia]. }
    destruct (chr_eq c NL) eqn:Hc; [apply Hcons; auto|].
    destruct room as [|[|room]]; [lia|apply Hcons; auto|].
    apply IH; [rewrite length_app; cbn [length]; lia|lia].
Qed.

Lemma cstr_no_nul l : NUL ∉ l -> cstr l = l.
Proof.
  unfold cstr. induction l as [|c r IH]; intros H; [done|].
  cbn [span]. destruct (chr_eq c NUL) eqn:Hc.
  - apply chr_eq_true in Hc. subst. exfalso. apply H. apply list_elem_of_here.
  - cbn. destruct (span _ r) eqn:E. cbn in *. f_equal. apply IH.
    intros ?. apply H. by apply list_elem_of_further.
Qed.

Lemma bsdl_lines_all chunks :
  Forall (fun c => c <> [] /\ NUL ∉ c) chunks -> bsdl_lines chunks = chunks.
Proof.
  induction 1 as [|c chunks [Hne Hnul] _ IH]; [done|].
  cbn [bsdl_lines]. rewrite (cstr_no_nul c Hnul).
  destruct c; [done|]. by rewrite IH.
Qed.

Lemma fgets_results_concat file : concat (fgets_results file) = file.
Proof. apply (file_chunks_concat file (LINE_SIZE - 1) []). Qed.

Lemma fgets_results_lines file : Forall fgets_line (fgets_results file).
Proof.
  apply file_chunks_lines; [done|unfold LINE_SIZE; lia|apply not_elem_of_nil].
Qed.

Lemma fgets_results_no_nul file chunk :
  NUL ∉ file -> chunk ∈ fgets_results file -> NUL ∉ chunk.
Proof.
  intros Hnul Hc Hin. apply Hnul. rewrite <- (fgets_results_concat file).
  apply list_elem_of_In, in_concat. exists chunk. split; by apply list_elem_of_In.
Qed.

(** X1: the results of the successive calls of [fgets] are the file cut
    into pieces: put together they give the file back; each holds between 1
    and 1023 characters, a newline only as its last; each but the last ends
    in a newline or fills the buffer; and in a file without zero bytes each
    of them is a line [parse_bsdl] works on. *)
Theorem fgets_results_partition file :
  concat (fgets_results file) = file
  /\ Forall fgets_line (fgets_results file)
  /\ (forall i chunk, fgets_results file !! i = Some chunk ->
        (Datatypes.S i < length (fgets_results file))%nat -> fgets_full chunk)
  /\ (NUL ∉ file -> bsdl_lines (fgets_results file) = fgets_results file).
Proof.
  split; [apply fgets_results_concat|].
  split; [apply fgets_results_lines|]. split.
  - intros i chunk. apply file_chunks_full; [done|unfold LINE_SIZE; lia].
  - intros Hnul. apply bsdl_lines_all.
    apply Forall_forall. intros c Hc. split.
    + pose proof (fgets_results_lines file) as Hl.
      rewrite Forall_forall in Hl. destruct (Hl c Hc) as [[H1 _] _].
      intros ->. cbn in H1. lia.
    + by eapply fgets_results_no_nul.
Qed.

Lemma file_chunks_app_nl pre rest : forall room cur,
  file_chunks room cur (pre ++ NL :: rest)
  = file_chunks room cur (pre ++ [NL]) ++ fgets_results rest.
Proof.
  induction pre as [|c pre IH]; intros room cur.
  - cbn [app file_chunks]. by replace (chr_eq NL NL) with true by done.
  - cbn [app file_chunks]. destruct (chr_eq c NL); [by rewrite IH|].
    destruct room as [|[|room]]; by rewrite IH.
Qed.

Lemma fgets_results_app pre rest :
  pre = [] \/ last pre = Some NL ->
  fgets_results (pre ++ rest) = fgets_results pre ++ fgets_results rest.
Proof.
  intros [-> |Hlast]; [done|].
  destruct pre as [|x pre' _] using rev_ind; [done|].
  rewrite last_snoc in Hlast. injection Hlast as ->.
  rewrite <- app_assoc. apply file_chunks_app_nl.
Qed.

Lemma file_chunks_head file : forall room cur,
  cur <> [] -> exists t cs, file_chunks room cur file = (cur ++ t) :: cs.
Proof.
  induction file as [|c rest IH]; intros room cur Hcur; cbn [file_chunks].
  - destruct cur; [done|]. exists [], []. by rewrite app_nil_r.
  - destruct (chr_eq c NL); [by exists [c], (file_chunks (LINE_SIZE - 1) [] rest)|].
    destruct room as [|[|room]];
      [by exists [c], (file_chunks (LINE_SIZE - 1) [] rest)..|].
    destruct (IH (Datatypes.S room) (cur ++ [c])) as (t & cs & ->); [by destruct cur|].
    exists (c :: t), cs. by rewrite <- app_assoc.
Qed.

Lemma fgets_results_nul post :
  exists t cs, fgets_results (NUL :: post) = (NUL :: t) :: cs.
Proof.
  unfold fgets_results. cbn [file_chunks].
  replace (chr_eq NUL NL) with false by done.
  change (LINE_SIZE - 1)%nat with (Datatypes.S (Datatypes.S 1021)).
  cbn iota. apply (file_chunks_head post). discriminate.
Qed.

Lemma parse_bsdl_loop_stop before t after : forall g out,
  parse_bsdl_loop (before ++ (NUL :: t) :: after) g out
  = parse_bsdl_loop before g out.
Proof.
  induction before as [|c before IH]; intros g out; [done|].
  cbn [app parse_bsdl_loop]. destruct (cstr c); [done|].
  destruct (bsdl_line g (a :: l)) as [[g' ev]| |]; [|done..].
  apply IH.
Qed.

Lemma parse_xdc_loop_stop before t after : forall line g,
  parse_xdc_loop (before ++ (NUL :: t) :: after) line g
  = parse_xdc_loop before line g.
Proof.
  induction before as [|c before IH]; intros line g; [done|].
  cbn [app parse_xdc_loop].
  destruct (bool_decide (head (read_into line c) = Some NUL)); [done|].
  destruct (xdc_line (read_into line c)) as [[line' found]| |]; [|done..].
  cbn [mbind outcome_bind].
  destruct (match found with Some m => add_pin g m | None => Ok g end); [|done..].
  apply IH.
Qed.

(** X2: a line that starts with a zero byte ends the parsing, as the end of
    the file does. *)
Theorem nul_line_ends_parsing pre post line0 g :
  pre = [] \/ last pre = Some NL ->
  parse_xdc (Some (pre ++ NUL :: post)) line0 g = parse_xdc (Some pre) line0 g
  /\ parse_bsdl (Some (pre ++ NUL :: post)) g = parse_bsdl (Some pre) g.
Proof.
  intros Hpre. unfold parse_xdc, parse_bsdl.
  rewrite (fgets_results_app pre (NUL :: post) Hpre).
  destruct (fgets_results_nul post) as (t & cs & ->).
  split; [apply parse_xdc_loop_stop|apply parse_bsdl_loop_stop].
Qed.

(** ** Files made of whole lines *)

Lemma file_chunks_line rest : forall body room cur,
  (length body < room)%nat -> NL ∉ body ->
  file_chunks room cur (body ++ NL :: rest)
  = (cur ++ body ++ [NL]) :: fgets_results rest.
Proof.
  induction body as [|c body IH]; intros room cur Hroom Hnl.
  - cbn [app file_chunks]. by replace (chr_eq NL NL) with true by done.
  - apply not_elem_of_cons in Hnl as [Hc Hnl].
    cbn [app file_chunks].
    replace (chr_eq c NL) with false by (symmetry; apply chr_eq_false; congruence).
    destruct room as [|[|room]]; [cbn in Hroom; lia..|].
    rewrite IH; [by rewrite <- app_assoc|cbn in Hroom; lia|done].
Qed.

Lemma fgets_results_whole lines :
  Forall whole_line lines -> fgets_results (concat lines) = lines.
Proof.
  induction 1 as [|line lines (Hlen & body & -> & Hnl) _ IH]; [done|].
  cbn [concat]. rewrite <- app_assoc. cbn [app]. unfold fgets_results.
  rewrite file_chunks_line; [|rewrite length_app in Hlen; cbn in Hlen;
                               unfold LINE_SIZE in *; lia|done].
  cbn [app]. by rewrite IH.
Qed.

(** ** parse_bsdl: the strings it scans and stores *)

Lemma span_app {A} (p : A -> bool) (l : list A) :
  fst (span p l) ++ snd (span p l) = l.
Proof.
  induction l as [|x l IH]; [done|]. cbn [span].
  destruct (p x); [|done]. destruct (span p l). cbn in *. by f_equal.
Qed.

Lemma span_length {A} (p : A -> bool) (l : list A) :
  (length (fst (span p l)) + length (snd (span p l)))%nat = length l.
Proof. by rewrite <- length_app, span_app. Qed.

Lemma skip_space_length input : (length (skip_space input) <= length input)%nat.
Proof. unfold skip_space. pose proof (span_length isspace input). lia. Qed.

Lemma scan_int_length input n rest :
  scan_int input = Some (n, rest) -> (length rest <= length input)%nat.
Proof.
  unfold scan_int.
  assert (forall body, (length body <= length input)%nat ->
            (let '(ds, rest) := span isdigit body in
             match ds with
             | [] => None
             | _ :: _ => Some (n, rest)
             end) = Some (n, rest) -> (length rest <= length input)%nat) as Hbody.
  { intros body Hb. pose proof (span_length isdigit body) as Hs.
    destruct (span isdigit body) as [ds r]. cbn [fst snd] in Hs.
    destruct ds; [done|]. intros [= <-]. lia. }
  destruct input as [|c r].
  - cbn. destruct (span isdigit []) as [ds rest'] eqn:E. cbn in E.
    injection E as <- <-. done.
  - destruct (chr_eq c "-"); [|destruct (chr_eq c "+")].
    + pose proof (span_length isdigit r) as Hs.
      destruct (span isdigit r) as [ds r']. cbn [fst snd] in Hs.
      destruct ds; [done|]. intros [= _ <-]. cbn [length]. lia.
    + pose proof (span_length isdigit r) as Hs.
      destruct (span isdigit r) as [ds r']. cbn [fst snd] in Hs.
      destruct ds; [done|]. intros [= _ <-]. cbn [length]. lia.
    + pose proof (span_length isdigit (c :: r)) as Hs.
      destruct (span isdigit (c :: r)) as [ds r']. cbn [fst snd] in Hs.
      destruct ds; [done|]. intros [= _ <-]. lia.
Qed.

Lemma strings_within_push n a v acc :
  strings_within n acc ->
  (forall s, v = VStr s -> (length s <= n)%nat) ->
  strings_within n (push a v acc).
Proof.
  intros Hacc Hv s. unfold push. destruct a; [|apply Hacc].
  intros [H|H%list_elem_of_singleton]%elem_of_app; [by apply Hacc|].
  by apply Hv.
Qed.

Lemma scan_strings_within n fmt : forall input acc,
  (length input <= n)%nat -> strings_within n acc ->
  strings_within n (snd (scan fmt input acc)).
Proof.
  induction fmt as [|d fmt IH]; intros input acc Hlen Hacc; [done|].
  destruct d as [|c|a|a|a neg set]; cbn [scan].
  - apply IH; [|done]. pose proof (skip_space_length input). lia.
  - destruct input as [|x r]; [done|].
    destruct (chr_eq x c); [|done]. apply IH; [cbn in Hlen; lia|done].
  - pose proof (skip_space_length input) as Hsk.
    destruct (skip_space input) as [|x r] eqn:E; [done|].
    pose proof (span_length (fun c => negb (isspace c)) (x :: r)) as Hs.
    destruct (span _ (x :: r)) as [tok rest]. cbn [fst snd] in Hs.
    apply IH; [lia|]. apply strings_within_push; [done|].
    intros s [= <-]. lia.
  - pose proof (skip_space_length input) as Hsk.
    destruct (skip_space input) as [|x r] eqn:E; [done|].
    destruct (scan_int (x :: r)) as [[v rest]|] eqn:Hint; [|done].
    apply scan_int_length in Hint.
    apply IH; [lia|]. by apply strings_within_push.
  - destruct input as [|x r]; [done|].
    pose proof (span_length (in_set neg set) (x :: r)) as Hs.
    destruct (span _ (x :: r)) as [tok rest]. cbn [fst snd] in Hs.
    destruct tok as [|y tok]; [done|].
    apply IH; [lia|]. apply strings_within_push; [done|].
    intros s [= <-]. lia.
Qed.

Lemma cstr_length l : (length (cstr l) <= length l)%nat.
Proof.
  unfold cstr. pose proof (span_length (fun c => negb (chr_eq c NUL)) l). lia.
Qed.

(** X3: every string [sscanf] stores while a file is parsed is shorter than
    the 1024 characters of the array it is stored in, although the formats
    give no field width: the line comes from [fgets]. *)
Theorem scanned_strings_fit file chunk format s :
  chunk ∈ fgets_results file ->
  VStr s ∈ snd (sscanf (cstr chunk) format) ->
  (length s < LINE_SIZE)%nat.
Proof.
  intros Hchunk Hs.
  pose proof (fgets_results_lines file) as Hlines.
  rewrite Forall_forall in Hlines. destruct (Hlines chunk Hchunk) as [[_ Hlen] _].
  pose proof (cstr_length chunk) as Hc.
  assert (length s <= LINE_SIZE - 1)%nat; [|unfold LINE_SIZE in *; lia].
  revert s Hs. apply scan_strings_within; [lia|].
  intros s Hs. by apply elem_of_nil in Hs.
Qed.

Lemma after_underscores_spec rest : forall bit_pin,
  ((("_"%char) ∉ rest) /\ after_underscores bit_pin rest = bit_pin)
  \/ exists p s, rest = p ++ "_"%char :: s /\ (("_"%char) ∉ s)
                 /\ after_underscores bit_pin rest = s.
Proof.
  induction rest as [|c r IH]; intros bit_pin.
  - left. split; [apply not_elem_of_nil|done].
  - cbn [after_underscores]. destruct (chr_eq c "_") eqn:Hc.
    + apply chr_eq_true in Hc. subst c. right.
      destruct (IH r) as [[Hno ->]|(p & s & -> & Hs & ->)].
      * by exists [], r.
      * by exists ("_"%char :: p), s.
    + apply chr_eq_false in Hc.
      destruct (IH bit_pin) as [[Hno ->]|(p & s & -> & Hs & ->)].
      * left. split; [|done]. by apply not_elem_of_cons.
      * right. by exists (c :: p), s.
Qed.

Lemma pins_follow_names_clear g : pins_follow_names (clear_boundary_bits g).
Proof.
  intros i name H. cbn in H. by apply lookup_replicate in H as [? _].
Qed.

Lemma scan_bit_follows g line g' :
  wf_globals g -> pins_follow_names g -> scan_bit g line = Ok g' ->
  pins_follow_names g'.
Proof.
  intros Hwf Hinv. unfold scan_bit.
  destruct (sscanf line bit_format) as [n vals] eqn:Hscan.
  destruct (Z.eqb_spec n 4) as [->|]; [|by intros [= <-]].
  destruct (bit_scan_shape line) as (k & name & type & dflt & Hshape);
    [by rewrite Hscan|].
  rewrite Hscan in Hshape. injection Hshape as ->.
  destruct (0 <=? k) eqn:H0, (k <? MAX_BOUNDARY_BITS) eqn:H1;
    cbn [andb]; try by intros [= <-].
  apply Z.leb_le in H0. apply Z.ltb_lt in H1.
  destruct Hwf as [_ _ Ht Hf Hp]. unfold MAX_BOUNDARY_BITS in *.
  rewrite !store_ok by lia. cbn [mbind outcome_bind]. intros [= <-].
  intros i nm. cbn.
  destruct (decide (i = Z.to_nat k)) as [->|Hne].
  - rewrite !list_lookup_insert_eq by lia. by intros [= <-].
  - rewrite !list_lookup_insert_ne by done. apply Hinv.
Qed.

Lemma parse_bsdl_loop_follows chunks : forall g out g' out',
  wf_globals g -> pins_follow_names g ->
  parse_bsdl_loop chunks g out = Ok (g', out') -> pins_follow_names g'.
Proof.
  induction chunks as [|chunk chunks IH]; intros g out g' out' Hwf Hinv;
    cbn [parse_bsdl_loop].
  - by intros [= <- _].
  - destruct (cstr chunk) as [|c line]; [by intros [= <- _]|].
    unfold bsdl_line.
    destruct (scan_header_spec g (c :: line)) as (g1 & Hh & _ & _ & Hwf1).
    pose proof (scan_header_bits g (c :: line)) as (_ & Hf1 & Hp1).
    rewrite Hh in *. cbn [fst] in *.
    destruct (scan_bit g1 (c :: line)) as [g2| |] eqn:Hbit;
      cbn [mbind outcome_bind]; [|done..].
    destruct (scan_bit_spec g1 (c :: line) (Hwf1 Hwf)) as (g2' & Hbit' & _ & _ & Hwf2).
    rewrite Hbit in Hbit'. injection Hbit' as <-.
    apply IH; [done|]. eapply scan_bit_follows; [by apply Hwf1| |done].
    intros i nm. rewrite Hf1, Hp1. apply Hinv.
Qed.

(** X4: the pin stored with a layout record is the part of the record's
    full name after its last underscore, the whole name when it has none. *)
Theorem pin_is_name_after_underscore file g g' out :
  wf_globals g ->
  parse_bsdl (Some file) (clear_boundary_bits g) = Ok (g', out) ->
  forall (i : nat) name,
    boundary_bit_fullname g' !! i = Some (Some name) ->
    exists pin,
      boundary_bit_pin g' !! i = Some (Some pin)
      /\ (("_"%char) ∉ pin)
      /\ (pin = name \/ exists before, name = before ++ "_"%char :: pin).
Proof.
  intros Hwf Hparse i name Hname. unfold parse_bsdl in Hparse.
  destruct (clear_boundary_bits_spec g Hwf) as [Hwfc _].
  pose proof (parse_bsdl_loop_follows _ _ _ _ _ Hwfc (pins_follow_names_clear g) Hparse)
    as Hinv.
  exists (after_underscores name name). split; [by apply Hinv|].
  destruct (after_underscores_spec name name) as [[Hno ->]|(p & s & Hn & Hs & ->)].
  - split; [done|by left].
  - split; [done|]. right. by exists p.
Qed.

(** ** sscanf on a header statement and on a layout record *)

Lemma span_stops (p : ascii -> bool) a b :
  Forall (fun c => p c = true) a -> stops p b -> span p (a ++ b) = (a, b).
Proof.
  intros Ha Hb. induction Ha as [|c a Hc _ IH].
  - destruct b as [|c b]; [done|]. cbn in *. by rewrite Hb.
  - cbn [app span]. by rewrite Hc, IH.
Qed.

Lemma skip_space_stops w input :
  spaces w -> stops isspace input -> skip_space (w ++ input) = input.
Proof. intros Hw Hi. unfold skip_space. by rewrite span_stops. Qed.

Lemma scan_chars lit fmt : forall input acc,
  scan ((DChar <$> lit) ++ fmt) (lit ++ input) acc = scan fmt input acc.
Proof.
  induction lit as [|c lit IH]; intros input acc; [done|].
  cbn [fmap list_fmap app scan].
  replace (chr_eq c c) with true by (symmetry; by apply chr_eq_true).
  apply IH.
Qed.

Lemma scan_space w fmt input acc :
  spaces w -> stops isspace input ->
  scan (DSpace :: fmt) (w ++ input) acc = scan fmt input acc.
Proof. intros Hw Hi. cbn [scan]. by rewrite skip_space_stops. Qed.

Lemma isdigit_digit_val c : isdigit c = true -> 0 <= digit_val c <= 9.
Proof.
  unfold isdigit, digit_val. intros [H1 H2]%andb_prop.
  apply Nat.leb_le in H1, H2. lia.
Qed.

Lemma decimal_nonneg ds : Forall (fun c => isdigit c = true) ds -> 0 <= decimal ds.
Proof.
  unfold decimal. intros Hds.
  assert (forall v, 0 <= v -> 0 <= fold_left (fun v c => 10 * v + digit_val c) ds v)
    as H; [|by apply H].
  induction Hds as [|c ds Hc _ IH]; intros v Hv; [done|].
  cbn [fold_left]. apply IH. apply isdigit_digit_val in Hc. lia.
Qed.

Lemma to_int_small v : 0 <= v < 2 ^ 31 -> to_int (clamp_long v) = v.
Proof.
  intros Hv. unfold to_int, clamp_long.
  rewrite Z.min_r, Z.max_r by lia. rewrite Z.mod_small; lia.
Qed.

Lemma isdigit_not_sign c :
  isdigit c = true -> chr_eq c "-" = false /\ chr_eq c "+" = false.
Proof.
  intros Hc. split; apply chr_eq_false; intros ->; discriminate.
Qed.

Lemma isdigit_not_space c : isdigit c = true -> isspace c = false.
Proof.
  unfold isdigit, isspace. intros [H1 H2]%andb_prop.
  apply Nat.leb_le in H1, H2.
  destruct (Nat.eqb_spec (nat_of_ascii c) 32); [lia|].
  destruct (Nat.leb_spec 9 (nat_of_ascii c)), (Nat.leb_spec (nat_of_ascii c) 13);
    cbn; try done; lia.
Qed.

Lemma scan_int_digits ds rest :
  digits ds -> stops isdigit rest ->
  scan_int (ds ++ rest) = Some (to_int (clamp_long (decimal ds)), rest).
Proof.
  intros [Hne Hds] Hrest. unfold scan_int.
  destruct ds as [|c ds']; [done|]. cbn [app].
  destruct (isdigit_not_sign c) as [-> ->]; [by inversion Hds|].
  change (c :: ds' ++ rest) with ((c :: ds') ++ rest).
  by rewrite span_stops.
Qed.

Lemma scan_digits a ds fmt rest acc :
  digits ds -> stops isdigit rest ->
  scan (DInt a :: fmt) (ds ++ rest) acc
  = scan fmt rest (push a (VInt (to_int (clamp_long (decimal ds)))) acc).
Proof.
  intros Hds Hrest. cbn [scan].
  assert (skip_space (ds ++ rest) = ds ++ rest) as ->.
  { apply (skip_space_stops [] (ds ++ rest)); [constructor|].
    destruct Hds as [Hne Hds]. destruct ds as [|c ds']; [done|].
    cbn. apply isdigit_not_space. by inversion Hds. }
  pose proof (scan_int_digits ds rest Hds Hrest) as Hint.
  destruct Hds as [Hne _]. destruct ds as [|c ds']; [done|].
  cbn [app] in *. by rewrite Hint.
Qed.

Lemma scan_word a s fmt rest acc :
  word s -> stops (fun c => negb (isspace c)) rest ->
  scan (DStr a :: fmt) (s ++ rest) acc = scan fmt rest (push a (VStr s) acc).
Proof.
  intros [Hne Hs] Hrest. cbn [scan].
  assert (skip_space (s ++ rest) = s ++ rest) as ->.
  { apply (skip_space_stops [] (s ++ rest)); [constructor|].
    destruct s as [|c s']; [done|]. cbn. by inversion Hs. }
  assert (span (fun c => negb (isspace c)) (s ++ rest) = (s, rest)) as Hspan.
  { apply span_stops; [|done]. eapply Forall_impl; [done|]. by intros c ->. }
  destruct s as [|c s']; [done|]. cbn [app] in *. by rewrite Hspan.
Qed.

Lemma scan_set a neg set s fmt rest acc :
  s <> [] -> Forall (fun c => in_set neg set c = true) s ->
  stops (in_set neg set) rest ->
  scan (DSet a neg set :: fmt) (s ++ rest) acc = scan fmt rest (push a (VStr s) acc).
Proof.
  intros Hne Hs Hrest. cbn [scan].
  pose proof (span_stops (in_set neg set) s rest Hs Hrest) as Hspan.
  destruct s as [|c s']; [done|]. cbn [app] in *. by rewrite Hspan.
Qed.

Lemma stops_app p a b : a <> [] -> stops p a -> stops p (a ++ b).
Proof. by destruct a. Qed.

Lemma field_in_set stop f :
  field stop f -> Forall (fun c => in_set true stop c = true) f.
Proof.
  intros (_ & _ & Hf). eapply Forall_impl; [done|]. intros c Hc.
  unfold in_set. by rewrite bool_decide_eq_false_2.
Qed.

Lemma blanks_in_set b :
  blanks b -> Forall (fun c => in_set false [" "%char; TAB] c = true) b.
Proof.
  intros [_ Hb]. eapply Forall_impl; [done|]. by intros c [-> | ->].
Qed.

(** The header pattern on the text of a header statement. *)
Lemma sscanf_header_text w1 w2 w3 part w4 w5 w6 w7 ds rest :
  spaces w1 -> spaces w2 -> spaces w3 -> word part ->
  spaces w4 -> w4 <> [] -> spaces w5 -> spaces w6 -> spaces w7 ->
  digits ds -> stops isdigit rest ->
  sscanf (header_text w1 w2 w3 part w4 w5 w6 w7 ds rest) header_format
  = (2, [VStr part; VInt (to_int (clamp_long (decimal ds)))]).
Proof.
  intros H1 H2 H3 Hpart H4 H4' H5 H6 H7 Hds Hrest.
  rewrite sscanf_header. unfold header_text.
  change header_directives
    with ((DChar <$> str "attribute") ++ DSpace
          :: (DChar <$> str "BOUNDARY_LENGTH") ++ DSpace
          :: (DChar <$> str "of") ++ DSpace :: DStr true :: DSpace
          :: (DChar <$> str ":") ++ DSpace
          :: (DChar <$> str "entity") ++ DSpace
          :: (DChar <$> str "is") ++ DSpace :: DInt true
          :: (DChar <$> str ";") ++ []).
  rewrite scan_chars, scan_space by done.
  rewrite scan_chars, scan_space by done.
  rewrite scan_chars.
  assert (stops isspace (part ++ w4 ++ str ":" ++ w5 ++ str "entity" ++ w6
                           ++ str "is" ++ w7 ++ ds ++ rest)) as Hp.
  { destruct Hpart as [Hne Hp]. destruct part as [|c part']; [done|]. by inversion Hp. }
  rewrite scan_space by done.
  rewrite scan_word; [|done|].
  2:{ destruct w4 as [|c w4']; [done|]. cbn. apply Forall_cons_1 in H4 as [Hc _].
      by rewrite Hc. }
  rewrite scan_space by done.
  rewrite scan_chars, scan_space by done.
  rewrite scan_chars, scan_space by done.
  rewrite scan_chars.
  assert (stops isspace (ds ++ rest)) as Hd.
  { destruct Hds as [Hne Hd]. destruct ds as [|c ds']; [done|].
    cbn. apply isdigit_not_space. by inversion Hd. }
  rewrite scan_space by done.
  rewrite scan_digits by done.
  cbn [push app]. destruct rest as [|c rest']; [done|].
  cbn [fmap list_fmap str list_ascii_of_string app scan].
  by destruct (chr_eq c ";").
Qed.

(** The record pattern on the text of a layout record. *)
Lemma sscanf_record_text b1 b2 ds w1 cell w2 name w3 type w4 dflt rest :
  blanks b1 -> blanks b2 -> digits ds -> spaces w1 -> digits cell ->
  spaces w2 -> field (str ",") name -> spaces w3 -> field (str ",") type ->
  spaces w4 -> field (str ",)") dflt -> stops (in_set true (str ",)")) rest ->
  sscanf (record_text b1 b2 ds w1 cell w2 name w3 type w4 dflt rest) bit_format
  = (4, [VInt (to_int (clamp_long (decimal ds))); VStr name; VStr type; VStr dflt]).
Proof.
  intros Hb1 Hb2 Hds H1 Hcell H2 Hname H3 Htype H4 Hdflt Hrest.
  rewrite sscanf_bit. unfold record_text.
  change bit_directives
    with (DSet false false [" "%char; TAB] :: (DChar <$> [DQUOTE])
          ++ DSet false false [" "%char; TAB] :: DInt true :: DSpace
          :: (DChar <$> str "(BC_") ++ DInt false :: (DChar <$> str ",") ++ DSpace
          :: DSet true true (str ",") :: (DChar <$> str ",") ++ DSpace
          :: DSet true true (str ",") :: (DChar <$> str ",") ++ DSpace
          :: DSet true true (str ",)") :: []).
  assert (forall s r, digits s -> stops (in_set false [" "%char; TAB]) (s ++ r)) as Hdig.
  { intros s r [Hne Hs]. destruct s as [|c s']; [done|]. cbn.
    assert (isspace c = false) as Hc by (apply isdigit_not_space; by inversion Hs).
    unfold in_set. rewrite bool_decide_eq_false_2; [done|].
    intros [->|[->|[]%elem_of_nil]%elem_of_cons]%elem_of_cons; discriminate. }
  rewrite scan_set; [|by destruct Hb1|by apply blanks_in_set|done].
  rewrite scan_chars.
  rewrite scan_set; [|by destruct Hb2|by apply blanks_in_set|by apply Hdig].
  rewrite scan_digits; [|done|].
  2:{ destruct w1 as [|c w1']; [done|]. cbn. apply Forall_cons_1 in H1 as [Hc _].
      destruct (isdigit c) eqn:E; [|done]. apply isdigit_not_space in E. congruence. }
  rewrite scan_space by done. rewrite scan_chars.
  rewrite scan_digits by done. rewrite scan_chars.
  assert (forall stop f r, field stop f -> stops isspace (f ++ r)) as Hfld.
  { intros stop f r (Hne & Hs & _). by apply stops_app. }
  rewrite scan_space by eauto.
  rewrite scan_set; [|by destruct Hname|by apply field_in_set|done].
  rewrite scan_chars. rewrite scan_space by eauto.
  rewrite scan_set; [|by destruct Htype|by apply field_in_set|done].
  rewrite scan_chars. rewrite scan_space by eauto.
  rewrite scan_set; [|by destruct Hdflt|by apply field_in_set|done].
  done.
Qed.

Lemma scan_record_not_blank c r :
  c <> " "%char -> c <> TAB -> scan bit_directives (c :: r) [] = (0, []).
Proof.
  intros H1 H2. unfold bit_directives. cbn [scan span].
  assert (in_set false [" "%char; "009"%char] c = false) as ->; [|done].
  unfold in_set. rewrite bool_decide_eq_false_2; [done|].
  by intros [->|[->|[]%elem_of_nil]%elem_of_cons]%elem_of_cons.
Qed.

Lemma bsdl_line_header_text g w1 w2 w3 part w4 w5 w6 w7 ds rest :
  spaces w1 -> spaces w2 -> spaces w3 -> word part ->
  spaces w4 -> w4 <> [] -> spaces w5 -> spaces w6 -> spaces w7 ->
  digits ds -> stops isdigit rest -> decimal ds < 2 ^ 31 ->
  bsdl_line g (header_text w1 w2 w3 part w4 w5 w6 w7 ds rest)
  = Ok (set_boundary_bit_count (set_part_name g part) (decimal ds),
        [FpgaAssumed part (decimal ds)]).
Proof.
  intros H1 H2 H3 Hpart H4 H4' H5 H6 H7 Hds Hrest Hsmall.
  unfold bsdl_line, scan_header.
  rewrite sscanf_header_text by done.
  rewrite to_int_small by (split; [apply decimal_nonneg; apply Hds|done]).
  cbn [Z.eqb Pos.eqb part_name boundary_bit_count set_boundary_bit_count set_part_name].
  unfold scan_bit. rewrite sscanf_bit.
  unfold header_text. cbn [str list_ascii_of_string app].
  by rewrite scan_record_not_blank.
Qed.

Lemma bsdl_line_record_text g b1 b2 ds w1 cell w2 name w3 type w4 dflt rest :
  wf_globals g ->
  blanks b1 -> blanks b2 -> digits ds -> spaces w1 -> digits cell ->
  spaces w2 -> field (str ",") name -> spaces w3 -> field (str ",") type ->
  spaces w4 -> field (str ",)") dflt -> stops (in_set true (str ",)")) rest ->
  decimal ds < MAX_BOUNDARY_BITS ->
  bsdl_line g (record_text b1 b2 ds w1 cell w2 name w3 type w4 dflt rest)
  = Ok (set_boundary_bits g
          (<[Z.to_nat (decimal ds) := Some type]> (boundary_bit_type g))
          (<[Z.to_nat (decimal ds) := Some name]> (boundary_bit_fullname g))
          (<[Z.to_nat (decimal ds) := Some (after_underscores name name)]>
             (boundary_bit_pin g)),
        []).
Proof.
  intros Hwf Hb1 Hb2 Hds H1 Hcell H2 Hname H3 Htype H4 Hdflt Hrest Hsmall.
  pose proof (sscanf_record_text b1 b2 ds w1 cell w2 name w3 type w4 dflt rest
                Hb1 Hb2 Hds H1 Hcell H2 Hname H3 Htype H4 Hdflt Hrest) as Hscan.
  pose proof (decimal_nonneg ds (proj2 Hds)) as Hpos.
  rewrite to_int_small in Hscan by (unfold MAX_BOUNDARY_BITS in *; lia).
  unfold bsdl_line. rewrite (bit_line_not_header g _ _ Hscan).
  rewrite (scan_bit_stored _ _ _ _ _ _ Hwf Hscan). cbn [mbind outcome_bind].
  by rewrite decide_True by lia.
Qed.

(** ** The lines parse_bsdl reads and the lines it passes over *)

(** X5: a header statement is read whatever white space separates its
    words, with or without the final semicolon: the identifier and the count
    are stored and the progress message is printed.  A line that does not
    start with the letter a, an indented header statement for one, is not a
    header statement. *)
Theorem header_statement_read :
  (forall g w1 w2 w3 part w4 w5 w6 w7 ds rest,
     spaces w1 -> spaces w2 -> spaces w3 -> word part ->
     spaces w4 -> w4 <> [] -> spaces w5 -> spaces w6 -> spaces w7 ->
     digits ds -> stops isdigit rest -> decimal ds < 2 ^ 31 ->
     bsdl_line g (header_text w1 w2 w3 part w4 w5 w6 w7 ds rest)
     = Ok (set_boundary_bit_count (set_part_name g part) (decimal ds),
           [FpgaAssumed part (decimal ds)]))
  /\ (forall g c line, c <> "a"%char -> scan_header g (c :: line) = (g, [])).
Proof.
  split; [intros; by apply bsdl_line_header_text|].
  intros g c line Hc. unfold scan_header. rewrite sscanf_header.
  unfold header_directives. cbn [scan].
  by replace (chr_eq c "a") with false by (symmetry; by apply chr_eq_false).
Qed.

Lemma not_blank c : c <> " "%char -> c <> TAB -> in_set false [" "%char; TAB] c = false.
Proof.
  intros H1 H2. unfold in_set. rewrite bool_decide_eq_false_2; [done|].
  by intros [->|[->|[]%elem_of_nil]%elem_of_cons]%elem_of_cons.
Qed.

Lemma scan_blanks_fail a fmt c r acc :
  c <> " "%char -> c <> TAB ->
  scan (DSet a false [" "%char; TAB] :: fmt) (c :: r) acc = scan_stop false acc.
Proof. intros H1 H2. cbn [scan span]. by rewrite not_blank. Qed.

(** X6: a layout record is read when it starts with blanks, a double quote
    and more blanks before its index; its type, full name and pin are then
    stored at the index.  A line that does not start with a blank, and a
    record whose index follows the quote at once, store nothing. *)
Theorem layout_record_read :
  (forall g b1 b2 ds w1 cell w2 name w3 type w4 dflt rest,
     wf_globals g ->
     blanks b1 -> blanks b2 -> digits ds -> spaces w1 -> digits cell ->
     spaces w2 -> field (str ",") name -> spaces w3 -> field (str ",") type ->
     spaces w4 -> field (str ",)") dflt -> stops (in_set true (str ",)")) rest ->
     decimal ds < MAX_BOUNDARY_BITS ->
     bsdl_line g (record_text b1 b2 ds w1 cell w2 name w3 type w4 dflt rest)
     = Ok (set_boundary_bits g
             (<[Z.to_nat (decimal ds) := Some type]> (boundary_bit_type g))
             (<[Z.to_nat (decimal ds) := Some name]> (boundary_bit_fullname g))
             (<[Z.to_nat (decimal ds) := Some (after_underscores name name)]>
                (boundary_bit_pin g)),
           []))
  /\ (forall g c line,
        c <> " "%char -> c <> TAB -> scan_bit g (c :: line) = Ok g)
  /\ (forall g b1 c rest,
        blanks b1 -> c <> " "%char -> c <> TAB ->
        scan_bit g (b1 ++ DQUOTE :: c :: rest) = Ok g).
Proof.
  split; [intros; by apply bsdl_line_record_text|]. split.
  - intros g c line H1 H2. unfold scan_bit. rewrite sscanf_bit.
    unfold bit_directives. by rewrite scan_blanks_fail.
  - intros g b1 c rest Hb1 H1 H2. unfold scan_bit. rewrite sscanf_bit.
    change bit_directives
      with (DSet false false [" "%char; TAB] :: (DChar <$> [DQUOTE])
            ++ DSet false false [" "%char; TAB] :: DInt true :: DSpace
            :: (DChar <$> str "(BC_") ++ DInt false :: (DChar <$> str ",") ++ DSpace
            :: DSet true true (str ",") :: (DChar <$> str ",") ++ DSpace
            :: DSet true true (str ",") :: (DChar <$> str ",") ++ DSpace
            :: DSet true true (str ",)") :: []).
    change (b1 ++ DQUOTE :: c :: rest) with (b1 ++ [DQUOTE] ++ c :: rest).
    rewrite scan_set; [|by destruct Hb1|by apply blanks_in_set|done].
    rewrite scan_chars. by rewrite scan_blanks_fail.
Qed.

(** ** parse_bsdl on a layout file in the usual form *)















(** ** parse_xdc: the names a line yields *)

Lemma not_nul_forall s :
  NUL ∉ s -> Forall (fun c => negb (chr_eq c NUL) = true) s.
Proof.
  intros Hs. apply Forall_forall. intros c Hc.
  apply negb_true_iff, chr_eq_false. by intros ->.
Qed.

Lemma cstr_app_nul s r : NUL ∉ s -> cstr (s ++ NUL :: r) = s.
Proof.
  intros Hs. unfold cstr.
  by rewrite (span_stops _ s (NUL :: r)) by (by apply not_nul_forall || done).
Qed.

Lemma cstr_at_app A s r :
  NUL ∉ s -> cstr_at (A ++ s ++ NUL :: r) (length A) = Ok s.
Proof.
  intros Hs. unfold cstr_at. rewrite drop_app_length.
  by rewrite (span_stops _ s (NUL :: r)) by (by apply not_nul_forall || done).
Qed.

Lemma rewrite_from_app A l t f :
  f l = Some t -> rewrite_from (A ++ l) (length A) f = Ok (A ++ t).
Proof.
  intros Hf. unfold rewrite_from. by rewrite drop_app_length, Hf, take_app_length.
Qed.

Lemma cut_at_space_app pin r :
  (" "%char) ∉ pin -> NUL ∉ pin ->
  cut_at_space (pin ++ " "%char :: r) = Some (pin ++ NUL :: r).
Proof.
  induction pin as [|c pin IH]; intros Hsp Hnul; [done|].
  apply not_elem_of_cons in Hsp as [Hc1 Hsp]. apply not_elem_of_cons in Hnul as [Hc2 Hnul].
  cbn [app cut_at_space].
  replace (chr_eq c NUL) with false by (symmetry; by apply chr_eq_false).
  replace (chr_eq c " ") with false by (symmetry; by apply chr_eq_false).
  by rewrite IH.
Qed.

Lemma cut_at_bracket_app s r : forall depth,
  brackets_matched depth s = true -> NUL ∉ s ->
  cut_at_bracket depth (s ++ "]"%char :: r) = Some (s ++ NUL :: r).
Proof.
  induction s as [|c s IH]; intros depth Hm Hnul.
  - cbn in Hm. apply bool_decide_eq_true in Hm. by subst depth.
  - apply not_elem_of_cons in Hnul as [Hc Hnul].
    cbn [app cut_at_bracket brackets_matched] in *.
    replace (chr_eq c NUL) with false by (symmetry; by apply chr_eq_false).
    destruct (chr_eq c "[") eqn:Ho.
    + apply chr_eq_true in Ho. subst c.
      replace (chr_eq "[" "]") with false by done. by rewrite IH.
    + destruct (chr_eq c "]") eqn:Hcl.
      * destruct depth as [|d]; [done|]. by rewrite IH.
      * by rewrite IH.
Qed.

Lemma leading_braces_app n r :
  stops (fun c => chr_eq c "{") r -> leading_braces (replicate n "{"%char ++ r) = n.
Proof.
  intros Hr. induction n as [|n IH]; cbn [replicate app leading_braces].
  - destruct r as [|c r]; [done|]. cbn in *. by rewrite Hr.
  - by rewrite IH.
Qed.

Lemma rev_replicate {A} n (x : A) : rev (replicate n x) = replicate n x.
Proof.
  induction n as [|n IH]; [done|]. cbn [replicate rev]. rewrite IH.
  symmetry. apply replicate_cons_app.
Qed.

Lemma trim_closing_app A body n r :
  NUL ∉ body -> last body <> Some "}"%char ->
  trim_closing (A ++ body ++ replicate n "}"%char ++ NUL :: r) (length A)
  = A ++ body ++ replicate n NUL ++ NUL :: r.
Proof.
  intros Hnul Hlast. unfold trim_closing. rewrite drop_app_length.
  assert (NUL ∉ body ++ replicate n "}"%char) as Hs.
  { intros [H|H]%elem_of_app; [done|]. by apply elem_of_replicate in H as [? _]. }
  rewrite (app_assoc body). rewrite cstr_app_nul by done.
  rewrite rev_app_distr, rev_replicate.
  rewrite (span_stops (fun c => chr_eq c "}") (replicate n "}"%char) (rev body)).
  - assert (A ++ (body ++ replicate n "}"%char) ++ NUL :: r
            = (A ++ body) ++ replicate n "}"%char ++ NUL :: r) as E1
      by (by rewrite <- !app_assoc).
    assert ((A ++ body) ++ replicate n "}"%char ++ NUL :: r
            = (A ++ body ++ replicate n "}"%char) ++ NUL :: r) as E2
      by (by rewrite <- !app_assoc).
    rewrite E1. rewrite take_app_length'
      by (rewrite !length_app, !length_replicate; lia).
    rewrite E2. rewrite drop_app_length'
      by (rewrite !length_app, !length_replicate; lia).
    rewrite length_replicate. by rewrite <- !app_assoc.
  - apply Forall_forall. by intros c [-> _]%elem_of_replicate.
  - destruct body as [|c body' _] using rev_ind; [done|].
    rewrite rev_app_distr. cbn. apply chr_eq_false. intros ->.
    by rewrite last_snoc in Hlast.
Qed.

Lemma brackets_matched_opens n s : forall depth,
  brackets_matched depth (replicate n "{"%char ++ s) = brackets_matched depth s.
Proof. induction n as [|n IH]; intros depth; [done|]. cbn. apply IH. Qed.

Lemma brackets_matched_closes n s : forall depth,
  brackets_matched depth (s ++ replicate n "}"%char) = brackets_matched depth s.
Proof.
  induction s as [|c s IH]; intros depth.
  - induction n as [|n IHn]; [done|]. cbn in *. apply IHn.
  - cbn [app brackets_matched]. destruct (chr_eq c "["); [apply IH|].
    destruct (chr_eq c "]"); [|apply IH]. destruct depth; [done|apply IH].
Qed.

Ltac list_length :=
  repeat first [rewrite length_app | rewrite length_replicate
               | progress cbn [length str list_ascii_of_string]].

Lemma read_into_length line0 chunk :
  (length chunk < length line0)%nat -> length (read_into line0 chunk) = length line0.
Proof.
  intros H. unfold read_into. rewrite length_app. cbn [length]. rewrite length_drop. lia.
Qed.

(** A constraint line yields the pin after PACKAGE_PIN, up to the next
    space, and the port after get_ports, up to the bracket that closes the
    command, without the braces around it. *)
Lemma xdc_line_constraint line0 chunk pre pin mid opens body closes post :
  chunk = constraint_text pre pin mid opens body closes post ->
  length line0 = LINE_SIZE -> (length chunk < LINE_SIZE)%nat ->
  NUL ∉ chunk -> head chunk <> Some "#"%char ->
  strstr chunk (str "PACKAGE_PIN") = Some (length pre) ->
  strstr chunk (str "get_ports")
  = Some (length (pre ++ str "PACKAGE_PIN " ++ pin ++ str " " ++ mid)) ->
  (" "%char) ∉ pin -> brackets_matched 0 body = true ->
  head body <> Some "{"%char -> last body <> Some "}"%char ->
  exists line',
    xdc_line (read_into line0 chunk) = Ok (line', Some (pin, body))
    /\ length line' = LINE_SIZE.
Proof.
  intros Hchunk Hline0 Hlen Hnul Hhead Hpp Hgp Hpin Hbr Hopen Hclose.
  pose proof (read_into_length line0 chunk ltac:(lia)) as Hlen1.
  unfold xdc_line, read_into in *.
  set (tail := drop (Datatypes.S (length chunk)) line0) in *.
  rewrite cstr_app_nul by done. rewrite Hpp, Hgp. cbn [fmap option_fmap option_map].
  assert (head (chunk ++ NUL :: tail) = head chunk) as ->.
  { rewrite Hchunk. unfold constraint_text. by destruct pre. }
  rewrite bool_decide_eq_false_2 by done.
  assert ((NUL ∉ pre) /\ (NUL ∉ pin) /\ (NUL ∉ mid) /\ (NUL ∉ body) /\ (NUL ∉ post))
    as (Hn1 & Hn2 & Hn3 & Hn4 & Hn5).
  { rewrite Hchunk in Hnul. unfold constraint_text in Hnul.
    rewrite !not_elem_of_app in Hnul. tauto. }
  set (sig := replicate opens "{"%char ++ body ++ replicate closes "}"%char).
  set (A := pre ++ str "PACKAGE_PIN ").
  set (B := A ++ pin ++ NUL :: mid ++ str "get_ports ").
  assert (chunk ++ NUL :: tail
          = A ++ pin ++ " "%char :: mid ++ str "get_ports " ++ sig ++ "]"%char
              :: post ++ NUL :: tail) as ->.
  { rewrite Hchunk. unfold constraint_text, A, sig. by rewrite <- !app_assoc. }
  assert ((length pre + length (str "PACKAGE_PIN "))%nat = length A) as ->
    by (unfold A; by rewrite length_app).
  rewrite (rewrite_from_app A _ _ _ (cut_at_space_app pin _ Hpin Hn2)).
  cbn [mbind outcome_bind].
  assert ((length (pre ++ str "PACKAGE_PIN " ++ pin ++ str " " ++ mid)
           + length (str "get_ports "))%nat = length B) as ->.
  { unfold B, A. list_length. lia. }
  assert (A ++ pin ++ NUL :: mid ++ str "get_ports " ++ sig ++ "]"%char
            :: post ++ NUL :: tail
          = B ++ sig ++ "]"%char :: post ++ NUL :: tail) as ->.
  { unfold B. rewrite <- !app_assoc. cbn [app]. by rewrite <- !app_assoc. }
  assert (NUL ∉ sig) as Hnsig.
  { unfold sig. rewrite !not_elem_of_app. split; [|split; [done|]];
      by intros [? _]%elem_of_replicate. }
  assert (brackets_matched 0 sig = true) as Hbsig.
  { unfold sig. by rewrite brackets_matched_opens, brackets_matched_closes. }
  rewrite (rewrite_from_app B _ _ _ (cut_at_bracket_app sig _ 0%nat Hbsig Hnsig)).
  cbn [mbind outcome_bind]. rewrite drop_app_length.
  assert (leading_braces (sig ++ NUL :: post ++ NUL :: tail) = opens) as ->.
  { unfold sig. rewrite <- app_assoc. apply leading_braces_app.
    destruct body as [|c body']; cbn.
    - by destruct closes.
    - apply chr_eq_false. by intros ->. }
  set (C := B ++ replicate opens "{"%char).
  assert ((length B + opens)%nat = length C) as ->
    by (unfold C; by rewrite length_app, length_replicate).
  assert (B ++ sig ++ NUL :: post ++ NUL :: tail
          = C ++ body ++ replicate closes "}"%char ++ NUL :: post ++ NUL :: tail) as ->.
  { unfold C, sig. by rewrite <- !app_assoc. }
  rewrite trim_closing_app by done.
  assert (cstr_at (C ++ body ++ replicate closes NUL ++ NUL :: post ++ NUL :: tail)
            (length A) = Ok pin) as ->.
  { unfold C, B. rewrite <- !app_assoc. by apply cstr_at_app. }
  cbn [mbind outcome_bind].
  assert (cstr_at (C ++ body ++ replicate closes NUL ++ NUL :: post ++ NUL :: tail)
            (length C) = Ok body) as ->.
  { destruct closes; cbn [replicate app]; by apply cstr_at_app. }
  cbn [mbind outcome_bind]. eexists. split; [done|].
  rewrite <- Hline0, <- Hlen1. rewrite Hchunk.
  unfold C, B, A, sig, constraint_text. list_length. lia.
Qed.

(** ** parse_xdc: reads inside and outside the line buffer *)

Lemma keeps_nuls_refl l : keeps_nuls l l.
Proof. by split. Qed.

Lemma keeps_nuls_trans l1 l2 l3 : keeps_nuls l1 l2 -> keeps_nuls l2 l3 -> keeps_nuls l1 l3.
Proof. intros [H1 K1] [H2 K2]. split; [congruence|auto]. Qed.

Lemma keeps_nuls_cons c l l' : keeps_nuls l l' -> keeps_nuls (c :: l) (c :: l').
Proof.
  intros [Hl Hk]. split; [cbn; by rewrite Hl|].
  intros [|k]; [done|]. apply Hk.
Qed.

Lemma cut_at_space_keeps l :
  NUL ∈ l -> exists t, cut_at_space l = Some t /\ keeps_nuls l t.
Proof.
  induction l as [|c r IH]; intros Hin; [by apply elem_of_nil in Hin|].
  cbn [cut_at_space]. destruct (chr_eq c NUL) eqn:Hc.
  { exists (c :: r). split; [done|apply keeps_nuls_refl]. }
  apply chr_eq_false in Hc.
  destruct (chr_eq c " ") eqn:Hs.
  { exists (NUL :: r). split; [done|]. split; [done|]. intros [|k]; [|done].
    by intros [= ->]. }
  apply elem_of_cons in Hin as [Heq|Hin]; [done|].
  destruct (IH Hin) as (t & -> & Hk). exists (c :: t). split; [done|].
  by apply keeps_nuls_cons.
Qed.

Lemma cut_at_bracket_keeps l : forall depth,
  NUL ∈ l -> exists t, cut_at_bracket depth l = Some t /\ keeps_nuls l t.
Proof.
  induction l as [|c r IH]; intros depth Hin; [by apply elem_of_nil in Hin|].
  cbn [cut_at_bracket]. destruct (chr_eq c NUL) eqn:Hc.
  { exists (c :: r). split; [done|apply keeps_nuls_refl]. }
  apply chr_eq_false in Hc.
  apply elem_of_cons in Hin as [Heq|Hin]; [done|].
  assert (forall d, exists t, (cons c <$> cut_at_bracket d r) = Some t
                              /\ keeps_nuls (c :: r) t) as Hrec.
  { intros d. destruct (IH d Hin) as (t & -> & Hk). exists (c :: t).
    split; [done|]. by apply keeps_nuls_cons. }
  destruct (chr_eq c "]"); [|apply Hrec].
  destruct (if chr_eq c "[" then _ else _) as [|d]; [|apply Hrec].
  exists (NUL :: r). split; [done|]. split; [done|]. intros [|k]; [|done].
  by intros [= ->].
Qed.

Lemma rewrite_from_keeps L p n f :
  (forall l, NUL ∈ l -> exists t, f l = Some t /\ keeps_nuls l t) ->
  (p <= n)%nat -> L !! n = Some NUL ->
  exists L', rewrite_from L p f = Ok L' /\ keeps_nuls L L'.
Proof.
  intros Hf Hp Hn. unfold rewrite_from.
  assert (n < length L)%nat as Hlt by (by eapply lookup_lt_Some).
  destruct (Hf (drop p L)) as (t & -> & Hlen & Hk).
  { apply list_elem_of_lookup. exists (n - p)%nat. rewrite lookup_drop.
    by replace (p + (n - p))%nat with n by lia. }
  eexists. split; [done|]. rewrite length_drop in Hlen. split.
  - rewrite length_app, length_take. lia.
  - intros k HkL. destruct (decide (k < p)%nat) as [Hlt'|Hge].
    + rewrite lookup_app_l by (rewrite length_take; lia).
      by rewrite lookup_take_lt.
    + rewrite lookup_app_r by (rewrite length_take; lia).
      rewrite length_take. replace (p `min` length L)%nat with p by lia.
      apply Hk. rewrite lookup_drop. by replace (p + (k - p))%nat with k by lia.
Qed.

Lemma leading_braces_bound l : forall k,
  l !! k = Some NUL -> (leading_braces l <= k)%nat.
Proof.
  induction l as [|c r IH]; intros k Hk; [done|]. cbn [leading_braces].
  destruct (chr_eq c "{") eqn:Hc; [|lia]. apply chr_eq_true in Hc. subst c.
  destruct k as [|k]; [done|]. apply IH in Hk. lia.
Qed.

Lemma trim_closing_keeps L p :
  (p <= length L)%nat -> keeps_nuls L (trim_closing L p).
Proof.
  intros Hp. unfold trim_closing.
  pose proof (cstr_length (drop p L)) as Hs. rewrite length_drop in Hs.
  pose proof (span_length (fun c => chr_eq c "}") (rev (cstr (drop p L)))) as Hb.
  rewrite length_rev in Hb.
  destruct (span _ (rev (cstr (drop p L)))) as [braces rest]. cbn [fst snd] in Hb.
  set (s := cstr (drop p L)) in *.
  split.
  - rewrite !length_app, length_take, length_replicate, length_drop. lia.
  - intros k Hk. assert (k < length L)%nat as Hlt by (by eapply lookup_lt_Some).
    destruct (decide (k < p + (length s - length braces))%nat) as [H1|H1].
    { rewrite lookup_app_l by (rewrite length_take; lia). by rewrite lookup_take_lt. }
    rewrite lookup_app_r by (rewrite length_take; lia).
    rewrite length_take.
    replace ((p + (length s - length braces)) `min` length L)%nat
      with (p + (length s - length braces))%nat by lia.
    destruct (decide (k < p + length s)%nat) as [H2|H2].
    { rewrite lookup_app_l by (rewrite length_replicate; lia).
      apply lookup_replicate. split; [done|lia]. }
    rewrite lookup_app_r by (rewrite length_replicate; lia).
    rewrite length_replicate, lookup_drop. rewrite <- Hk. f_equal. lia.
Qed.

Lemma span_rest {A} (p : A -> bool) l x :
  x ∈ l -> p x = false -> snd (span p l) <> [].
Proof.
  intros Hin Hx. induction l as [|c r IH]; [by apply elem_of_nil in Hin|].
  cbn [span]. destruct (p c) eqn:Hc; [|done].
  apply elem_of_cons in Hin as [Heq|Hin]; [congruence|].
  destruct (span p r). cbn in *. by apply IH.
Qed.

Lemma cstr_at_ok L p n :
  (p <= n)%nat -> L !! n = Some NUL -> exists s, cstr_at L p = Ok s.
Proof.
  intros Hp Hn. unfold cstr_at.
  pose proof (span_rest (fun c => negb (chr_eq c NUL)) (drop p L) NUL) as Hrest.
  destruct (span _ (drop p L)) as [s [|c rest]]; [|by eexists].
  exfalso. apply Hrest; [|done|done].
  apply list_elem_of_lookup. exists (n - p)%nat. rewrite lookup_drop.
  by replace (p + (n - p))%nat with n by lia.
Qed.

(** A line whose two pointers stay before a terminator is handled without
    a read outside the buffer. *)
Lemma xdc_line_terminated L n :
  L !! n = Some NUL ->
  (forall o, strstr (cstr L) (str "PACKAGE_PIN") = Some o -> (o + 12 <= n)%nat) ->
  (forall o, strstr (cstr L) (str "get_ports") = Some o -> (o + 10 <= n)%nat) ->
  exists L' found, xdc_line L = Ok (L', found) /\ keeps_nuls L L'.
Proof.
  intros Hn Hpp Hgp. unfold xdc_line.
  destruct (bool_decide _); [exists L, None; split; [done|apply keeps_nuls_refl]|].
  destruct (strstr (cstr L) (str "PACKAGE_PIN")) as [o1|] eqn:E1;
    cbn [fmap option_fmap option_map].
  - specialize (Hpp o1 eq_refl). change (length (str "PACKAGE_PIN ")) with 12%nat.
    destruct (rewrite_from_keeps L (o1 + 12) n cut_at_space cut_at_space_keeps Hpp Hn)
      as (L1 & -> & K1).
    cbn [mbind outcome_bind].
    destruct (strstr (cstr L) (str "get_ports")) as [o2|] eqn:E2;
      cbn [fmap option_fmap option_map mbind outcome_bind].
    + specialize (Hgp o2 eq_refl). change (length (str "get_ports ")) with 10%nat.
      destruct (rewrite_from_keeps L1 (o2 + 10) n (cut_at_bracket 0)
                  (fun l => cut_at_bracket_keeps l 0%nat) Hgp (proj2 K1 _ Hn))
        as (L2 & -> & K2).
      cbn [mbind outcome_bind].
      pose proof (proj2 K2 _ (proj2 K1 _ Hn)) as Hn2.
      assert (o2 + 10 + leading_braces (drop (o2 + 10) L2) <= n)%nat as Hsp.
      { pose proof (leading_braces_bound (drop (o2 + 10) L2) (n - (o2 + 10))) as Hb.
        rewrite lookup_drop in Hb.
        replace (o2 + 10 + (n - (o2 + 10)))%nat with n in Hb by lia.
        specialize (Hb Hn2). lia. }
      assert (n < length L2)%nat as Hlt by (by eapply lookup_lt_Some).
      pose proof (trim_closing_keeps L2
                    (o2 + 10 + leading_braces (drop (o2 + 10) L2)) ltac:(lia)) as K3.
      pose proof (proj2 K3 _ Hn2) as Hn3.
      destruct (cstr_at_ok _ (o1 + 12) n Hpp Hn3) as [pin ->].
      destruct (cstr_at_ok _ _ n Hsp Hn3) as [signal ->].
      cbn [mbind outcome_bind]. eexists _, _. split; [done|].
      eauto using keeps_nuls_trans.
    + eexists _, _. split; [done|]. done.
  - cbn [mbind outcome_bind].
    destruct (strstr (cstr L) (str "get_ports")) as [o2|] eqn:E2;
      cbn [fmap option_fmap option_map mbind outcome_bind].
    + specialize (Hgp o2 eq_refl). change (length (str "get_ports ")) with 10%nat.
      destruct (rewrite_from_keeps L (o2 + 10) n (cut_at_bracket 0)
                  (fun l => cut_at_bracket_keeps l 0%nat) Hgp Hn)
        as (L2 & -> & K2).
      cbn [mbind outcome_bind].
      assert (n < length L2)%nat as Hlt by (eapply lookup_lt_Some; by apply K2).
      assert (o2 + 10 + leading_braces (drop (o2 + 10) L2) <= n)%nat as Hsp.
      { pose proof (leading_braces_bound (drop (o2 + 10) L2) (n - (o2 + 10))) as Hb.
        rewrite lookup_drop in Hb.
        replace (o2 + 10 + (n - (o2 + 10)))%nat with n in Hb by lia.
        specialize (Hb (proj2 K2 _ Hn)). lia. }
      pose proof (trim_closing_keeps L2
                    (o2 + 10 + leading_braces (drop (o2 + 10) L2)) ltac:(lia)) as K3.
      eexists _, _. split; [done|]. eauto using keeps_nuls_trans.
    + eexists _, _. split; [done|]. apply keeps_nuls_refl.
Qed.

Lemma find_sub_found eqc needle : forall hay o,
  find_sub eqc needle hay = Some o ->
  prefix_by eqc needle (drop o hay) = true.
Proof.
  induction hay as [|c hay IH]; intros o.
  - cbn. destruct (prefix_by eqc needle []) eqn:E; [|done]. by intros [= <-].
  - cbn [find_sub]. destruct (prefix_by eqc needle (c :: hay)) eqn:E.
    + by intros [= <-].
    + destruct (find_sub eqc needle hay) as [o'|]; [|done]. intros [= <-].
      by apply IH.
Qed.

Lemma prefix_by_exact needle : forall l,
  prefix_by chr_eq needle l = true -> exists rest, l = needle ++ rest.
Proof.
  induction needle as [|a needle IH]; intros l; [by exists l|].
  destruct l as [|b l]; [done|]. cbn [prefix_by].
  intros [Hb Hl]%andb_prop. apply chr_eq_true in Hb. subst b.
  destruct (IH l Hl) as [rest ->]. by exists rest.
Qed.

Lemma strstr_found hay needle o :
  strstr hay needle = Some o ->
  exists rest, drop o hay = needle ++ rest.
Proof. intros H. by apply prefix_by_exact, find_sub_found. Qed.

(** A keyword found in a line that ends in a newline is followed by at
    least one character of the line. *)
Lemma strstr_before_newline chunk needle o :
  last chunk = Some NL -> NL ∉ needle -> needle <> [] ->
  strstr chunk needle = Some o ->
  (o + length needle + 1 <= length chunk)%nat.
Proof.
  intros Hlast Hnl Hne Hfind.
  destruct (strstr_found _ _ _ Hfind) as [rest Hdrop].
  assert (length (drop o chunk) = length needle + length rest)%nat as Hlen
    by (by rewrite Hdrop, length_app).
  rewrite length_drop in Hlen.
  destruct rest as [|c rest]; [|cbn in Hlen; lia].
  exfalso. rewrite app_nil_r in Hdrop.
  rewrite <- (take_drop o chunk), Hdrop in Hlast.
  rewrite last_app in Hlast.
  destruct (last needle) as [x|] eqn:E; [|by apply last_None in E].
  injection Hlast as ->. apply Hnl. apply last_Some in E as [l' ->].
  apply elem_of_app. right. apply list_elem_of_here.
Qed.

Lemma read_into_nul line0 chunk :
  read_into line0 chunk !! length chunk = Some NUL.
Proof. unfold read_into. by rewrite list_lookup_middle. Qed.

(** A line that ends in a newline is handled without a read outside the
    buffer. *)
Lemma xdc_line_newline line0 chunk :
  length line0 = LINE_SIZE -> (length chunk < LINE_SIZE)%nat ->
  NUL ∉ chunk -> last chunk = Some NL ->
  exists line' found,
    xdc_line (read_into line0 chunk) = Ok (line', found)
    /\ length line' = LINE_SIZE.
Proof.
  intros Hline0 Hlen Hnul Hlast.
  destruct (xdc_line_terminated (read_into line0 chunk) (length chunk))
    as (L' & found & Hline & Hlen' & _).
  - apply read_into_nul.
  - intros o. unfold read_into. rewrite cstr_app_nul by done. intros Ho.
    apply strstr_before_newline in Ho; [cbn in Ho; lia|done| |done].
    intros Hin. vm_compute in Hin. by repeat (apply elem_of_cons in Hin as [?|Hin]);
      try by apply elem_of_nil in Hin.
  - intros o. unfold read_into. rewrite cstr_app_nul by done. intros Ho.
    apply strstr_before_newline in Ho; [cbn in Ho; lia|done| |done].
    intros Hin. vm_compute in Hin. by repeat (apply elem_of_cons in Hin as [?|Hin]);
      try by apply elem_of_nil in Hin.
  - exists L', found. split; [done|].
    rewrite Hlen', read_into_length; [done|lia].
Qed.

Lemma xdc_mappings_newlines chunks : forall line,
  length line = LINE_SIZE ->
  Forall (fun c => (length c < LINE_SIZE)%nat /\ (NUL ∉ c) /\ last c = Some NL) chunks ->
  exists ms, xdc_mappings chunks line = Ok ms.
Proof.
  induction chunks as [|chunk chunks IH]; intros line Hline Hall; [by exists []|].
  apply Forall_cons_1 in Hall as [(Hlen & Hnul & Hlast) Hall].
  cbn [xdc_mappings]. destruct (bool_decide _); [by exists []|].
  destruct (xdc_line_newline line chunk Hline Hlen Hnul Hlast)
    as (line' & found & -> & Hlen').
  cbn [mbind outcome_bind]. destruct (IH line' Hlen' Hall) as [ms ->].
  cbn [mbind outcome_bind]. by eexists.
Qed.

(** X8: on a file without zero bytes in which [fgets] gets every line whole,
    [parse_xdc] reads nothing outside its line buffer: it returns, or stops at
    the store of mapping 4097. *)
Theorem complete_lines_stay_in_buffer file line0 g records :
  length line0 = LINE_SIZE -> NUL ∉ file ->
  Forall (fun chunk => last chunk = Some NL) (fgets_results file) ->
  wf_globals g -> holds_mappings g records ->
  (exists g', parse_xdc (Some file) line0 g = Ok g')
  \/ parse_xdc (Some file) line0 g = Fault (OutOfBounds PinNames MAX_PINS).
Proof.
  intros Hline0 Hnul Hnl Hwf Hrec. unfold parse_xdc.
  destruct (xdc_mappings_newlines (fgets_results file) line0 Hline0) as [ms Hms].
  { pose proof (fgets_results_lines file) as Hlines.
    rewrite Forall_forall in *. intros c Hc.
    destruct (Hlines c Hc) as [[_ Hlen] _].
    split; [unfold LINE_SIZE in *; lia|]. split; [|by apply Hnl].
    by eapply fgets_results_no_nul. }
  pose proof (parse_xdc_loop_spec _ _ _ _ _ Hwf Hrec Hms) as Hspec.
  destruct (decide _); [|by right].
  destruct Hspec as (g' & -> & _). left. by exists g'.
Qed.

Lemma file_chunks_whole rest : forall chunk room cur,
  length chunk = room -> (1 <= room)%nat -> NL ∉ chunk ->
  file_chunks room cur (chunk ++ rest) = (cur ++ chunk) :: fgets_results rest.
Proof.
  induction chunk as [|c chunk IH]; intros room cur Hlen Hroom Hnl; [cbn in Hlen; lia|].
  apply not_elem_of_cons in Hnl as [Hc Hnl].
  cbn [app file_chunks].
  replace (chr_eq c NL) with false by (symmetry; apply chr_eq_false; congruence).
  destruct room as [|[|room]]; [lia| |].
  - destruct chunk; [done|cbn in Hlen; lia].
  - rewrite IH; [by rewrite <- app_assoc|cbn in Hlen; lia|lia|done].
Qed.

(** X9: a line of 1023 characters or more whose first PACKAGE_PIN ends at
    character 1023 makes [parse_xdc] read [line[1024]], one past the end
    of the buffer. *)
Theorem keyword_at_end_reads_past_buffer pre rest line0 g :
  length line0 = LINE_SIZE -> length pre = 1012%nat ->
  NUL ∉ pre -> NL ∉ pre -> head pre <> Some "#"%char ->
  strstr (pre ++ str "PACKAGE_PIN") (str "PACKAGE_PIN") = Some (length pre) ->
  parse_xdc (Some (pre ++ str "PACKAGE_PIN" ++ rest)) line0 g
  = Fault (OutOfBounds LineBuf 1024).
Proof.
  intros Hline0 Hpre Hnul Hnl Hhead Hfind. unfold parse_xdc, fgets_results.
  rewrite app_assoc.
  assert (NUL ∉ pre ++ str "PACKAGE_PIN") as Hnul'.
  { intros [H|H]%elem_of_app; [done|]. vm_compute in H.
    by repeat (apply elem_of_cons in H as [?|H]); try by apply elem_of_nil in H. }
  rewrite file_chunks_whole.
  2:{ rewrite length_app, Hpre. done. }
  2:{ unfold LINE_SIZE. lia. }
  2:{ intros [H|H]%elem_of_app; [done|]. vm_compute in H.
      by repeat (apply elem_of_cons in H as [?|H]); try by apply elem_of_nil in H. }
  cbn [app parse_xdc_loop].
  assert (read_into line0 (pre ++ str "PACKAGE_PIN")
          = (pre ++ str "PACKAGE_PIN") ++ [NUL]) as ->.
  { unfold read_into. rewrite drop_ge; [done|].
    rewrite length_app, Hpre, Hline0. done. }
  destruct pre as [|c pre']; [done|].
  assert (c <> NUL) as Hc by (intros ->; apply Hnul; apply list_elem_of_here).
  rewrite bool_decide_eq_false_2 by (cbn; congruence).
  unfold xdc_line.
  rewrite bool_decide_eq_false_2 by done.
  rewrite cstr_app_nul by done. rewrite Hfind.
  cbn [fmap option_fmap option_map]. unfold rewrite_from.
  rewrite drop_ge by (list_length; cbn [length] in *; lia).
  cbn [cut_at_space mbind outcome_bind]. do 3 f_equal.
  list_length. cbn [length] in *. lia.
Qed.

(** ** parse_xdc on a file of whole lines *)

Lemma xdc_line_found L L' m :
  xdc_line L = Ok (L', Some m) ->
  head L <> Some "#"%char
  /\ is_Some (strstr (cstr L) (str "PACKAGE_PIN"))
  /\ is_Some (strstr (cstr L) (str "get_ports")).
Proof.
  unfold xdc_line. case_bool_decide as Hhead; [done|].
  destruct (strstr (cstr L) (str "PACKAGE_PIN")) as [o1|];
    cbn [fmap option_fmap option_map].
  - destruct (rewrite_from L _ cut_at_space) as [L1| |]; cbn [mbind outcome_bind];
      [|done..].
    destruct (strstr (cstr L) (str "get_ports")) as [o2|];
      cbn [fmap option_fmap option_map mbind outcome_bind]; [|done].
    intros _. by repeat split.
  - cbn [mbind outcome_bind].
    destruct (strstr (cstr L) (str "get_ports")) as [o2|];
      cbn [fmap option_fmap option_map mbind outcome_bind]; [|done].
    by destruct (rewrite_from L _ (cut_at_bracket 0)).
Qed.

Lemma xdc_line_yields line0 chunk found :
  length line0 = LINE_SIZE -> whole_line chunk -> NUL ∉ chunk ->
  line_yields chunk found ->
  exists line',
    xdc_line (read_into line0 chunk) = Ok (line', found)
    /\ length line' = LINE_SIZE.
Proof.
  intros Hline0 (Hlen & body & Hbody & Hnl) Hnul Hy.
  assert (last chunk = Some NL) as Hlast by (by rewrite Hbody, last_snoc).
  destruct (xdc_line_newline line0 chunk Hline0 Hlen Hnul Hlast)
    as (line1 & found1 & Hline & Hlen1).
  assert (head (read_into line0 chunk) = head chunk) as Hhd.
  { unfold read_into. rewrite Hbody. by destruct body. }
  assert (cstr (read_into line0 chunk) = chunk) as Hcstr
    by (unfold read_into; by rewrite cstr_app_nul).
  destruct Hy as [chunk Hc|chunk Hk|chunk pre pin mid opens body' closes post
                    Hc Hh Hpp Hgp Hpin Hbr Hop Hcl].
  - exists (read_into line0 chunk). split; [|rewrite read_into_length; [done|lia]].
    unfold xdc_line. by rewrite Hhd, bool_decide_eq_true_2.
  - exists line1. split; [|done]. rewrite Hline. do 2 f_equal.
    destruct found1 as [m|]; [|done].
    apply xdc_line_found in Hline as (_ & [o1 H1] & [o2 H2]).
    rewrite Hcstr in H1, H2. destruct Hk; congruence.
  - by eapply xdc_line_constraint.
Qed.

Lemma xdc_mappings_yield lines : forall founds line0,
  length line0 = LINE_SIZE -> Forall whole_line lines ->
  Forall (fun line => NUL ∉ line) lines ->
  Forall2 line_yields lines founds ->
  xdc_mappings lines line0 = Ok (omap id founds).
Proof.
  induction lines as [|chunk lines IH]; intros founds line0 Hline0 Hwhole Hnul Hy.
  - by apply Forall2_nil_inv_l in Hy as ->.
  - apply Forall2_cons_inv_l in Hy as (found & founds' & Hy1 & Hy & ->).
    apply Forall_cons_1 in Hwhole as [Hw Hwhole].
    apply Forall_cons_1 in Hnul as [Hn Hnul].
    cbn [xdc_mappings].
    rewrite bool_decide_eq_false_2.
    2:{ unfold read_into. destruct Hw as (_ & body & -> & _).
        destruct body as [|c body]; [done|]. cbn. intros [= ->]. apply Hn.
        apply list_elem_of_here. }
    destruct (xdc_line_yields line0 chunk found Hline0 Hw Hn Hy1) as (line' & -> & Hlen').
    cbn [mbind outcome_bind]. rewrite (IH founds' line') by done.
    cbn [mbind outcome_bind omap list_omap]. by destruct found.
Qed.

Lemma parse_xdc_lines lines founds line0 g records :
  length line0 = LINE_SIZE -> Forall whole_line lines ->
  Forall (fun line => NUL ∉ line) lines ->
  Forall2 line_yields lines founds ->
  wf_globals g -> holds_mappings g records ->
  Z.of_nat (length records + length (omap id founds)) <= MAX_PINS ->
  exists g',
    parse_xdc (Some (concat lines)) line0 g = Ok g'
    /\ wf_globals g' /\ holds_mappings g' (records ++ omap id founds).
Proof.
  intros Hline0 Hwhole Hnul Hy Hwf Hrec Hroom. unfold parse_xdc.
  rewrite fgets_results_whole by done.
  pose proof (xdc_mappings_yield lines founds line0 Hline0 Hwhole Hnul Hy) as Hms.
  pose proof (parse_xdc_loop_spec _ _ _ _ _ Hwf Hrec Hms) as Hspec.
  rewrite decide_True in Hspec by done.
  destruct Hspec as (g' & -> & Hwf' & Hrec'). by exists g'.
Qed.

(** X10: a pin file made of whole lines is read line by line: comments and
    lines without both keywords add nothing, every constraint adds its pin
    and port, in file order, after the mappings already in the tables. *)
Theorem pin_file_read lines founds line0 g records :
  length line0 = LINE_SIZE -> pin_file_form lines founds ->
  wf_globals g -> holds_mappings g records ->
  Z.of_nat (length records + length (omap id founds)) <= MAX_PINS ->
  exists g',
    parse_xdc (Some (concat lines)) line0 g = Ok g'
    /\ holds_mappings g' (records ++ omap id founds).
Proof.
  intros Hline0 (Hwhole & Hnul & Hy) Hwf Hrec Hroom.
  destruct (parse_xdc_lines lines founds line0 g records) as (g' & ? & _ & ?);
    try done.
  by exists g'.
Qed.

(** ** The resolver: what it stores and prints *)

Lemma sensitivity_notices_0 g records sens : sensitivity_notices g records sens 0 = [].
Proof. done. Qed.

Lemma sensitivity_notices_snoc g records sens i :
  0 <= i ->
  sensitivity_notices g records sens (i + 1)
  = sensitivity_notices g records sens i
      ++ notices (Some sens) i (resolved_signal g records i).
Proof.
  intros Hi. unfold sensitivity_notices, notices.
  rewrite seqZ_app by lia. rewrite fmap_app, filter_app, fmap_app, Z.add_0_l.
  rewrite (seqZ_cons i 1), (seqZ_nil (Z.succ i)) by lia. cbn [fmap list_fmap].
  replace (0 <? i + 1) with true by (symmetry; apply Z.ltb_lt; lia).
  assert (filter (fun s => is_Some (strcasestr sens s)) [resolved_signal g records i]
          = match strcasestr sens (resolved_signal g records i) with
            | Some _ => [resolved_signal g records i]
            | None => []
            end) as ->.
  { destruct (strcasestr sens (resolved_signal g records i)) eqn:E.
    - rewrite filter_cons_True; [done|]. cbv beta. by rewrite E.
    - rewrite filter_cons_False; [done|]. cbv beta. rewrite E. by intros []. }
  destruct (Z.eqb_spec i 0) as [->|Hne].
  - cbn. by destruct (strcasestr sens _).
  - replace (0 <? i) with true by (symmetry; apply Z.ltb_lt; lia).
    rewrite <- !app_assoc. cbn [app]. do 2 f_equal.
    by destruct (strcasestr sens _).
Qed.

(** The resolver loop over the first [n] bits, with what it prints and
    what it leaves alone. *)
Lemma resolver_loop_full g records sens l out n :
  tables_ready g records (Z.of_nat n) -> (Z.of_nat n <= MAX_BOUNDARY_BITS) ->
  wf_locals l ->
  exists l',
    for_loop n 0 (resolve_bit g sens) (l, out)
    = Ok (l', out ++ from_option (fun s => sensitivity_notices g records s (Z.of_nat n))
                       [] sens)
    /\ wf_locals l' /\ resolved_below g records sens l' (Z.of_nat n)
    /\ same_from n l l'.
Proof.
  intros [Hwf Hpins Hbits] Hn Hl.
  destruct (for_loop_inv
              (fun k (st : locals * list event) =>
                 wf_locals (fst st) /\ resolved_below g records sens (fst st) k
                 /\ snd st = out ++ from_option
                                      (fun s => sensitivity_notices g records s k) [] sens
                 /\ same_from (Z.to_nat k) l (fst st))
              (resolve_bit g sens) n 0 (l, out))
    as ([l' out'] & Hloop & Hwf' & Hres & Hout & Hsame).
  - split; [done|]. split; [intros i Hi; lia|]. split; [|done].
    cbn [snd]. destruct sens; cbn; by rewrite app_nil_r.
  - intros i [l1 out1] Hi (Hwf1 & Hres1 & Hout1 & Hsame1). cbn [fst snd] in *.
    destruct (Hbits i) as ([type Hty] & _ & [pin Hpin]); [lia|].
    erewrite resolve_bit_spec;
      [|lia|done|by eapply resolve_signal_spec; [done|lia|done]|done].
    eexists. split; [done|]. destruct Hwf1 as [Hn1 Hg1 Hs1]. cbn [fst snd].
    split; [|split; [|split]].
    + split; cbn; by rewrite length_insert.
    + intros k Hk. cbn.
      destruct (decide (k = i)) as [->|Hne].
      * rewrite !list_lookup_insert_eq by lia.
        unfold name_at. by rewrite Hpin, Hty.
      * rewrite !list_lookup_insert_ne by lia. apply Hres1. lia.
    + rewrite Hout1. rewrite <- app_assoc. f_equal.
      destruct sens as [sens|]; cbn [from_option notices]; [|done].
      rewrite sensitivity_notices_snoc by lia. unfold resolved_signal, name_at.
      by rewrite Hpin.
    + intros j Hj. cbn. rewrite !list_lookup_insert_ne by lia. apply Hsame1. lia.
  - exists l'. rewrite Z.add_0_l in *. cbn [fst snd] in *. subst out'.
    rewrite Nat2Z.id in Hsame. done.
Qed.

Lemma build_resolver_full g records sens l out :
  tables_ready g records (boundary_bit_count g) ->
  boundary_bit_count g <= MAX_BOUNDARY_BITS -> wf_locals l ->
  exists l',
    build_resolver g sens l out
    = Ok (l', out ++ from_option
                       (fun s => sensitivity_notices g records s (boundary_bit_count g))
                       [] sens)
    /\ wf_locals l' /\ resolved_below g records sens l' (boundary_bit_count g)
    /\ same_from (Z.to_nat (boundary_bit_count g)) l l'.
Proof.
  intros Hready Hcount Hl. unfold build_resolver, for_range. rewrite Z.sub_0_r.
  destruct (Z.le_gt_cases 0 (boundary_bit_count g)) as [Hpos|Hneg].
  - destruct (resolver_loop_full g records sens l out (Z.to_nat (boundary_bit_count g)))
      as (l' & Hloop & Hwf & Hres & Hsame); [|lia|done|].
    + by rewrite Z2Nat.id.
    + rewrite Z2Nat.id in * by done. by exists l'.
  - replace (Z.to_nat (boundary_bit_count g)) with 0%nat by lia.
    exists l. cbn [for_loop]. split; [|split; [done|split; [|done]]].
    + do 2 f_equal. destruct sens as [sens|]; cbn [from_option]; [|by rewrite app_nil_r].
      unfold sensitivity_notices.
      replace (0 <? boundary_bit_count g) with false by (symmetry; apply Z.ltb_ge; lia).
      rewrite seqZ_nil by lia. by rewrite app_nil_r.
    + intros i Hi. lia.
Qed.

(** X11: without a sensitivity list nothing is printed and the bits ignored
    are those whose signal is CLK_IN. *)
Theorem default_ignore_is_clk_in g records l out :
  tables_ready g records (boundary_bit_count g) ->
  boundary_bit_count g <= MAX_BOUNDARY_BITS -> wf_locals l ->
  exists l',
    build_resolver g None l out = Ok (l', out)
    /\ forall i, 0 <= i < boundary_bit_count g ->
         bbit_ignore l' !! Z.to_nat i
         = Some (if bool_decide (resolved_signal g records i = str "CLK_IN")
                 then 1 else 0).
Proof.
  intros Hready Hcount Hl.
  destruct (build_resolver_full g records None l out Hready Hcount Hl)
    as (l' & Hbuild & _ & Hres & _).
  exists l'. cbn [from_option] in Hbuild. rewrite app_nil_r in Hbuild.
  split; [done|]. intros i Hi. destruct (Hres i Hi) as (_ & -> & _).
  unfold ignore_value, resolved_signal. f_equal.
  destruct (decide (str "CLK_IN" = last_match records (name_at (boundary_bit_pin g) i))).
  - by rewrite !bool_decide_eq_true_2.
  - by rewrite !bool_decide_eq_false_2.
Qed.

(** X12: a bit is shown when the type of its layout record is exactly
    "input", with or without a sensitivity list. *)
Theorem show_only_inputs g records sens l out :
  tables_ready g records (boundary_bit_count g) ->
  boundary_bit_count g <= MAX_BOUNDARY_BITS -> wf_locals l ->
  exists l' out',
    build_resolver g sens l out = Ok (l', out')
    /\ forall i type, 0 <= i < boundary_bit_count g ->
         boundary_bit_type g !! Z.to_nat i = Some (Some type) ->
         bbit_show l' !! Z.to_nat i
         = Some (if bool_decide (type = str "input") then 1 else 0).
Proof.
  intros Hready Hcount Hl.
  destruct (build_resolver_full g records sens l out Hready Hcount Hl)
    as (l' & Hbuild & _ & Hres & _).
  exists l'. eexists. split; [done|]. intros i type Hi Hty.
  destruct (Hres i Hi) as (_ & _ & ->). unfold name_at. by rewrite Hty.
Qed.

(** X13: with a sensitivity list the resolver prints the list once, when it
    handles bit 0, and then one line for every bit whose signal is found in
    it, in bit order. *)
Theorem sensitivity_notices_printed g records sens l out :
  tables_ready g records (boundary_bit_count g) ->
  boundary_bit_count g <= MAX_BOUNDARY_BITS -> wf_locals l ->
  exists l',
    build_resolver g (Some sens) l out
    = Ok (l', out
              ++ (if 0 <? boundary_bit_count g then [ApplySensitivity sens] else [])
              ++ (AddSensitivity
                    <$> filter (fun s => is_Some (strcasestr sens s))
                          (resolved_signal g records <$> seqZ 0 (boundary_bit_count g)))).
Proof.
  intros Hready Hcount Hl.
  destruct (build_resolver_full g records (Some sens) l out Hready Hcount Hl)
    as (l' & Hbuild & _).
  by exists l'.
Qed.

(** X14: the resolver writes the entries of the bits below
    [boundary_bit_count] only. *)
Theorem resolver_writes_below_count g sens l out l' out' :
  wf_locals l ->
  build_resolver g sens l out = Ok (l', out') ->
  same_from (Z.to_nat (boundary_bit_count g)) l l'
  /\ wf_locals l'.
Proof.
  intros Hl Hbuild. unfold build_resolver, for_range in Hbuild.
  rewrite Z.sub_0_r in Hbuild.
  apply (for_loop_ok_inv
           (fun k (st : locals * list event) =>
              wf_locals (fst st)
              /\ forall j, (Z.to_nat (boundary_bit_count g) <= j)%nat ->
                   bbit_names (fst st) !! j = bbit_names l !! j
                   /\ bbit_ignore (fst st) !! j = bbit_ignore l !! j
                   /\ bbit_show (fst st) !! j = bbit_show l !! j))
    in Hbuild.
  - destruct Hbuild as [Hwf Hsame]. by split.
  - by split.
  - intros i [l1 out1] [l2 out2] Hi [Hwf1 Hsame1] Hbit. cbn [fst] in *.
    destruct (resolve_bit_ok _ _ _ _ _ _ Hwf1 Hbit) as (Hin & s & type & Hs & Hty).
    rewrite (resolve_bit_spec g sens i l1 out1 s type Hin Hwf1 Hs Hty) in Hbit.
    injection Hbit as <- _. destruct Hwf1 as [Hn Hig Hsh]. split.
    + split; cbn; by rewrite length_insert.
    + intros j Hj. cbn. rewrite !list_lookup_insert_ne by lia. by apply Hsame1.
Qed.

(** ** The monitor loop: the lines of a turn, and turn after turn *)

(** X15: with a layout file, one turn of the monitor prints nothing when no
    bit satisfies the display predicate, and otherwise the time line once
    and then the line of each such bit, in increasing bit order, with the
    value of the bit in the capture.  It leaves the first 1024 bytes of the
    capture as the previous snapshot, and the next turn is not a first turn. *)
Theorem turn_prints_time_then_bits g l bsdl sens m t rdata :
  boundary_bit_count g <= MAX_BOUNDARY_BITS -> wf_locals l ->
  (1024 <= length rdata)%nat -> length (last_rdata m) = 1024%nat ->
  shown_bits_named g l (boundary_bit_count g) ->
  scan_iteration g l (Some bsdl) sens (t, rdata) m
  = Ok ({| last_rdata := take 1024 rdata; first_time := 0 |},
        match filter (fun i => Is_true (display_predicate l sens m rdata i))
                (seqZ 0 (boundary_bit_count g)) with
        | [] => []
        | shown => SignalsChanged t :: (report_line g l rdata <$> shown)
        end).
Proof. apply scan_iteration_spec. Qed.

Lemma turn_output_reports g l sens m c i :
  (exists e, e ∈ turn_output g l sens m c /\ is_report i e)
  <-> display_predicate l sens m (snd c) i = true /\ 0 <= i < boundary_bit_count g.
Proof.
  unfold turn_output, lines_below. rewrite <- displayed_elem. split.
  - intros (e & He & Hrep).
    destruct (displayed l sens m (snd c) (boundary_bit_count g)) as [|j shown] eqn:E;
      [by apply elem_of_nil in He|].
    apply elem_of_cons in He as [->|He]; [done|].
    apply list_elem_of_fmap in He as (k & -> & Hk). cbn in Hrep. by subst k.
  - intros Hi. exists (report_line g l (snd c) i). split; [|done].
    destruct (displayed l sens m (snd c) (boundary_bit_count g)) as [|j shown] eqn:E;
      [by apply elem_of_nil in Hi|].
    apply list_elem_of_further.
    exact (list_elem_of_fmap_2 (report_line g l (snd c)) _ _ Hi).
Qed.

(** The output of every turn of the loop: the first from the state the
    loop starts in, each later one from the capture before it. *)
Lemma monitor_loop_turns g l bsdl sens :
  boundary_bit_count g <= MAX_BOUNDARY_BITS -> wf_locals l ->
  shown_bits_named g l (boundary_bit_count g) ->
  forall captures m,
    Forall (fun c : Z * list byte => (1024 <= length (snd c))%nat) captures ->
    length (last_rdata m) = 1024%nat ->
    exists m' outs,
      monitor_loop g l (Some bsdl) sens captures m = Ok (m', outs)
      /\ length outs = length captures
      /\ (forall c, head captures = Some c ->
            head outs = Some (turn_output g l sens m c))
      /\ (forall k prev cur,
            captures !! k = Some prev -> captures !! Datatypes.S k = Some cur ->
            outs !! Datatypes.S k
            = Some (turn_output g l sens
                      {| last_rdata := take 1024 (snd prev); first_time := 0 |} cur))
      /\ m' = from_option
                (fun c => {| last_rdata := take 1024 (snd c); first_time := 0 |})
                m (last captures).
Proof.
  intros Hcount Hl Hnamed captures m Hcaps. revert m.
  induction Hcaps as [|[t rdata] captures Hc _ IH]; intros m Hm.
  - exists m, []. by repeat split.
  - cbn [monitor_loop]. cbn [snd] in Hc.
    rewrite scan_iteration_spec by done. cbn [mbind outcome_bind].
    destruct (IH {| last_rdata := take 1024 rdata; first_time := 0 |})
      as (m' & outs & -> & Hlen & Hhead & Hnext & Hlast).
    { cbn. rewrite length_take. lia. }
    exists m', (turn_output g l sens m (t, rdata) :: outs).
    cbn [mbind outcome_bind length]. split; [done|]. split; [by rewrite Hlen|].
    split; [|split].
    + intros c [= <-]. done.
    + intros [|k] prev cur Hprev Hcur.
      * injection Hprev as <-.
        change (outs !! 0%nat
                = Some (turn_output g l sens
                          {| last_rdata := take 1024 rdata; first_time := 0 |} cur)).
        change (captures !! 0%nat = Some cur) in Hcur.
        rewrite <- head_lookup. apply Hhead. by rewrite head_lookup.
      * by apply (Hnext k).
    + rewrite Hlast. destruct captures as [|c' captures']; [done|].
      rewrite last_cons_cons.
      destruct (last (c' :: captures')) eqn:E; [done|].
      by apply last_None in E.
Qed.

(** X16: after the first turn a bit is reported exactly when it is shown, not
    ignored, and differs from the capture of the turn before. *)
Theorem later_turns_report_changes g l bsdl sens captures m :
  boundary_bit_count g <= MAX_BOUNDARY_BITS -> wf_locals l ->
  shown_bits_named g l (boundary_bit_count g) ->
  Forall (fun c : Z * list byte => (1024 <= length (snd c))%nat) captures ->
  length (last_rdata m) = 1024%nat ->
  exists m' outs,
    monitor_loop g l (Some bsdl) sens captures m = Ok (m', outs)
    /\ length outs = length captures
    /\ forall k prev cur,
         captures !! k = Some prev -> captures !! Datatypes.S k = Some cur ->
         exists out,
           outs !! Datatypes.S k = Some out
           /\ forall i, 0 <= i < boundary_bit_count g ->
                (exists e, e ∈ out /\ is_report i e)
                <-> show_flag l i = true /\ ignore_flag l i = false
                    /\ capture_bit (snd cur) i <> capture_bit (snd prev) i.
Proof.
  intros Hcount Hl Hnamed Hcaps Hm.
  destruct (monitor_loop_turns g l bsdl sens Hcount Hl Hnamed captures m Hcaps Hm)
    as (m' & outs & Hloop & Hlen & _ & Hnext & _).
  exists m', outs. split; [done|]. split; [done|].
  intros k prev cur Hprev Hcur. eexists. split; [by apply (Hnext k)|].
  intros i Hi. rewrite turn_output_reports.
  unfold display_predicate. cbn [first_time last_rdata Z.eqb negb andb orb].
  rewrite capture_bit_take by lia.
  destruct (show_flag l i), (ignore_flag l i),
    (capture_bit (snd cur) i), (capture_bit (snd prev) i); cbn; intuition congruence.
Qed.

(** X17: [last_value] is taken from a [char] and [value] from a [uint8_t];
    the bit extracted is the same, 0 or 1. *)
Theorem bit_of_char_or_byte b i :
  bit_of (schar b) i = bit_of (uint8 b) i
  /\ bit_of (uint8 b) i = Z.b2z (Z.testbit (uint8 b) (i mod 8))
  /\ 0 <= bit_of (uint8 b) i <= 1.
Proof.
  split; [apply bit_of_schar|]. split; [apply bit_of_testbit|].
  rewrite bit_of_testbit. by destruct (Z.testbit _ _).
Qed.

(** ** The load phase: exits, messages, and the tables it leaves *)

Section NeverExits.

Context {A B : Type}.

Lemma never_exits_ok (a : A) : never_exits (Ok a).
Proof. by intros c. Qed.

Lemma never_exits_fault f : never_exits (@Fault A f).
Proof. by intros c. Qed.

Lemma never_exits_bind (m : outcome A) (k : A -> outcome B) :
  never_exits m -> (forall a, m = Ok a -> never_exits (k a)) -> never_exits (m ≫= k).
Proof.
  intros Hm Hk c. destruct m as [a|f|c']; cbn [mbind outcome_bind].
  - by apply Hk.
  - done.
  - by destruct (Hm c').
Qed.

Lemma never_exits_load w (arr : list A) i : never_exits (load w arr i).
Proof. unfold load. intros c. by destruct (if 0 <=? i then _ else _). Qed.

Lemma never_exits_store w (arr : list A) i x : never_exits (store w arr i x).
Proof. unfold store. intros c. by destruct (_ && _). Qed.

Lemma never_exits_deref (p : option A) : never_exits (deref p).
Proof. intros c. by destruct p. Qed.

End NeverExits.

Lemma never_exits_strcmp a b : never_exits (strcmp_eq a b).
Proof. intros c. by destruct a, b. Qed.

Lemma never_exits_for_loop {S} (body : Z -> S -> outcome S) n : forall lo s,
  (forall i s, never_exits (body i s)) -> never_exits (for_loop n lo body s).
Proof.
  induction n as [|n IH]; intros lo s Hbody; cbn [for_loop].
  - apply never_exits_ok.
  - apply never_exits_bind; [apply Hbody|]. intros s' _. by apply IH.
Qed.

Lemma never_exits_xdc_line line : never_exits (xdc_line line).
Proof.
  unfold xdc_line. destruct (bool_decide _); [apply never_exits_ok|].
  apply never_exits_bind.
  { destruct (_ <$> strstr _ (str "PACKAGE_PIN")); [|apply never_exits_ok].
    unfold rewrite_from. intros c. by destruct (cut_at_space _). }
  intros line1 _. apply never_exits_bind.
  { destruct (_ <$> strstr _ (str "get_ports")); [|apply never_exits_ok].
    unfold rewrite_from. intros c. by destruct (cut_at_bracket _ _). }
  intros line2 _.
  destruct (_ <$> strstr _ (str "PACKAGE_PIN")) as [pp|]; [|apply never_exits_ok].
  destruct (_ <$> (_ <$> strstr _ (str "get_ports"))) as [sp|]; [|apply never_exits_ok].
  assert (forall l p, never_exits (cstr_at l p)) as Hcstr.
  { intros l p c. unfold cstr_at. by destruct (span _ _) as [? [|? ?]]. }
  apply never_exits_bind; [apply Hcstr|]. intros pin _.
  apply never_exits_bind; [apply Hcstr|]. intros signal _. apply never_exits_ok.
Qed.

Lemma never_exits_add_pin g m : never_exits (add_pin g m).
Proof.
  unfold add_pin. apply never_exits_bind; [apply never_exits_store|]. intros pins _.
  apply never_exits_bind; [apply never_exits_store|]. intros signals _.
  apply never_exits_ok.
Qed.

Lemma never_exits_parse_xdc_loop chunks : forall line g,
  never_exits (parse_xdc_loop chunks line g).
Proof.
  induction chunks as [|chunk chunks IH]; intros line g; cbn [parse_xdc_loop].
  - apply never_exits_ok.
  - destruct (bool_decide _); [apply never_exits_ok|].
    apply never_exits_bind; [apply never_exits_xdc_line|]. intros [line' found] _.
    apply never_exits_bind.
    + destruct found; [apply never_exits_add_pin|apply never_exits_ok].
    + intros g' _. apply IH.
Qed.

Lemma never_exits_scan_bit g line : never_exits (scan_bit g line).
Proof.
  unfold scan_bit. destruct (sscanf line bit_format) as [n vals].
  destruct (n =? 4); [|apply never_exits_ok].
  destruct vals as [|[?|bit_number] [|[bit_name|?] [|[bit_type|?] [|[bit_default|?] [|? ?]]]]];
    try apply never_exits_ok.
  destruct (_ && _); [|apply never_exits_ok].
  apply never_exits_bind; [apply never_exits_store|]. intros types _.
  apply never_exits_bind; [apply never_exits_store|]. intros fullnames _.
  apply never_exits_bind; [apply never_exits_store|]. intros pins _.
  apply never_exits_ok.
Qed.

Lemma never_exits_parse_bsdl_loop chunks : forall g out,
  never_exits (parse_bsdl_loop chunks g out).
Proof.
  induction chunks as [|chunk chunks IH]; intros g out; cbn [parse_bsdl_loop].
  - apply never_exits_ok.
  - destruct (cstr chunk); [apply never_exits_ok|].
    apply never_exits_bind.
    + unfold bsdl_line. destruct (scan_header g _) as [g1 ev].
      apply never_exits_bind; [apply never_exits_scan_bit|]. intros g2 _.
      apply never_exits_ok.
    + intros [g' ev] _. apply IH.
Qed.

Lemma never_exits_resolve_bit g sens i st : never_exits (resolve_bit g sens i st).
Proof.
  unfold resolve_bit. destruct st as [l out].
  apply never_exits_bind.
  { unfold resolve_signal, for_range. apply never_exits_for_loop. intros j s.
    apply never_exits_bind; [apply never_exits_load|]. intros pin _.
    apply never_exits_bind; [apply never_exits_load|]. intros bit_pin _.
    apply never_exits_bind; [apply never_exits_strcmp|]. intros [|] _;
      [apply never_exits_load|apply never_exits_ok]. }
  intros s _. apply never_exits_bind; [apply never_exits_store|]. intros names _.
  apply never_exits_bind; [apply never_exits_strcmp|]. intros is_clk _.
  apply never_exits_bind; [apply never_exits_store|]. intros ignore _.
  apply never_exits_bind.
  { destruct sens as [sens|]; [|apply never_exits_ok].
    apply never_exits_bind; [apply never_exits_deref|]. intros signal _.
    destruct (strcasestr sens signal);
      (apply never_exits_bind; [apply never_exits_store|]; intros ? _;
       apply never_exits_ok). }
  intros [ignore' out'] _.
  apply never_exits_bind; [apply never_exits_load|]. intros type _.
  apply never_exits_bind; [apply never_exits_strcmp|]. intros is_input _.
  apply never_exits_bind; [apply never_exits_store|]. intros show _.
  apply never_exits_ok.
Qed.

Lemma never_exits_build_resolver g sens l out :
  never_exits (build_resolver g sens l out).
Proof.
  unfold build_resolver, for_range. apply never_exits_for_loop.
  intros i st. apply never_exits_resolve_bit.
Qed.

(** X18: the load phase ends the program only where a file that was named
    cannot be opened, with the status -1. *)
Theorem load_phase_exits fs xdc bsdl sens line0 l0 g c :
  load_phase fs xdc bsdl sens line0 l0 g = Exit c
  <-> c = -1
      /\ (cannot_open fs xdc
          \/ (cannot_open fs bsdl
              /\ forall name, xdc = Some name ->
                   exists g', parse_xdc (fs name) line0 g = Ok g')).
Proof.
  unfold load_phase, cannot_open. split.
  - destruct xdc as [x|].
    + unfold parse_xdc at 1. destruct (fs x) as [file|] eqn:Hx.
      * pose proof (never_exits_parse_xdc_loop (fgets_results file) line0 g) as Hne.
        destruct (parse_xdc_loop _ _ _) as [g1| |c1] eqn:Hloop;
          cbn [mbind outcome_bind]; [|done|by destruct (Hne c1)].
        destruct bsdl as [b|].
        -- unfold parse_bsdl. destruct (fs b) as [file'|] eqn:Hb.
           ++ pose proof (never_exits_parse_bsdl_loop (fgets_results file')
                            (clear_boundary_bits g1) []) as Hne'.
              destruct (parse_bsdl_loop _ _ _) as [[g2 ev]| |c2];
                cbn [mbind outcome_bind]; [|done|by destruct (Hne' c2)].
              pose proof (never_exits_build_resolver g2 sens l0 ([] ++ ev)) as Hne''.
              destruct (build_resolver _ _ _ _) as [[l' out']| |c3];
                cbn [mbind outcome_bind]; [done|done|by destruct (Hne'' c3)].
           ++ cbn [mbind outcome_bind]. intros [= <-]. split; [done|]. right.
              split; [by exists b|]. intros name [= <-]. exists g1.
              unfold parse_xdc. by rewrite Hx.
        -- cbn [mbind outcome_bind].
           pose proof (never_exits_build_resolver (clear_boundary_bits g1) sens l0
                         ([] ++ [WarnNoBsdl])) as Hne''.
           destruct (build_resolver _ _ _ _) as [[l' out']| |c3];
             cbn [mbind outcome_bind]; [done|done|by destruct (Hne'' c3)].
      * cbn [mbind outcome_bind]. intros [= <-]. split; [done|]. left. by exists x.
    + cbn [mbind outcome_bind]. destruct bsdl as [b|].
      * unfold parse_bsdl. destruct (fs b) as [file'|] eqn:Hb.
        -- pose proof (never_exits_parse_bsdl_loop (fgets_results file')
                         (clear_boundary_bits g) []) as Hne'.
           destruct (parse_bsdl_loop _ _ _) as [[g2 ev]| |c2];
             cbn [mbind outcome_bind]; [|done|by destruct (Hne' c2)].
           pose proof (never_exits_build_resolver g2 sens l0 ([WarnNoXdc] ++ ev)) as Hne''.
           destruct (build_resolver _ _ _ _) as [[l' out']| |c3];
             cbn [mbind outcome_bind]; [done|done|by destruct (Hne'' c3)].
        -- cbn [mbind outcome_bind]. intros [= <-]. split; [done|]. right.
           split; [by exists b|]. by intros name.
      * cbn [mbind outcome_bind].
        pose proof (never_exits_build_resolver (clear_boundary_bits g) sens l0
                      ([WarnNoXdc] ++ [WarnNoBsdl])) as Hne''.
        destruct (build_resolver _ _ _ _) as [[l' out']| |c3];
          cbn [mbind outcome_bind]; [done|done|by destruct (Hne'' c3)].
  - intros [-> [(x & -> & Hx)|[(b & -> & Hb) Hxdc]]].
    + unfold parse_xdc. by rewrite Hx.
    + assert (exists g1 out1,
                match xdc with
                | Some name => parse_xdc (fs name) line0 g ≫= fun g => Ok (g, [])
                | None => Ok (g, [WarnNoXdc])
                end = Ok (g1, out1)) as (g1 & out1 & ->).
      { destruct xdc as [x|]; [|by eexists _, _].
        destruct (Hxdc x eq_refl) as [g1 ->]. by eexists _, _. }
      cbn [mbind outcome_bind]. unfold parse_bsdl. by rewrite Hb.
Qed.

Lemma same_pins_refl g : same_pins g g.
Proof. by repeat split. Qed.

Lemma same_pins_trans g1 g2 g3 : same_pins g1 g2 -> same_pins g2 g3 -> same_pins g1 g3.
Proof. intros (? & ? & ?) (? & ? & ?). repeat split; congruence. Qed.


Lemma scan_header_pins g line : same_pins g (fst (scan_header g line)).
Proof.
  unfold scan_header. destruct (sscanf line header_format) as [n vals].
  destruct vals as [|[p|?] [|[?|c] ?]]; by repeat split.
Qed.

Lemma scan_bit_pins g line g' : scan_bit g line = Ok g' -> same_pins g g'.
Proof.
  unfold scan_bit. destruct (sscanf line bit_format) as [n vals].
  destruct (n =? 4); [|by intros [= <-]; apply same_pins_refl].
  destruct vals as [|[?|bit_number] [|[bit_name|?] [|[bit_type|?] [|[bit_default|?] [|? ?]]]]];
    try (by intros [= <-]; apply same_pins_refl).
  destruct (_ && _); [|by intros [= <-]; apply same_pins_refl].
  destruct (store BoundaryBitType _ _ _); cbn [mbind outcome_bind]; [|done..].
  destruct (store BoundaryBitFullname _ _ _); cbn [mbind outcome_bind]; [|done..].
  destruct (store BoundaryBitPin _ _ _); cbn [mbind outcome_bind]; [|done..].
  intros [= <-]. by repeat split.
Qed.

Lemma parse_bsdl_loop_pins chunks : forall g out g' out',
  parse_bsdl_loop chunks g out = Ok (g', out') -> same_pins g g'.
Proof.
  induction chunks as [|chunk chunks IH]; intros g out g' out'; cbn [parse_bsdl_loop].
  - intros [= <- _]. apply same_pins_refl.
  - destruct (cstr chunk) as [|c line]; [intros [= <- _]; apply same_pins_refl|].
    unfold bsdl_line. pose proof (scan_header_pins g (c :: line)) as Hh.
    destruct (scan_header g (c :: line)) as [g1 ev]. cbn [fst] in Hh.
    destruct (scan_bit g1 (c :: line)) as [g2| |] eqn:Hbit;
      cbn [mbind outcome_bind]; [|done..].
    intros Hrest. apply IH in Hrest. apply scan_bit_pins in Hbit.
    eauto using same_pins_trans.
Qed.

(** X19: [parse_bsdl] returns on every file, whatever it holds, and leaves
    the pin tables as they are. *)
Theorem parse_bsdl_returns file g :
  wf_globals g ->
  exists g' out,
    parse_bsdl (Some file) g = Ok (g', out)
    /\ wf_globals g' /\ same_pins g g'.
Proof.
  intros Hwf. unfold parse_bsdl.
  destruct (parse_bsdl_loop_spec (fgets_results file) g [] Hwf)
    as (g' & Hloop & _ & _ & Hwf').
  exists g'. eexists. split; [done|]. split; [done|].
  by eapply parse_bsdl_loop_pins.
Qed.

(** The stages of a load phase that returned. *)
Lemma load_phase_inv fs xdc bsdl sens line0 l0 g0 g l out :
  wf_globals g0 -> wf_locals l0 ->
  load_phase fs xdc bsdl sens line0 l0 g0 = Ok (g, l, out) ->
  exists g1,
    match xdc with
    | Some name => parse_xdc (fs name) line0 g0 = Ok g1
    | None => g1 = g0
    end
    /\ same_pins g1 g
    /\ build_resolver g sens l0 (pin_file_messages xdc ++ layout_messages fs bsdl)
       = Ok (l, out)
    /\ wf_globals g /\ bits_together g.
Proof.
  intros Hg0 Hl0. unfold load_phase.
  assert (exists o1, o1 = match xdc with
                          | Some name => parse_xdc (fs name) line0 g0
                          | None => Ok g0
                          end) as [o1 Ho1] by by eexists.
  assert (match xdc with
          | Some name => parse_xdc (fs name) line0 g0 ≫= fun g => Ok (g, [])
          | None => Ok (g0, [WarnNoXdc])
          end = o1 ≫= fun g => Ok (g, pin_file_messages xdc)) as ->.
  { subst o1. by destruct xdc. }
  destruct o1 as [g1| |]; cbn [mbind outcome_bind]; [|done..].
  assert (wf_globals g1) as Hg1.
  { destruct xdc as [name|]; [|by injection Ho1 as ->].
    unfold parse_xdc in Ho1. destruct (fs name) as [file|]; [|done].
    symmetry in Ho1. by eapply parse_xdc_loop_wf. }
  assert (match xdc with
          | Some name => parse_xdc (fs name) line0 g0 = Ok g1
          | None => g1 = g0
          end) as Hx.
  { destruct xdc; [done|]. by injection Ho1 as ->. }
  destruct (clear_boundary_bits_spec g1 Hg1) as [Hgc Htogc].
  assert (same_pins g1 (clear_boundary_bits g1)) as Hpc by by repeat split.
  destruct bsdl as [name|].
  - unfold parse_bsdl. cbn [layout_messages]. destruct (fs name) as [file|]; [|done].
    destruct (parse_bsdl_loop_spec (fgets_results file) (clear_boundary_bits g1) [] Hgc)
      as (g2 & Hloop & _ & _ & Hg2).
    rewrite Hloop. cbn [mbind outcome_bind app default from_option id].
    destruct (parse_bsdl_loop_together _ _ _ _ _ Hgc Htogc Hloop) as [_ Htog2].
    apply parse_bsdl_loop_pins in Hloop.
    destruct (build_resolver _ _ _ _) as [[l' out']| |] eqn:Hbuild;
      cbn [mbind outcome_bind]; [|done..].
    intros [= <- <- <-]. exists g1. split; [done|].
    split; [eauto using same_pins_trans|]. done.
  - cbn [mbind outcome_bind layout_messages].
    destruct (build_resolver _ _ _ _) as [[l' out']| |] eqn:Hbuild;
      cbn [mbind outcome_bind]; [|done..].
    intros [= <- <- <-]. exists g1. done.
Qed.

Lemma load_phase_tables fs xdc bsdl sens line0 l0 g0 g l out records :
  wf_globals g0 -> wf_locals l0 ->
  load_phase fs xdc bsdl sens line0 l0 g0 = Ok (g, l, out) ->
  holds_mappings g records ->
  tables_ready g records (boundary_bit_count g)
  /\ boundary_bit_count g <= MAX_BOUNDARY_BITS
  /\ build_resolver g sens l0 (pin_file_messages xdc ++ layout_messages fs bsdl)
     = Ok (l, out).
Proof.
  intros Hg0 Hl0 Hload Hrec.
  destruct (load_phase_inv _ _ _ _ _ _ _ _ _ _ Hg0 Hl0 Hload)
    as (g1 & _ & _ & Hbuild & Hg & Htog).
  destruct (build_resolver_ok _ _ _ _ _ _ Hg Hl0 Hbuild) as (Hcount & _ & Hnamed).
  split; [|done]. split; [done..|]. intros i Hi.
  destruct (Hnamed i Hi) as [Hty _]. destruct (Htog i Hty). done.
Qed.

(** X20: what a load phase that returns has printed: the warning for a
    missing pin file, the header lines of the layout file or the warning for
    a missing one, then the notices of the sensitivity list. *)
Theorem load_phase_messages fs xdc bsdl sens line0 l0 g0 g l out records :
  wf_globals g0 -> wf_locals l0 ->
  load_phase fs xdc bsdl sens line0 l0 g0 = Ok (g, l, out) ->
  holds_mappings g records ->
  out = pin_file_messages xdc ++ layout_messages fs bsdl
        ++ from_option
             (fun s => sensitivity_notices g records s (boundary_bit_count g)) [] sens.
Proof.
  intros Hg0 Hl0 Hload Hrec.
  destruct (load_phase_tables _ _ _ _ _ _ _ _ _ _ _ Hg0 Hl0 Hload Hrec)
    as (Hready & Hcount & Hbuild).
  destruct (build_resolver_full g records sens l0
              (pin_file_messages xdc ++ layout_messages fs bsdl) Hready Hcount Hl0)
    as (l' & Hfull & _).
  rewrite Hfull in Hbuild. injection Hbuild as _ <-. by rewrite <- app_assoc.
Qed.

(** X21: without a pin file every bit below the count gets the signal
    "<unknown>", and no bit is ignored unless a sensitivity list is given. *)
Theorem no_pin_file_all_unknown fs bsdl sens line0 l0 g0 g l out :
  wf_globals g0 -> wf_locals l0 -> pin_count g0 = 0 ->
  load_phase fs None bsdl sens line0 l0 g0 = Ok (g, l, out) ->
  head out = Some WarnNoXdc
  /\ forall i, 0 <= i < boundary_bit_count g ->
       bbit_names l !! Z.to_nat i = Some (Some unknown)
       /\ (sens = None -> bbit_ignore l !! Z.to_nat i = Some 0).
Proof.
  intros Hg0 Hl0 Hpins Hload.
  destruct (load_phase_inv _ _ _ _ _ _ _ _ _ _ Hg0 Hl0 Hload)
    as (g1 & -> & (_ & _ & Hc) & _).
  assert (holds_mappings g []) as Hrec.
  { split; [by rewrite Hc, Hpins|]. by intros j r. }
  destruct (load_phase_tables _ _ _ _ _ _ _ _ _ _ _ Hg0 Hl0 Hload Hrec)
    as (Hready & Hcount & Hbuild).
  destruct (build_resolver_full g [] sens l0
              (pin_file_messages None ++ layout_messages fs bsdl) Hready Hcount Hl0)
    as (l' & Hfull & _ & Hres & _).
  rewrite Hfull in Hbuild. injection Hbuild as <- <-. split; [done|].
  intros i Hi. destruct (Hres i Hi) as (Hn & Hig & _). split; [done|].
  intros ->. by rewrite Hig.
Qed.

(** ** The program on files in the usual form *)

(** X22: once the load phase has returned, every turn of the monitor loop
    returns, with or without a layout file, for captures of 1024 bytes or
    more. *)
Theorem monitor_returns_after_load fs xdc bsdl sens line0 l0 g0 g l out captures m :
  wf_globals g0 -> wf_locals l0 ->
  load_phase fs xdc bsdl sens line0 l0 g0 = Ok (g, l, out) ->
  Forall (fun c : Z * list byte => (1024 <= length (snd c))%nat) captures ->
  length (last_rdata m) = 1024%nat ->
  exists m' outs,
    monitor_loop g l bsdl sens captures m = Ok (m', outs)
    /\ length outs = length captures
    /\ (forall c, last captures = Some c ->
          m' = {| last_rdata := take 1024 (snd c); first_time := 0 |}).
Proof.
  intros Hg0 Hl0 Hload Hcaps Hm.
  destruct (load_phase_ready _ _ _ _ _ _ _ _ _ _ Hg0 Hl0 Hload)
    as (Hg & Hl & Hcount & Hnamed).
  destruct bsdl as [name|].
  - destruct (monitor_loop_turns g l name sens Hcount Hl Hnamed captures m Hcaps Hm)
      as (m' & outs & Hloop & Hlen & _ & _ & Hlast).
    exists m', outs. split; [done|]. split; [done|].
    intros c Hc. by rewrite Hlast, Hc.
  - assert (forall m, exists m' outs,
              monitor_loop g l None sens captures m = Ok (m', outs)
              /\ length outs = length captures
              /\ m' = from_option
                        (fun c => {| last_rdata := take 1024 (snd c); first_time := 0 |})
                        m (last captures)) as Hdump.
    { clear Hm m. induction Hcaps as [|[t rdata] captures Hc _ IH]; intros m.
      - by exists m, [].
      - cbn [monitor_loop scan_iteration]. cbn [snd] in Hc. unfold read_bytes.
        rewrite !decide_True by lia. cbn [mbind outcome_bind].
        destruct (IH {| last_rdata := take 1024 rdata; first_time := 0 |})
          as (m' & outs & -> & Hlen & Hlast).
        cbn [mbind outcome_bind]. eexists _, _. split; [done|].
        split; [cbn; by rewrite Hlen|].
        rewrite Hlast. destruct captures as [|c' captures']; [done|].
        rewrite last_cons_cons.
        destruct (last (c' :: captures')) eqn:E; [done|]. by apply last_None in E. }
    destruct (Hdump m) as (m' & outs & Hloop & Hlen & Hlast).
    exists m', outs. split; [done|]. split; [done|].
    intros c Hc. by rewrite Hlast, Hc.
Qed.





(** ** The properties on the sample files *)

Ltac by_computation :=
  first [ refine (bool_decide_unpack _ _); vm_compute; exact I
        | unfold spaces, word, digits, blanks, field, stops; cbn;
          refine (bool_decide_unpack _ _); vm_compute; exact I ].

Ltac whole_line_of body :=
  split; [vm_compute; lia|exists body; split; [reflexivity|by_computation]].

Lemma fgets_results_partition_witness :
  concat (fgets_results usual_layout) = usual_layout
  /\ bsdl_lines (fgets_results usual_layout) = fgets_results usual_layout.
Proof.
  destruct (fgets_results_partition usual_layout) as (Hcat & _ & _ & Hall).
  split; [exact Hcat|]. apply Hall. by_computation.
Defined.

Lemma nul_line_ends_parsing_witness :
  parse_xdc (Some (sample_xdc ++ NUL :: sample_xdc_a3)) stack_line initial_globals
  = parse_xdc (Some sample_xdc) stack_line initial_globals
  /\ parse_bsdl (Some (sample_xdc ++ NUL :: sample_xdc_a3)) initial_globals
     = parse_bsdl (Some sample_xdc) initial_globals.
Proof.
  apply nul_line_ends_parsing. right. vm_compute. reflexivity.
Defined.

Lemma usual_pin_file : pin_file_form usual_pin_lines usual_founds.
Proof.
  split; [|split].
  - apply Forall_cons. split; [whole_line_of (str "## pins")|].
    apply Forall_cons. split.
    { whole_line_of (constraint_text (str "set_property -dict {") (str "A3")
                       (str "IOSTANDARD LVCMOS33} [") 1 (str "DATA_BUS[3]") 1 []). }
    apply Forall_cons. split.
    { whole_line_of (str "set_property CFGBVS VCCO [current_design]"). }
    apply Forall_cons. split; [|constructor].
    whole_line_of (constraint_text (str "set_property ") (str "A4") (str "[") 0
                     (str "CLK_IN") 0 []).
  - repeat (apply Forall_cons; split; [by_computation|]). constructor.
  - apply Forall2_cons. split; [by apply comment_line|].
    apply Forall2_cons. split.
    { eapply constraint_line; try reflexivity; try done; by_computation. }
    apply Forall2_cons. split; [apply other_line; by left|].
    apply Forall2_cons. split; [|constructor].
    eapply constraint_line; try reflexivity; try done; by_computation.
Qed.

Lemma pin_file_read_witness :
  exists g',
    parse_xdc (Some (concat usual_pin_lines)) stack_line initial_globals = Ok g'
    /\ holds_mappings g' ([] ++ omap id usual_founds).
Proof.
  apply pin_file_read.
  - reflexivity.
  - apply usual_pin_file.
  - apply initial_globals_wf.
  - split; [reflexivity|]. by intros j r.
  - vm_compute. discriminate.
Defined.

Lemma complete_lines_stay_in_buffer_witness :
  (exists g', parse_xdc (Some sample_xdc) stack_line initial_globals = Ok g')
  \/ parse_xdc (Some sample_xdc) stack_line initial_globals
     = Fault (OutOfBounds PinNames MAX_PINS).
Proof.
  apply (complete_lines_stay_in_buffer sample_xdc stack_line initial_globals []).
  - reflexivity.
  - by_computation.
  - by_computation.
  - apply initial_globals_wf.
  - split; [reflexivity|]. by intros j r.
Defined.

Lemma keyword_at_end_reads_past_buffer_witness :
  parse_xdc (Some long_line) stack_line initial_globals
  = Fault (OutOfBounds LineBuf 1024).
Proof.
  apply (keyword_at_end_reads_past_buffer (replicate 1012 "x"%char)).
  - reflexivity.
  - reflexivity.
  - by_computation.
  - by_computation.
  - by_computation.
  - vm_compute. reflexivity.
Defined.

Lemma header_statement_read_witness :
  bsdl_line initial_globals (header_line (str "XC7A100T_CSG324") (str "989"))
  = Ok (set_boundary_bit_count
          (set_part_name initial_globals (str "XC7A100T_CSG324")) 989,
        [FpgaAssumed (str "XC7A100T_CSG324") 989])
  /\ scan_header initial_globals
       (str "  attribute BOUNDARY_LENGTH of XC7A100T_CSG324 : entity is 989;")
     = (initial_globals, []).
Proof.
  destruct header_statement_read as [Hread Hnot]. split.
  - apply (Hread initial_globals (str " ") (str " ") (str " ") (str "XC7A100T_CSG324")
             (str " ") (str " ") (str " ") (str " ") (str "989") (str ";" ++ [NL]));
      try by_computation.
  - apply Hnot. discriminate.
Defined.

Lemma first_record_valid :
  valid_record (str "0", str "U1_DATA_PIN_A3", str "input").
Proof.
  unfold valid_record, digits, field, stops. cbn [fst snd].
  repeat split; try by_computation; try (vm_compute; reflexivity); try discriminate.
Qed.

Lemma layout_record_read_witness :
  bsdl_line initial_globals (record_line (str "0", str "U1_DATA_PIN_A3", str "input"))
  = Ok (store_record initial_globals (str "0", str "U1_DATA_PIN_A3", str "input"), [])
  /\ scan_bit initial_globals
       ([TAB; DQUOTE] ++ str "1000 (BC_2, IO_A4, input, X)," ++ [DQUOTE] ++ str " &")
     = Ok initial_globals.
Proof.
  destruct layout_record_read as (Hread & _ & Hquote). split.
  - destruct first_record_valid as (Hd & Hsmall & Hname & Htype & _ & _).
    apply (Hread initial_globals [TAB] (str "   ") (str "0") (str " ") (str "2")
             (str " ") (str "U1_DATA_PIN_A3") (str " ") (str "input") (str " ")
             (str "X") (str ")," ++ [DQUOTE] ++ str " &" ++ [NL]));
      try done; try by_computation.
  - apply (Hquote initial_globals [TAB] "1"%char); [|discriminate..].
    by_computation.
Defined.

Lemma scanned_strings_fit_witness :
  (length (str "XC7A100T_CSG324") < LINE_SIZE)%nat.
Proof.
  apply (scanned_strings_fit header_only_bsdl header_only_bsdl header_format).
  - vm_compute. apply list_elem_of_here.
  - vm_compute. apply list_elem_of_here.
Defined.

Lemma pin_is_name_after_underscore_witness :
  exists pin,
    boundary_bit_pin (fst usual_tables) !! 0%nat = Some (Some pin)
    /\ (("_"%char) ∉ pin)
    /\ (pin = str "U1_DATA_PIN_A3"
        \/ exists before, str "U1_DATA_PIN_A3" = before ++ "_"%char :: pin).
Proof.
  apply (pin_is_name_after_underscore usual_layout initial_globals
           _ (snd usual_tables)).
  - apply initial_globals_wf.
  - vm_compute. reflexivity.
  - vm_compute. reflexivity.
Defined.

Lemma parse_bsdl_returns_witness :
  exists g' out,
    parse_bsdl (Some sample_bsdl) initial_globals = Ok (g', out)
    /\ wf_globals g' /\ same_pins initial_globals g'.
Proof. apply parse_bsdl_returns. apply initial_globals_wf. Defined.



Lemma default_ignore_is_clk_in_witness :
  exists l',
    build_resolver (fst (sample_loaded "pins.xdc")) None stack_locals [] = Ok (l', [])
    /\ forall i, 0 <= i < boundary_bit_count (fst (sample_loaded "pins.xdc")) ->
         bbit_ignore l' !! Z.to_nat i
         = Some (if bool_decide
                      (resolved_signal (fst (sample_loaded "pins.xdc")) sample_records i
                       = str "CLK_IN")
                 then 1 else 0).
Proof.
  apply default_ignore_is_clk_in.
  - rewrite sample_count. apply sample_ready.
  - rewrite sample_count. unfold MAX_BOUNDARY_BITS. lia.
  - apply stack_locals_wf.
Defined.

Lemma show_only_inputs_witness :
  exists l' out',
    build_resolver (fst (sample_loaded "pins.xdc")) (Some (str "clk")) stack_locals []
    = Ok (l', out')
    /\ forall i type, 0 <= i < boundary_bit_count (fst (sample_loaded "pins.xdc")) ->
         boundary_bit_type (fst (sample_loaded "pins.xdc")) !! Z.to_nat i
         = Some (Some type) ->
         bbit_show l' !! Z.to_nat i
         = Some (if bool_decide (type = str "input") then 1 else 0).
Proof.
  apply (show_only_inputs _ sample_records).
  - rewrite sample_count. apply sample_ready.
  - rewrite sample_count. unfold MAX_BOUNDARY_BITS. lia.
  - apply stack_locals_wf.
Defined.

Lemma sensitivity_notices_printed_witness :
  exists l',
    build_resolver (fst (sample_loaded "pins.xdc")) (Some (str "clk,DATA0"))
      stack_locals []
    = Ok (l', []
              ++ (if 0 <? boundary_bit_count (fst (sample_loaded "pins.xdc"))
                  then [ApplySensitivity (str "clk,DATA0")] else [])
              ++ (AddSensitivity
                    <$> filter (fun s => is_Some (strcasestr (str "clk,DATA0") s))
                          (resolved_signal (fst (sample_loaded "pins.xdc"))
                             sample_records
                             <$> seqZ 0 (boundary_bit_count
                                           (fst (sample_loaded "pins.xdc")))))).
Proof.
  apply sensitivity_notices_printed.
  - rewrite sample_count. apply sample_ready.
  - rewrite sample_count. unfold MAX_BOUNDARY_BITS. lia.
  - apply stack_locals_wf.
Defined.

Lemma resolver_writes_below_count_witness :
  same_from (Z.to_nat (boundary_bit_count (fst (sample_loaded "pins.xdc"))))
    stack_locals (snd (sample_loaded "pins.xdc"))
  /\ wf_locals (snd (sample_loaded "pins.xdc")).
Proof.
  apply (resolver_writes_below_count _ None _ [] _ []).
  - apply stack_locals_wf.
  - vm_compute. reflexivity.
Defined.

Lemma load_phase_exits_witness :
  load_phase header_only_fs (Some (str "pins.xdc")) None None
    stack_line stack_locals initial_globals = Exit (-1).
Proof.
  apply load_phase_exits. split; [reflexivity|]. left.
  exists (str "pins.xdc"). split; reflexivity.
Defined.

Lemma sample_run_result :
  sample_run = Ok (run_result sample_run).
Proof. vm_compute. reflexivity. Qed.

Lemma sample_run_tables :
  (run_result sample_run).1 = sample_loaded "pins.xdc".
Proof. vm_compute. reflexivity. Qed.

Lemma sample_run_pins :
  holds_mappings (run_result sample_run).1.1 sample_records.
Proof.
  split; [vm_compute; reflexivity|].
  intros j r Hr.
  destruct j as [|[|[|[|j]]]]; vm_compute in Hr; inversion Hr; subst r;
    vm_compute; split; reflexivity.
Qed.

Lemma load_phase_messages_witness :
  (run_result sample_run).2
  = pin_file_messages (Some (str "pins.xdc"))
    ++ layout_messages sample_fs (Some (str "part.bsdl"))
    ++ from_option
         (fun s => sensitivity_notices (run_result sample_run).1.1 sample_records s
                     (boundary_bit_count (run_result sample_run).1.1))
         [] None.
Proof.
  apply (load_phase_messages sample_fs (Some (str "pins.xdc")) (Some (str "part.bsdl"))
           None stack_line stack_locals initial_globals
           (run_result sample_run).1.1 (run_result sample_run).1.2).
  - apply initial_globals_wf.
  - apply stack_locals_wf.
  - vm_compute. reflexivity.
  - apply sample_run_pins.
Defined.

Lemma no_pin_file_all_unknown_witness :
  head (run_result sample_run_no_pins).2 = Some WarnNoXdc
  /\ forall i, 0 <= i < boundary_bit_count (run_result sample_run_no_pins).1.1 ->
       bbit_names (run_result sample_run_no_pins).1.2 !! Z.to_nat i
       = Some (Some unknown)
       /\ (@None (list ascii) = None ->
           bbit_ignore (run_result sample_run_no_pins).1.2 !! Z.to_nat i = Some 0).
Proof.
  apply (no_pin_file_all_unknown sample_fs (Some (str "part.bsdl")) None
           stack_line stack_locals initial_globals).
  - apply initial_globals_wf.
  - apply stack_locals_wf.
  - reflexivity.
  - vm_compute. reflexivity.
Defined.


Lemma monitor_returns_after_load_witness :
  exists m' outs,
    monitor_loop (run_result sample_run).1.1 (run_result sample_run).1.2
      (Some (str "part.bsdl")) None
      [(5, sample_rdata); (9, replicate 1024 Byte.x04)] sample_monitor
    = Ok (m', outs)
    /\ length outs = length [(5, sample_rdata); (9, replicate 1024 Byte.x04)]
    /\ (forall c, last [(5, sample_rdata); (9, replicate 1024 Byte.x04)] = Some c ->
          m' = {| last_rdata := take 1024 (snd c); first_time := 0 |}).
Proof.
  apply (monitor_returns_after_load sample_fs (Some (str "pins.xdc"))
           (Some (str "part.bsdl")) None stack_line stack_locals initial_globals
           _ _ (run_result sample_run).2).
  - apply initial_globals_wf.
  - apply stack_locals_wf.
  - vm_compute. reflexivity.
  - repeat constructor; vm_compute; lia.
  - vm_compute. reflexivity.
Defined.

Lemma turn_prints_time_then_bits_witness :
  exists out,
    scan_iteration (fst (sample_loaded "pins.xdc")) (snd (sample_loaded "pins.xdc"))
      (Some (str "part.bsdl")) None (5, sample_rdata) sample_monitor
    = Ok ({| last_rdata := take 1024 sample_rdata; first_time := 0 |}, out)
    /\ head out = Some (SignalsChanged 5).
Proof.
  eexists. split.
  - apply turn_prints_time_then_bits.
    + rewrite sample_count. unfold MAX_BOUNDARY_BITS. lia.
    + apply sample_locals_wf.
    + vm_compute. lia.
    + vm_compute. reflexivity.
    + rewrite sample_count. apply sample_shown_named.
  - vm_compute. reflexivity.
Defined.

Lemma later_turns_report_changes_witness :
  exists m' outs,
    monitor_loop (fst (sample_loaded "pins.xdc")) (snd (sample_loaded "pins.xdc"))
      (Some (str "part.bsdl")) None
      [(5, sample_rdata); (9, replicate 1024 Byte.x04)] sample_monitor
    = Ok (m', outs)
    /\ length outs = length [(5, sample_rdata); (9, replicate 1024 Byte.x04)]
    /\ forall k prev cur,
         [(5, sample_rdata); (9, replicate 1024 Byte.x04)] !! k = Some prev ->
         [(5, sample_rdata); (9, replicate 1024 Byte.x04)] !! Datatypes.S k = Some cur ->
         exists out,
           outs !! Datatypes.S k = Some out
           /\ forall i, 0 <= i < boundary_bit_count (fst (sample_loaded "pins.xdc")) ->
                (exists e, e ∈ out /\ is_report i e)
                <-> show_flag (snd (sample_loaded "pins.xdc")) i = true
                    /\ ignore_flag (snd (sample_loaded "pins.xdc")) i = false
                    /\ capture_bit (snd cur) i <> capture_bit (snd prev) i.
Proof.
  apply later_turns_report_changes.
  - rewrite sample_count. unfold MAX_BOUNDARY_BITS. lia.
  - apply sample_locals_wf.
  - rewrite sample_count. apply sample_shown_named.
  - repeat constructor; vm_compute; lia.
  - vm_compute. reflexivity.
Defined.
